(** * Quantum Computing Playground: the QScript engine and its simulator

    A shallow embedding of the JavaScript sources
    ([js/qmath.js], [js/compiler.js] and the simulator file) together with
    the properties of the engine that the specification states.

    JavaScript numbers that the engine uses as integers are modelled by [Z];
    the 32-bit operators ([<<], [>>], [&]) are written out with their
    wrap-around.  The model is exact as long as every intermediate integer
    stays below 2^53 in absolute value (the range in which a JavaScript
    double holds integers exactly); the theorems that depend on it carry
    the bound as a hypothesis. *)

From Stdlib Require Import ZArith Lia Ascii String List Bool.
From Stdlib Require QArith.
From stdpp Require Import base option list gmap strings pretty.

Local Open Scope Z_scope.

(* ===================================================================== *)
(** * Part I.  Definitions                                                *)
(* ===================================================================== *)

(** ** JavaScript 32-bit integer operators *)

Module JS.

(** [ToInt32]: reduction modulo 2^32 into [-2^31, 2^31). *)
Definition to_int32 (x : Z) : Z := (x + 2 ^ 31) mod 2 ^ 32 - 2 ^ 31.

(** [a << b]: the shift count is taken modulo 32, the result wraps. *)
Definition shl32 (a b : Z) : Z := to_int32 (Z.shiftl (to_int32 a) (b mod 32)).

(** [a >> b]: sign-propagating right shift. *)
Definition shr32 (a b : Z) : Z := Z.shiftr (to_int32 a) (b mod 32).

(** [a & b]. *)
Definition and32 (a b : Z) : Z := to_int32 (Z.land (to_int32 a) (to_int32 b)).

(** A JavaScript number that is an integer, or [NaN]. *)
Definition num : Type := option Z.

Definition NaN : num := None.

(** [a % b]: truncated remainder, [NaN] when the divisor is zero. *)
Definition rem (a b : num) : num :=
  match a, b with
  | Some x, Some y => if y =? 0 then None else Some (Z.rem x y)
  | _, _ => None
  end.

Definition mul (a b : num) : num :=
  match a, b with
  | Some x, Some y => Some (x * y)
  | _, _ => None
  end.

(** [ToInt32] of a number: [NaN] becomes 0. *)
Definition num_to_int32 (a : num) : Z :=
  match a with
  | Some x => to_int32 x
  | None => 0
  end.

End JS.

(** ** [QMath]: the numeric helpers of js/qmath.js *)

Module QMath.

(** [for (i = 1; 1 << i < n; i++) {}  return i;]
    The loop is run with fuel; [None] means the fuel ran out. *)
Fixpoint getWidth_loop (fuel : nat) (n i : Z) : option Z :=
  match fuel with
  | O => None
  | S fuel' =>
      if JS.shl32 1 i <? n then getWidth_loop fuel' n (i + 1) else Some i
  end.

Definition getWidth (fuel : nat) (n : Z) : option Z := getWidth_loop fuel n 1.

(** The body of [while (exp > 0)] in [expModN]; [None] means the fuel
    ran out. *)
Fixpoint expModN_loop (fuel : nat) (N base result : JS.num) (exp : Z)
  : option JS.num :=
  match fuel with
  | O => None
  | S fuel' =>
      if 0 <? exp then
        let result' :=
          if JS.and32 exp 1 =? 0 then result
          else JS.rem (JS.mul result base) N in
        let base' := JS.rem (JS.mul base base) N in
        expModN_loop fuel' N base' result' (JS.shr32 exp 1)
      else Some result
  end.

(** [QMath.expModN(x, k, N)].  After its first [>>=] the exponent is a
    32-bit integer, so 33 rounds always suffice (see [expModN_total]). *)
Definition expModN (x k N : JS.num) : option JS.num :=
  match k with
  | Some exp => expModN_loop 33 N (JS.rem x N) (Some 1) exp
  | None => Some (Some 1)
  end.



(** [QMath.gcd(u, v)]: [while (v) { r = u % v; u = v; v = r; } return u;]
    on integers; [None] means the fuel ran out. *)
Fixpoint gcd (fuel : nat) (u v : Z) : option Z :=
  match fuel with
  | O => None
  | S fuel' => if v =? 0 then Some u else gcd fuel' v (Z.rem u v)
  end.

(** [QMath.inverseMod(n, c)]:
    [for (i = 1; (i * c) % n != 1; i++) {}  return i;]
    entered at [i]; [None] means the fuel ran out. *)
Fixpoint inverseMod_loop (fuel : nat) (n c i : Z) : option Z :=
  match fuel with
  | O => None
  | S fuel' =>
      match JS.rem (Some (i * c)) (Some n) with
      | Some 1 => Some i
      | _ => inverseMod_loop fuel' n c (i + 1)
      end
  end.

Definition inverseMod (fuel : nat) (n c : Z) : option Z := inverseMod_loop fuel n c 1.

End QMath.

(** ** Source text handling of [quantum.QScript.prototype.compile] *)

Module Text.

Definition CR : ascii := ascii_of_nat 13.
Definition TAB : ascii := ascii_of_nat 9.
Definition LF : ascii := ascii_of_nat 10.
Definition SPACE : ascii := ascii_of_nat 32.

(** [s.replace(c, by)] with a string pattern: JavaScript replaces the
    first occurrence only. *)
Fixpoint replace (c by_ : ascii) (s : string) : string :=
  match s with
  | EmptyString => EmptyString
  | String a rest =>
      if Ascii.eqb a c then String by_ rest else String a (replace c by_ rest)
  end.

(** [s.split('\n')], with the line being built kept in [cur] (reversed). *)
Fixpoint split_lines_aux (s : string) (cur : string) : list string :=
  match s with
  | EmptyString => [cur]
  | String a rest =>
      if Ascii.eqb a LF then cur :: split_lines_aux rest EmptyString
      else split_lines_aux rest (cur ++ String a EmptyString)
  end.

Definition split_lines (s : string) : list string := split_lines_aux s EmptyString.

(** The first two statements of [compile]:
    [script = script.replace('\r', ' ').replace('\t', ' ');
     this.text_ = script.split('\n');] *)
Definition compile_text (script : string) : list string :=
  split_lines (replace TAB SPACE (replace CR SPACE script)).

(** [c] occurs in [s]. *)
Fixpoint occurs (c : ascii) (s : string) : bool :=
  match s with
  | EmptyString => false
  | String a rest => Ascii.eqb a c || occurs c rest
  end.

End Text.

(** ** JavaScript values handled by the engine *)

Module Value.

Inductive Val : Type :=
  | VNum (z : Z)
  | VNaN
  | VBool (b : bool)
  | VUndef
  | VStr (s : string).

#[global] Instance Val_eq_dec : EqDecision Val.
Proof. solve_decision. Defined.

(** The host's [ToNumber] on strings (decimal and hexadecimal literals,
    blanks, ...) is not part of the engine; it is a parameter of the
    conversions below. *)
Definition ToNumber (str_to_num : string -> JS.num) (v : Val) : JS.num :=
  match v with
  | VNum z => Some z
  | VNaN => None
  | VBool b => Some (if b then 1 else 0)
  | VUndef => None
  | VStr s => str_to_num s
  end.

Definition of_num (n : JS.num) : Val :=
  match n with
  | Some z => VNum z
  | None => VNaN
  end.

(** [v.toString()] / string concatenation with [v].  The digits of a
    number are those of the integer as long as it is a safe integer (at
    most 2^53 in absolute value); the theorems that state the text of a
    number carry that bound. *)
Definition toString (v : Val) : string :=
  match v with
  | VNum z => pretty z
  | VNaN => "NaN"
  | VBool b => if b then "true" else "false"
  | VUndef => "undefined"
  | VStr s => s
  end.

(** Truthiness, as tested by [if (v)]. *)
Definition truthy (v : Val) : bool :=
  match v with
  | VNum z => negb (z =? 0)
  | VNaN => false
  | VBool b => b
  | VUndef => false
  | VStr s => negb (String.eqb s "")
  end.

Section Conversions.
Variable str_to_num : string -> JS.num.

(** [a < b]: two strings compare as strings, anything else as numbers;
    a comparison with [NaN] is false. *)
Definition lt (a b : Val) : bool :=
  match a, b with
  | VStr s, VStr t => String.ltb s t
  | _, _ =>
      match ToNumber str_to_num a, ToNumber str_to_num b with
      | Some x, Some y => x <? y
      | _, _ => false
      end
  end.

(** [a >= b]. *)
Definition ge (a b : Val) : bool :=
  match a, b with
  | VStr s, VStr t => negb (String.ltb s t)
  | _, _ =>
      match ToNumber str_to_num a, ToNumber str_to_num b with
      | Some x, Some y => y <=? x
      | _, _ => false
      end
  end.

(** [a > b]. *)
Definition gt (a b : Val) : bool := lt b a.

(** [a <= b]. *)
Definition le (a b : Val) : bool := ge b a.

(** Unary minus. *)
Definition neg (a : Val) : Val :=
  match ToNumber str_to_num a with
  | Some x => VNum (- x)
  | None => VNaN
  end.

(** [a + b]: concatenation as soon as one side is a string. *)
Definition add (a b : Val) : Val :=
  match a, b with
  | VStr _, _ | _, VStr _ => VStr (toString a ++ toString b)
  | _, _ =>
      match ToNumber str_to_num a, ToNumber str_to_num b with
      | Some x, Some y => VNum (x + y)
      | _, _ => VNaN
      end
  end.

(** [ToInt32(v)], as applied by the bit operators. *)
Definition to_int32 (a : Val) : Z := JS.num_to_int32 (ToNumber str_to_num a).

End Conversions.

End Value.

Export Value.

(** ** Interfaces to what is outside the JavaScript sources *)

(** 32-bit floats.  The engine moves amplitudes around and, for a full
    measurement, sums squared moduli; nothing below depends on how these
    operations round. *)
Class Float32 : Type := {
  F : Type;
  fzero : F;
  fone : F;
  fnan : F;
  fadd : F -> F -> F;
  fsub : F -> F -> F;
  fmul : F -> F -> F;
  fdiv : F -> F -> F;
  (** [- r] *)
  fneg : F -> F;
  (** the number [v], for an integer [v] *)
  fof_Z : Z -> F;
  (** [0 >= r] *)
  fnonpos : F -> bool;
  (** [r > s] *)
  fgt : F -> F -> bool;
}.

(** The GPU side of the simulator: the GLSL kernels live in the page, not
    in the JavaScript files.  A gate method of [quantum.Simulator] sets the
    uniforms of its shader and renders it; the effect of that rendering on
    the state texture is [kernel name args].  [float_word x] is the
    element of the [Uint32Array] that [readPixels] delivers for a texel
    holding [x], once [floatShader] has rendered it into four bytes;
    [bit_sum] is the reduction of [bmeasureShader] read by [getSum]. *)
Class Gpu `{Float32} : Type := {
  kernel : string -> list Val -> list F -> list F;
  float_word : F -> Z;
  bit_sum : Val -> Z -> list F -> F;
  collapse : Val -> Z -> F -> list F -> list F;
}.

(** The host of the engine: the expression evaluator ([eval] unless a
    provider is passed to the constructor) acting on the cells of the
    global object, [ToNumber] on strings, [Math.random], and the sampling
    loop of [applyDecoherence]. *)

(** Reading the property [c] of the global object: [undefined] when it
    is absent. *)
Definition cell (cells : gmap string Val) (c : string) : Val :=
  default VUndef (cells !! c).

Inductive EvalResult : Type :=
  | EvalValue (v : Val)
  | EvalThrow (message : string).

Class Host `{Float32} : Type := {
  eval_ : string -> gmap string Val -> EvalResult * gmap string Val;
  str_to_num : string -> JS.num;
  (** the n-th value returned by [Math.random()] *)
  random : nat -> F;
  (** [applyDecoherence]'s polar sampling, started at draw [n]: the number
      of draws it consumes *)
  decoherence_draws : Val -> Val -> nat -> nat;
}.

(** ** Arrays indexed by JavaScript numbers *)

Module Arr.

(** [a[i]]: [undefined] outside the array. *)
Definition get {A : Type} (l : list A) (i : Z) : option A :=
  if i <? 0 then None else l !! Z.to_nat i.

(** [a[i] = x] on a typed array: a write outside the array is ignored. *)
Definition set {A : Type} (l : list A) (i : Z) (x : A) : list A :=
  if i <? 0 then l else <[Z.to_nat i := x]> l.

(** The integers [0, 1, ..., n-1] (none when [n <= 0]). *)
Definition range (n : Z) : list Z := map Z.of_nat (seq 0 (Z.to_nat n)).

End Arr.

(** ** [quantum.Simulator] *)

Module Simulator.

Inductive Target : Type := Input1 | Input2.

Section Sim.
Context {FL : Float32} {G : Gpu} {H : Host}.

(** The simulator object.  [rtInput1]/[rtInput2] are the two float
    textures of the state vector, four floats (re, im, 0, 0) per basis
    state; [currentOutput] says which of them holds the current state.
    [texArray] is the JavaScript-side staging array and [rtOutput] the
    byte texture through which floats are read back.  The uniform slots of
    the shaders are written before every use and are not kept. *)
Record Sim : Type := mkSim {
  vectorSize : Val;
  stateCnt : Z;
  texWidth : Z;
  texArray : list F;
  rtInput1 : list F;
  rtInput2 : list F;
  currentOutput : Target;
  rtOutput : list F;
}.

Definition set_texArray (a : list F) (s : Sim) : Sim :=
  mkSim (vectorSize s) (stateCnt s) (texWidth s) a (rtInput1 s) (rtInput2 s)
        (currentOutput s) (rtOutput s).

Definition set_rtOutput (a : list F) (s : Sim) : Sim :=
  mkSim (vectorSize s) (stateCnt s) (texWidth s) (texArray s) (rtInput1 s)
        (rtInput2 s) (currentOutput s) a.

(** The texture named by [this.currentOutput]. *)
Definition current (s : Sim) : list F :=
  match currentOutput s with
  | Input1 => rtInput1 s
  | Input2 => rtInput2 s
  end.

(** Shift count of [1 << v]. *)
Definition shift_count (v : Val) : Z :=
  match ToNumber str_to_num v with
  | Some z => z
  | None => 0
  end.

(** Shift count of [1 << (v / 2)]: the quotient is truncated. *)
Definition half_shift_count (v : Val) : Z :=
  match ToNumber str_to_num v with
  | Some z => Z.quot z 2
  | None => 0
  end.

(** [generateZeroTexture]: zero every float of the first
    [texWidth * texWidth] pixels of [texArray], then [a[0] = 1.0]. *)
Definition generateZeroTexture (s : Sim) : Sim :=
  let n := 4 * (texWidth s * texWidth s) in
  let zeroed := imap (fun i x => if Z.of_nat i <? n then fzero else x) (texArray s) in
  set_texArray (Arr.set zeroed 0 fone) s.

(** [setState]: upload [texArray] into [rtInput1], copy it to [rtInput2]
    through the pass-through shader, and make [rtInput1] current. *)
Definition setState (s : Sim) : Sim :=
  mkSim (vectorSize s) (stateCnt s) (texWidth s) (texArray s)
        (texArray s) (texArray s) Input1 (rtOutput s).

(** [zeroState]. *)
Definition zeroState (s : Sim) : Sim := setState (generateZeroTexture s).

(** The loop of [init()] that allocates the textures of the reduction:
    [var rWidth = this.texWidth / 2;
     while (rWidth != 2) { ...; rWidth = rWidth / 2; }].
    In round [j] (counted from 1) [rWidth] is [texWidth / 2^j], halved
    without rounding, so that [rWidth != 2] is [texWidth != 2 * 2^j].
    The result is the round in which the loop ends; [None] means that
    the fuel ran out.  [texWidth] is below 2^31, so the loop ends within
    31 rounds or never. *)
Fixpoint init_loop (fuel : nat) (texWidth : Z) (j : nat) : option nat :=
  match fuel with
  | O => None
  | S fuel' =>
      if texWidth =? 2 * 2 ^ Z.of_nat j then Some j
      else init_loop fuel' texWidth (S j)
  end.

(** [new quantum.Simulator(renderer, vsize)] followed by [init()], when
    [init()] returns (the loop above):
    [stateCnt = 1 << vsize], [texWidth = 1 << (vsize / 2)], a fresh
    [Float32Array(texWidth * texWidth * 4)], and the state |0>. *)
Definition create (vsize : Val) : Sim :=
  let tw := JS.shl32 1 (half_shift_count vsize) in
  let blank := replicate (Z.to_nat (tw * tw * 4)) fzero in
  zeroState (mkSim vsize (JS.shl32 1 (shift_count vsize)) tw blank blank blank Input1 []).

(** [renderShader(shader)]: render from the current texture into the
    other one and flip. *)
Definition renderShader (k : list F -> list F) (s : Sim) : Sim :=
  match currentOutput s with
  | Input1 =>
      mkSim (vectorSize s) (stateCnt s) (texWidth s) (texArray s)
            (rtInput1 s) (k (rtInput1 s)) Input2 (rtOutput s)
  | Input2 =>
      mkSim (vectorSize s) (stateCnt s) (texWidth s) (texArray s)
            (k (rtInput2 s)) (rtInput2 s) Input1 (rtOutput s)
  end.

(** [intToFloat(v)] of [getResult]: bit 24 is the sign, and the value is
    counted in units of 2^-20:
    [if (v & (1 << 24)) return -((v & 0xffffff) / 1048576);
     return v / 1048576;] *)
Definition intToFloat (v : Z) : F :=
  if JS.and32 v (JS.shl32 1 24) =? 0 then fdiv (fof_Z v) (fof_Z 1048576)
  else fneg (fdiv (fof_Z (JS.and32 v 16777215)) (fof_Z 1048576)).

(** The round trip of one float through [renderFloat], [readPixels] and
    [intToFloat]; an element of a [Uint32Array] lies in [0, 2^32). *)
Definition readback (x : F) : F := intToFloat (float_word x mod 2 ^ 32).

(** One component plane of a texture, as [renderFloat], [readPixels] and
    [intToFloat] deliver it for [width * width] pixels (absent pixels read
    as zero). *)
Definition plane (tex : list F) (pixels : Z) (selector : Z) : list F :=
  map (fun i => readback (default fzero (Arr.get tex (4 * i + selector))))
      (Arr.range pixels).

(** Interleave two planes: [result[i * 2] = c1[i]; result[i * 2 + 1] = c2[i]]. *)
Fixpoint interleave (c1 c2 : list F) : list F :=
  match c1, c2 with
  | a :: c1', b :: c2' => a :: b :: interleave c1' c2'
  | _, _ => []
  end.

(** [getState()] = [getResult(currentOutput, texWidth, rtOutput, 2)]: the
    state as an interleaved array; [rtOutput] is left holding the second
    plane. *)
Definition getState (s : Sim) : list F * Sim :=
  let c1 := plane (current s) (texWidth s * texWidth s) 0 in
  let c2 := plane (current s) (texWidth s * texWidth s) 1 in
  (interleave c1 c2, set_rtOutput c2 s).

(** A read [state[j]] stored into a [Float32Array]: [undefined] is stored
    as [NaN]. *)
Definition read_f32 (state : list F) (j : Z) : F := default fnan (Arr.get state j).

(** *** Gates rendered by a shader *)

Definition applyHadamard (bitn : Val) : Sim -> Sim :=
  renderShader (kernel "applyHadamard" [bitn]).
Definition applyRx (bitn theta : Val) : Sim -> Sim :=
  renderShader (kernel "applyRx" [bitn; theta]).
Definition applyRy (bitn theta : Val) : Sim -> Sim :=
  renderShader (kernel "applyRy" [bitn; theta]).
Definition applyRz (bitn theta : Val) : Sim -> Sim :=
  renderShader (kernel "applyRz" [bitn; theta]).
Definition renderUnitary (bitn : Val) (matrix : list Val) : Sim -> Sim :=
  renderShader (kernel "renderUnitary" (bitn :: matrix)).
Definition applySwap (bit0 bit1 : Val) : Sim -> Sim :=
  renderShader (kernel "applySwap" [bit0; bit1]).
Definition applyToffoli (bit0 bit1 bit2 : Val) : Sim -> Sim :=
  renderShader (kernel "applyToffoli" [bit0; bit1; bit2]).
Definition applyCPhaseShift (control target angle : Val) : Sim -> Sim :=
  renderShader (kernel "applyCPhaseShift" [control; target; angle]).
(** [applyPhaseShift(control, target, inv)] is [applyCPhaseShift] at the
    angle [inv * Math.PI / (1 << (control - target))]. *)
Definition applyPhaseShift (control target : Val) (inv : Z) : Sim -> Sim :=
  renderShader (kernel "applyPhaseShift" [control; target; VNum inv]).
Definition applyCNot (bitc bitn : Val) : Sim -> Sim := applyToffoli bitc bitc bitn.
Definition applySigmaX (bitn : Val) : Sim -> Sim :=
  renderShader (kernel "applySigmaX" [bitn]).
Definition applySigmaY (bitn : Val) : Sim -> Sim :=
  renderShader (kernel "applySigmaY" [bitn]).
Definition applySigmaZ (bitn : Val) : Sim -> Sim :=
  renderShader (kernel "applySigmaZ" [bitn]).
Definition applyShiftLeft (nbits : Val) : Sim -> Sim :=
  renderShader (kernel "applyShiftLeft" [nbits]).
Definition applyShiftRight (nbits : Val) : Sim -> Sim :=
  renderShader (kernel "applyShiftRight" [nbits]).

(** [applyDecoherence(strength)], the polar sampling started at draw [rng]. *)
Definition applyDecoherence (strength : Val) (rng : nat) (s : Sim) : Sim * nat :=
  (renderShader (kernel "applyDecoherence" [strength; VNum (Z.of_nat rng)]) s,
   (rng + decoherence_draws strength (vectorSize s) rng)%nat).

(** The number of rounds of [for (i = 0; i < width; i++)]. *)
Definition loop_count (width : Val) : Z :=
  match ToNumber str_to_num width with
  | Some w => w
  | None => 0
  end.

(** [applyQFT(offset, width)]. *)
Definition applyQFT (offset width : Val) (s : Sim) : Sim :=
  let w := loop_count width in
  fold_left
    (fun s i =>
       let s := applyHadamard (Value.add str_to_num (VNum i) offset) s in
       fold_left
         (fun s d =>
            let j := i + 1 + d in
            applyPhaseShift (Value.add str_to_num (VNum j) offset)
                            (Value.add str_to_num (VNum i) offset) (-1) s)
         (Arr.range (w - (i + 1))) s)
    (Arr.range w) s.

(** [applyInvQFT(offset, width)]: both loops run downwards. *)
Definition applyInvQFT (offset width : Val) (s : Sim) : Sim :=
  match ToNumber str_to_num width with
  | None => s
  | Some w =>
      fold_left
        (fun s i =>
           let s :=
             fold_left
               (fun s j =>
                  applyPhaseShift (Value.add str_to_num (VNum j) offset)
                                  (Value.add str_to_num (VNum i) offset) 1 s)
               (rev (map (fun d => i + 1 + d) (Arr.range (w - 1 - i)))) s in
           applyHadamard (Value.add str_to_num (VNum i) offset) s)
        (rev (Arr.range w)) s
  end.

(** *** Modular exponentiation on the state *)

(** One round of the loop of [applyExpModN]/[applyRevExpModN], [e] being
    the value [QMath.expModN] returned:
    [idx = ((e << width) + i) * 4;
     texArray[idx] = state[i * 2]; texArray[idx + 1] = state[i * 2 + 1]]. *)
Definition place (state : list F) (width : Val) (e : JS.num) (i : Z)
    (tex : list F) : list F :=
  let idx := (JS.shl32 (JS.num_to_int32 e) (shift_count width) + i) * 4 in
  Arr.set (Arr.set tex idx (read_f32 state (i * 2))) (idx + 1)
          (read_f32 state (i * 2 + 1)).

(** [for (i = 0; i < cnt; i++)] over the rounds above; [power i] is the
    call of [QMath.expModN] of round [i]. *)
Definition place_all (state : list F) (width : Val)
    (power : Z -> option JS.num) (cnt : Z) (tex : list F) : option (list F) :=
  fold_left
    (fun acc i =>
       match acc with
       | Some tex =>
           match power i with
           | Some e => Some (place state width e i tex)
           | None => None
           end
       | None => None
       end)
    (Arr.range cnt) (Some tex).

(** The common body of [applyExpModN] and [applyRevExpModN]. *)
Definition permute (power : Z -> option JS.num) (width : Val) (s : Sim)
  : option Sim :=
  let '(state, s) := getState s in
  let cnt := JS.shl32 1 (shift_count width) in
  let s := generateZeroTexture s in
  let s := set_texArray (Arr.set (texArray s) 0 fzero) s in
  match place_all state width power cnt (texArray s) with
  | Some tex => Some (setState (set_texArray tex s))
  | None => None
  end.

(** [applyExpModN(x, N, width)]: round [i] uses [QMath.expModN(x, i, N)]. *)
Definition applyExpModN (x N width : Val) (s : Sim) : option Sim :=
  permute (fun i => QMath.expModN (ToNumber str_to_num x) (Some i)
                                  (ToNumber str_to_num N)) width s.

(** [applyRevExpModN(x, N, width)]: round [i] uses [QMath.expModN(i, x, N)]. *)
Definition applyRevExpModN (x N width : Val) (s : Sim) : option Sim :=
  permute (fun i => QMath.expModN (Some i) (ToNumber str_to_num x)
                                  (ToNumber str_to_num N)) width s.

(** *** Measurement *)

(** [applyBitMeasure(bitn)], [r] being the value of [Math.random()]. *)
Definition applyBitMeasure (bitn : Val) (r : F) (s : Sim) : Z * Sim :=
  let sum := bit_sum bitn 0 (current s) in
  let result := if fgt r sum then 1 else 0 in
  (result, renderShader (collapse bitn result (bit_sum bitn result (current s))) s).

(** [state[i] * state[i] + state[i + 1] * state[i + 1]] *)
Definition modulus2 (re im : F) : F := fadd (fmul re re) (fmul im im).

(** First loop of [applyMeasure]: [norm += ...] over the pairs of [state]. *)
Fixpoint norm_loop (state : list F) (norm : F) : F :=
  match state with
  | [] => norm
  | [re] => fadd norm (modulus2 re fnan)
  | re :: im :: rest => norm_loop rest (fadd norm (modulus2 re im))
  end.

(** Second loop of [applyMeasure], entered at index [i] with [state]
    holding the elements from [i] on:
    [r -= ...; if (0 >= r) return i / 2;] and, after the loop,
    [return (i - 2) / 2]. *)
Fixpoint measure_loop (state : list F) (i : Z) (r : F) : Z :=
  match state with
  | [] => (i - 2) / 2
  | [re] =>
      if fnonpos (fsub r (modulus2 re fnan)) then i / 2 else (i + 2 - 2) / 2
  | re :: im :: rest =>
      let r := fsub r (modulus2 re im) in
      if fnonpos r then i / 2 else measure_loop rest (i + 2) r
  end.

(** [applyMeasure()], [r] being the value of [Math.random()]. *)
Definition applyMeasure (r : F) (s : Sim) : Z * Sim :=
  let '(state, s) := getState s in
  let norm := norm_loop state fzero in
  (measure_loop state 0 (fmul r norm), s).

(** The amplitude of basis state [i] in the current state texture. *)
Definition amplitude (s : Sim) (i : Z) : option (F * F) :=
  match Arr.get (current s) (4 * i), Arr.get (current s) (4 * i + 1) with
  | Some re, Some im => Some (re, im)
  | _, _ => None
  end.

(** A simulator as [create] builds it for an [n]-qubit register. *)
Definition wf (n : Z) (s : Sim) : Prop :=
  0 <= n /\ stateCnt s = 2 ^ n /\ texWidth s * texWidth s = 2 ^ n /\
  Z.of_nat (length (texArray s)) = 4 * 2 ^ n /\
  Z.of_nat (length (rtInput1 s)) = 4 * 2 ^ n /\
  Z.of_nat (length (rtInput2 s)) = 4 * 2 ^ n.

End Sim.

End Simulator.

(** ** The compiler of js/compiler.js *)

Module Compiler.

(** *** Tokens *)

Inductive TokenType : Type := ID | EXPRESSION | SEPARATOR.

#[global] Instance TokenType_eq_dec : EqDecision TokenType.
Proof. solve_decision. Defined.

Record Token : Type := mkToken { type : TokenType; body : string }.

#[global] Instance Token_eq_dec : EqDecision Token.
Proof. solve_decision. Defined.

(** Character classes of [tokenize]. *)
Definition is_blank (c : ascii) : bool := (nat_of_ascii c <=? 32)%nat.
Definition is_digit (c : ascii) : bool :=
  ((48 <=? nat_of_ascii c) && (nat_of_ascii c <=? 57))%nat.
Definition is_ident (c : ascii) : bool :=
  (((65 <=? nat_of_ascii c) && (nat_of_ascii c <=? 90))
   || ((97 <=? nat_of_ascii c) && (nat_of_ascii c <=? 122))
   || is_digit c || (nat_of_ascii c =? 95) || (nat_of_ascii c =? 46))%nat.
Definition is_separator (c : ascii) : bool :=
  ((nat_of_ascii c =? 59) || (nat_of_ascii c =? 44))%nat.
Definition is_equals (c : ascii) : bool := (nat_of_ascii c =? 61)%nat.
Definition is_quote (c : ascii) : bool := (nat_of_ascii c =? 34)%nat.

Definition str1 (c : ascii) : string := String c EmptyString.

(** The lexer's registers: the tokens pushed so far, the state (0..4) and
    the body being collected. *)
Record Lexer : Type := mkLexer { tokens : list Token; state : nat; cur : string }.

Definition emit (ty : TokenType) (b : string) (toks : list Token) : list Token :=
  toks ++ [mkToken ty b].

(** One round of the [for] loop of [tokenize], on character [c]. *)
Definition lex_char (lx : Lexer) (c : ascii) : Lexer :=
  let '(mkLexer toks st b) := lx in
  if is_blank c then
    match st with
    | 0%nat => lx
    | 1%nat => mkLexer (emit ID b toks) 0 b
    | 2%nat | 3%nat => mkLexer (emit EXPRESSION b toks) 0 b
    | 4%nat => mkLexer toks 4 (b ++ str1 c)
    | _ => lx
    end
  else if is_ident c then
    match st with
    | 0%nat => mkLexer toks (if is_digit c then 2 else 1)%nat (str1 c)
    | 1%nat | 4%nat => mkLexer toks st (b ++ str1 c)
    | 2%nat =>
        if is_digit c then mkLexer toks 2 (b ++ str1 c)
        else mkLexer (emit EXPRESSION b toks) 1 (str1 c)
    | 3%nat => mkLexer (emit EXPRESSION b toks) 1 (str1 c)
    | _ => lx
    end
  else if is_separator c then
    match st with
    | 0%nat => mkLexer (emit SEPARATOR (str1 c) toks) 0 b
    | 1%nat => mkLexer (emit SEPARATOR (str1 c) (emit ID b toks)) 0 b
    | 2%nat | 3%nat =>
        mkLexer (emit SEPARATOR (str1 c) (emit EXPRESSION b toks)) 0 b
    | 4%nat => mkLexer toks 4 (b ++ str1 c)
    | _ => lx
    end
  else if is_equals c then
    match st with
    | 0%nat => mkLexer toks 3 (str1 c)
    | 1%nat => mkLexer (emit ID b toks) 3 (str1 c)
    | 2%nat => mkLexer (emit EXPRESSION b toks) 3 (str1 c)
    | 3%nat => mkLexer toks 2 (b ++ str1 c)
    | 4%nat => mkLexer toks 4 (b ++ str1 c)
    | _ => lx
    end
  else if is_quote c then
    match st with
    | 0%nat => mkLexer toks 4 (str1 c)
    | 1%nat => mkLexer (emit ID b toks) 4 (str1 c)
    | 2%nat | 3%nat => mkLexer (emit EXPRESSION b toks) 4 (str1 c)
    | 4%nat => mkLexer (emit EXPRESSION (b ++ str1 c) toks) 0 (b ++ str1 c)
    | _ => lx
    end
  else
    match st with
    | 0%nat => mkLexer toks 2 (str1 c)
    | 1%nat => mkLexer (emit ID b toks) 2 (str1 c)
    | 2%nat | 4%nat => mkLexer toks st (b ++ str1 c)
    | 3%nat => mkLexer (emit EXPRESSION b toks) 2 (str1 c)
    | _ => lx
    end.

(** The part of [line] before the first [//] (all of it when there is
    none): the characters [0 .. idxCmt - 1]. *)
Fixpoint before_comment (line : string) : string :=
  match line with
  | String a (String b rest as tl) =>
      if ((nat_of_ascii a =? 47) && (nat_of_ascii b =? 47))%nat then EmptyString
      else String a (before_comment tl)
  | _ => line
  end.

(** [tokenize(line)]. *)
Definition tokenize (line : string) : list Token :=
  let lx := fold_left lex_char (list_ascii_of_string (before_comment line))
                      (mkLexer [] 0 EmptyString) in
  match state lx with
  | 1%nat => emit ID (cur lx) (tokens lx)
  | 2%nat | 3%nat | 4%nat => emit EXPRESSION (cur lx) (tokens lx)
  | _ => tokens lx
  end.

(** The change of [parcnt] caused by the characters of one token body. *)
Fixpoint paren_delta (b : string) : Z :=
  match b with
  | EmptyString => 0
  | String c rest =>
      (if (nat_of_ascii c =? 40)%nat then 1
       else if (nat_of_ascii c =? 41)%nat then -1 else 0) + paren_delta rest
  end.

(** The [while] loop of [parseExpressions]: [exp] holds the expressions
    closed so far, [expr] the one being collected. *)
Fixpoint parse_loop (toks : list Token) (exp : list (list Token))
    (expr : list Token) (parcnt : Z) : list (list Token) :=
  match toks with
  | [] => exp ++ [expr]
  | t :: rest =>
      if decide (type t = SEPARATOR /\ parcnt = 0) then
        parse_loop rest (exp ++ [expr]) [] parcnt
      else parse_loop rest exp (expr ++ [t]) (parcnt + paren_delta (body t))
  end.

(** [parseExpressions(tokens, idx)]. *)
Definition parseExpressions (toks : list Token) (idx : nat) : list (list Token) :=
  parse_loop (drop idx toks) [] [] 0.

(** *** Builtins, opcodes and functions *)

(** The entries of [quantum.QScript.getBuiltins()], in the order of the
    array. *)
Inductive Builtin : Type :=
  | VectorSize | Decoherence | Hadamard | SigmaX | SigmaY | SigmaZ | Unitary
  | Rx | Ry | Rz | CNot | Swap | Toffoli | Phase | CPhase | QFTCPhase
  | InvQFTCPhase | QFT | InvQFT | ExpModN | RevExpModN | ShiftLeft | ShiftRight
  | MeasureBit | Measure | Print | Breakpoint | Delay | Display | SetViewAngle
  | SetViewMode.

#[global] Instance Builtin_eq_dec : EqDecision Builtin.
Proof. solve_decision. Defined.

Definition builtins_ : list Builtin :=
  [ VectorSize; Decoherence; Hadamard; SigmaX; SigmaY; SigmaZ; Unitary;
    Rx; Ry; Rz; CNot; Swap; Toffoli; Phase; CPhase; QFTCPhase;
    InvQFTCPhase; QFT; InvQFT; ExpModN; RevExpModN; ShiftLeft; ShiftRight;
    MeasureBit; Measure; Print; Breakpoint; Delay; Display; SetViewAngle;
    SetViewMode ].

(** The [name] of a builtin. *)
Definition builtin_name (b : Builtin) : string :=
  match b with
  | VectorSize => "VectorSize" | Decoherence => "Decoherence"
  | Hadamard => "Hadamard" | SigmaX => "SigmaX" | SigmaY => "SigmaY"
  | SigmaZ => "SigmaZ" | Unitary => "Unitary" | Rx => "Rx" | Ry => "Ry"
  | Rz => "Rz" | CNot => "CNot" | Swap => "Swap" | Toffoli => "Toffoli"
  | Phase => "Phase" | CPhase => "CPhase" | QFTCPhase => "QFTCPhase"
  | InvQFTCPhase => "InvQFTCPhase" | QFT => "QFT" | InvQFT => "InvQFT"
  | ExpModN => "ExpModN" | RevExpModN => "RevExpModN"
  | ShiftLeft => "ShiftLeft" | ShiftRight => "ShiftRight"
  | MeasureBit => "MeasureBit" | Measure => "Measure" | Print => "Print"
  | Breakpoint => "Breakpoint" | Delay => "Delay" | Display => "Display"
  | SetViewAngle => "SetViewAngle" | SetViewMode => "SetViewMode"
  end.

(** The parameter list ([args]) of a builtin. *)
Definition builtin_args (b : Builtin) : list string :=
  match b with
  | VectorSize => ["vectorbits"] | Decoherence => ["strength"]
  | Hadamard | SigmaX | SigmaY | SigmaZ | MeasureBit => ["bitn"]
  | Unitary => ["bitn"; "r00"; "i00"; "r01"; "i01"; "r10"; "i10"; "r11"; "i11"]
  | Rx | Ry => ["bitn"; "theta"] | Rz => ["bitn"; "alpha"]
  | CNot => ["bitc"; "bitn"] | Swap => ["bit1"; "bit2"]
  | Toffoli => ["bitc1"; "bitc2"; "bitn"] | Phase => ["bitn"; "angle"]
  | CPhase => ["bitc"; "bitn"; "angle"]
  | QFTCPhase | InvQFTCPhase => ["bitc"; "bitn"]
  | QFT | InvQFT => ["offset"; "width"]
  | ExpModN | RevExpModN => ["x"; "N"; "width"]
  | ShiftLeft | ShiftRight => ["bits"]
  | Measure | Breakpoint => []
  | Print | Display => ["msg"] | Delay => ["time_ms"]
  | SetViewAngle => ["angle"] | SetViewMode => ["mode"]
  end.

(** The first entry of [builtins_] whose name is [n]. *)
Definition find_builtin (n : string) : option Builtin :=
  List.find (fun b => String.eqb (builtin_name b) n) builtins_.

Module CommandCode.
Inductive t : Type :=
  | FOR_INIT | FOR_LOOP | FOR_END | EXPRESSION | IF | ELSE | ENDIF | RETURN
  | BREAK.
End CommandCode.

#[global] Instance CommandCode_eq_dec : EqDecision CommandCode.t.
Proof. solve_decision. Defined.

(** [Opcode.command]: a command code, a builtin, or a script function
    (a reference into the table of functions). *)
Inductive Command : Type :=
  | Code (c : CommandCode.t)
  | CallBuiltin (b : Builtin)
  | CallUser (f : nat).

#[global] Instance Command_eq_dec : EqDecision Command.
Proof. solve_decision. Defined.

(** [args] is [null] for the opcodes that take none; they never read it,
    and the model holds the empty list there. *)
Record Opcode : Type := mkOpcode {
  command : Command;
  args : list (list Token);
  line : nat;
  target : Z;
}.

Definition set_target (v : Z) (op : Opcode) : Opcode :=
  mkOpcode (command op) (args op) (line op) v.

(** [functions] and [locals] are plain objects used as maps from names.
    Two names are special on such an object.  A property stored under
    [hasOwnProperty] hides the method of that name, and the values stored
    here (0, or a function object of the script) cannot be called: from
    then on [obj.hasOwnProperty(k)] raises a TypeError.  A store to
    [__proto__] sets the prototype (or does nothing, for the value 0) and
    adds no own property. *)
Definition HAS_OWN : string := "hasOwnProperty".
Definition PROTO : string := "__proto__".

(** [obj.hasOwnProperty(k)], [keys] being the own keys of [obj]; [None]
    is the TypeError. *)
Definition hasOwnProperty (keys : gset string) (k : string) : option bool :=
  if bool_decide (HAS_OWN ∈ keys) then None else Some (bool_decide (k ∈ keys)).

(** The own keys after [obj[k] = v]. *)
Definition with_key (k : string) (keys : gset string) : gset string :=
  if String.eqb k PROTO then keys else {[k]} ∪ keys.

(** [obj[k] = v] on a map. *)
Definition store {A : Type} (k : string) (v : A) (obj : gmap string A) : gmap string A :=
  if String.eqb k PROTO then obj else <[k := v]> obj.

(** The outcome of a search up the parents through such objects: the
    entry found, none, or the TypeError of [hasOwnProperty]. *)
Inductive Search (A : Type) : Type :=
  | Hit (a : A)
  | Miss
  | Broken.
Arguments Hit {A} a.
Arguments Miss {A}.
Arguments Broken {A}.

(** [quantum.QScript.Func] for a script function.  Functions refer to
    each other ([parent], [functions], opcodes that call them), so they
    live in a table and are named by their index in it.  [locals] is the
    key set of the [locals] object.  [description] (always empty),
    [execute] (always [null] here) and the debugger's [localIds] and
    [localExpr], which [buildLocals] recomputes from [locals], are not
    kept. *)
Record Func : Type := mkFunc {
  parent : option nat;
  name : string;
  params : list string;
  functions : gmap string nat;
  code : list Opcode;
  lastLine : Z;
  locals : gset string;
}.

Definition set_code (c : list Opcode) (f : Func) : Func :=
  mkFunc (parent f) (name f) (params f) (functions f) c (lastLine f) (locals f).
Definition set_lastLine (l : Z) (f : Func) : Func :=
  mkFunc (parent f) (name f) (params f) (functions f) (code f) l (locals f).
Definition set_functions (fs : gmap string nat) (f : Func) : Func :=
  mkFunc (parent f) (name f) (params f) fs (code f) (lastLine f) (locals f).
Definition set_locals (ls : gset string) (f : Func) : Func :=
  mkFunc (parent f) (name f) (params f) (functions f) (code f) (lastLine f) ls.

(** [new quantum.QScript.Func(parent, name, '', args, null)]. *)
Definition new_Func (p : option nat) (n : string) (a : list string) : Func :=
  mkFunc p n a ∅ [] (-1) ∅.

(** *** The compiler state *)

(** The fields of [quantum.QScript] that compilation touches, with the
    table of functions allocated so far. *)
Record CompState : Type := mkCompState {
  text_ : list string;
  errors : list string;
  funcs : list Func;
}.

Definition push_error (msg : string) (st : CompState) : CompState :=
  mkCompState (text_ st) (errors st ++ [msg]) (funcs st).

Definition update_func (f : nat) (g : Func -> Func) (st : CompState) : CompState :=
  mkCompState (text_ st) (errors st) (alter g f (funcs st)).

(** [f.code.length] *)
Definition code_length (f : nat) (st : CompState) : nat :=
  match funcs st !! f with
  | Some fn => length (code fn)
  | None => 0
  end.

(** [f.code.push(op)] *)
Definition push_op (f : nat) (op : Opcode) (st : CompState) : CompState :=
  update_func f (fun fn => set_code (code fn ++ [op]) fn) st.

(** [f.code[j].target = v]; [None] is the [TypeError] raised when
    [f.code[j]] is [undefined]. *)
Definition patch_target (f j : nat) (v : Z) (st : CompState) : option CompState :=
  match funcs st !! f with
  | Some fn =>
      match code fn !! j with
      | Some op => Some (update_func f (fun fn => set_code (<[j := set_target v op]> (code fn)) fn) st)
      | None => None
      end
  | None => None
  end.

(** [findFunction(fn, name)]: walk up the parents, asking each
    [fn.functions.hasOwnProperty(name)].  A parent is allocated before its
    children, so [fn + 1] rounds reach the root. *)
Fixpoint find_up (rounds : nat) (fs : list Func) (fn : nat) (n : string) : Search nat :=
  match rounds with
  | O => Miss
  | S rounds' =>
      match fs !! fn with
      | None => Miss
      | Some f =>
          match hasOwnProperty (dom (functions f)) n, functions f !! n with
          | None, _ => Broken
          | Some true, Some g => Hit g
          | _, _ =>
              match parent f with
              | Some p => find_up rounds' fs p n
              | None => Miss
              end
          end
      end
  end.

Definition findFunction (fs : list Func) (fn : nat) (n : string) : Search nat :=
  find_up (S fn) fs fn n.

(** [s.trim()] on 8-bit strings. *)
Definition is_space (c : ascii) : bool :=
  (((9 <=? nat_of_ascii c) && (nat_of_ascii c <=? 13))
   || (nat_of_ascii c =? 32) || (nat_of_ascii c =? 160))%nat.

Fixpoint trim_left (s : string) : string :=
  match s with
  | String c rest => if is_space c then trim_left rest else s
  | EmptyString => s
  end.

Fixpoint trim_right (s : string) : string :=
  match s with
  | EmptyString => EmptyString
  | String c rest =>
      match trim_right rest with
      | EmptyString => if is_space c then EmptyString else str1 c
      | r => String c r
      end
  end.

Definition trim (s : string) : string := trim_right (trim_left s).

Definition dq : string := str1 (ascii_of_nat 34).

(** ['"' + word + '" without matching "' + opener + '" in line ' + line] *)
Definition unmatched (word opener : string) (line : nat) : string :=
  dq ++ word ++ dq ++ " without matching " ++ dq ++ opener ++ dq ++ " in line "
     ++ pretty line.

Definition syntax_error (line : nat) : string := "Syntax error in line " ++ pretty line.
Definition wrong_arity (line : nat) : string :=
  "Wrong number of arguments in line " ++ pretty line.
Definition unknown_command (line : nat) : string :=
  "Unknown command in line " ++ pretty line.

(** What one round of the [while] loop of [compileFunction] does, up to
    the recursive call. *)
Inductive Round : Type :=
  (** [continue] (or the end of the loop body) with the state and stacks *)
  | Next (st : CompState) (forStack ifStack : list nat)
  (** [endproc]: leave the loop *)
  | EndProc
  (** [proc name args]: compile the child at the next line, then go on *)
  | Proc (st : CompState) (n : string) (a : list string)
  (** a [TypeError] *)
  | Raise.

(** The stacks are lists with the top first: [push] is a cons, [pop]
    takes the head. *)

(** The keywords and zero-argument calls of a single-identifier line;
    [None] when the line is none of them and control falls through. *)
Definition single_word (st : CompState) (f : nat) (forStack ifStack : list nat)
    (line : nat) (w : string) : option Round :=
  let len := code_length f st in
  if String.eqb w "endfor" then
    Some match forStack with
    | [] => Next (push_error (unmatched "endfor" "for" line) st) forStack ifStack
    | j :: forStack' =>
        match patch_target f j (Z.of_nat len) st with
        | None => Raise
        | Some st =>
            match patch_target f (j + 1) (Z.of_nat len) st with
            | None => Raise
            | Some st =>
                Next (push_op f (mkOpcode (Code CommandCode.FOR_END) [] line (Z.of_nat j + 1)) st)
                     forStack' ifStack
            end
        end
    end
  else if String.eqb w "else" then
    Some match ifStack with
    | [] => Next (push_error (unmatched "else" "if" line) st) forStack ifStack
    | j :: ifStack' =>
        match patch_target f j (Z.of_nat len) st with
        | None => Raise
        | Some st =>
            Next (push_op f (mkOpcode (Code CommandCode.ELSE) [] line (Z.of_nat j + 1)) st)
                 forStack (len :: ifStack')
        end
    end
  else if String.eqb w "endif" then
    Some match ifStack with
    | [] => Next (push_error (unmatched "endif" "if" line) st) forStack ifStack
    | j :: ifStack' =>
        match patch_target f j (Z.of_nat len) st with
        | None => Raise
        | Some st =>
            Next (push_op f (mkOpcode (Code CommandCode.ENDIF) [] line (Z.of_nat j + 1)) st)
                 forStack ifStack'
        end
    end
  else if String.eqb w "continue" then
    Some match forStack with
    | [] => Next (push_error (unmatched "continue" "for" line) st) forStack ifStack
    | j :: _ =>
        Next (push_op f (mkOpcode (Code CommandCode.FOR_END) [] line (Z.of_nat j + 1)) st)
             forStack ifStack
    end
  else if String.eqb w "break" then
    Some match forStack with
    | [] => Next (push_error (unmatched "break" "for" line) st) forStack ifStack
    | j :: _ =>
        Next (push_op f (mkOpcode (Code CommandCode.BREAK) [] line (Z.of_nat j + 1)) st)
             forStack ifStack
    end
  else if String.eqb w "return" then
    Some (Next (push_op f (mkOpcode (Code CommandCode.RETURN) [] line (-1)) st)
               forStack ifStack)
  else if String.eqb w "endproc" then Some EndProc
  else
    match find_builtin w with
    | Some b =>
        Some (if decide (length (builtin_args b) = 0%nat)
              then Next (push_op f (mkOpcode (CallBuiltin b) [] line (-1)) st) forStack ifStack
              else Next (push_error (wrong_arity line) st) forStack ifStack)
    | None =>
        match findFunction (funcs st) f w with
        | Hit fc => Some (Next (push_op f (mkOpcode (CallUser fc) [] line (-1)) st) forStack ifStack)
        | Miss => None
        | Broken => Some Raise
        end
    end.

(** The parameter names of [proc name a1, a2, ...]: [a.push(e[i][0].body)]
    for every expression of exactly one token, an error for the others. *)
Fixpoint proc_params (e : list (list Token)) (line : nat) (st : CompState)
  : CompState * list string :=
  match e with
  | [] => (st, [])
  | [tk] :: rest =>
      let '(st, a) := proc_params rest line st in (st, body tk :: a)
  | _ :: rest => proc_params rest line (push_error (syntax_error line) st)
  end.

(** [t[1].body[0]] is one of [= + - * / & | ^]. *)
Definition starts_operator (b : string) : bool :=
  match b with
  | String c _ =>
      existsb (fun k => (nat_of_ascii c =? k)%nat) [61; 43; 45; 42; 47; 38; 124; 94]%nat
  | EmptyString => false
  end.

(** The lines of at least two tokens whose first token is an identifier. *)
Definition statement (st : CompState) (f : nat) (forStack ifStack : list nat)
    (line : nat) (t : list Token) (t0 t1 : Token) : Round :=
  let len := code_length f st in
  if String.eqb (body t0) "for" then
    let e := parseExpressions t 1 in
    match e with
    | [e0; e1; e2] =>
        Next (push_op f (mkOpcode (Code CommandCode.FOR_LOOP) [e1; e2] line (-1))
               (push_op f (mkOpcode (Code CommandCode.FOR_INIT) [e0; e1] line (-1)) st))
             (len :: forStack) ifStack
    | [e0; e1; e2; e3] =>
        Next (push_op f (mkOpcode (Code CommandCode.FOR_LOOP) [e1; e2; e3] line (-1))
               (push_op f (mkOpcode (Code CommandCode.FOR_INIT) [e0; e1; e3] line (-1)) st))
             forStack ifStack
    | _ => Next (push_error (syntax_error line) st) forStack ifStack
    end
  else if String.eqb (body t0) "if" then
    let e := parseExpressions t 1 in
    match e with
    | [e0] =>
        Next (push_op f (mkOpcode (Code CommandCode.IF) [e0] line (-1)) st)
             forStack (len :: ifStack)
    | [e0; e1] =>
        Next (push_op f (mkOpcode (Code CommandCode.IF) [e0; e1] line (-1)) st)
             forStack ifStack
    | _ => Next (push_error (syntax_error line) st) forStack ifStack
    end
  else if String.eqb (body t0) "proc" then
    if decide (type t1 = ID) then
      match t with
      | [_; _] => Proc st (body t1) []
      | _ =>
          let '(st, a) := proc_params (parseExpressions t 2) line st in
          Proc st (body t1) a
      end
    else Next (push_error (syntax_error line) st) forStack ifStack
  else
    let e := parseExpressions t 1 in
    match find_builtin (body t0) with
    | Some b =>
        if decide (length (builtin_args b) = length e)
        then Next (push_op f (mkOpcode (CallBuiltin b) e line (-1)) st) forStack ifStack
        else Next (push_error (wrong_arity line) st) forStack ifStack
    | None =>
        if starts_operator (body t1) then
          Next (push_op f (mkOpcode (Code CommandCode.EXPRESSION) [t] line (-1)) st)
               forStack ifStack
        else
          match findFunction (funcs st) f (body t0) with
          | Hit fc => Next (push_op f (mkOpcode (CallUser fc) e line (-1)) st) forStack ifStack
          | Miss => Next (push_error (unknown_command line) st) forStack ifStack
          | Broken => Raise
          end
    end.

(** One round on the tokens [t] of line number [line] (1-based). *)
Definition round (st : CompState) (f : nat) (forStack ifStack : list nat)
    (line : nat) (t : list Token) : Round :=
  let fallthrough :=
    match t with
    | t0 :: t1 :: _ =>
        if decide (type t0 = ID) then statement st f forStack ifStack line t t0 t1
        else Next st forStack ifStack
    | _ => Next (push_error (syntax_error line) st) forStack ifStack
    end in
  match t with
  | [t0] =>
      if decide (type t0 = ID) then
        match single_word st f forStack ifStack line (body t0) with
        | Some r => r
        | None => fallthrough
        end
      else fallthrough
  | _ => fallthrough
  end.

(** The outcome of compiling a function. *)
Inductive Res (A : Type) : Type :=
  | Ok (a : A)
  | OutOfFuel
  | TypeError.
Arguments Ok {A} a.
Arguments OutOfFuel {A}.
Arguments TypeError {A}.

(** What [compileFunction] leaves behind: the state, and the two stacks
    as they are when the function returns. *)
Record Compiled : Type := mkCompiled {
  c_state : CompState;
  c_forStack : list nat;
  c_ifStack : list nat;
}.

(** [f.lastLine = line - 1; this.buildLocals(f); return f;] *)
Definition finish (st : CompState) (f : nat) (forStack ifStack : list nat)
    (line : nat) : Compiled :=
  mkCompiled (update_func f (set_lastLine (Z.of_nat line - 1)) st) forStack ifStack.

(** The [while] loop of [compileFunction] for the function [f], entered
    at [line] (0-based index into [text_]).  A [proc] line allocates the
    child, runs the loop for it, stores it in [f.functions] and resumes
    after its [lastLine]. *)
Fixpoint compileLoop (fuel : nat) (st : CompState) (f : nat)
    (forStack ifStack : list nat) (line : nat) : Res Compiled :=
  match fuel with
  | O => OutOfFuel
  | S fuel' =>
      match text_ st !! line with
      | None => Ok (finish st f forStack ifStack line)
      | Some raw =>
          let l := trim raw in
          let line := S line in
          if (String.length l =? 0)%nat || String.eqb (substring 0 2 l) "//" then
            compileLoop fuel' st f forStack ifStack line
          else
            match round st f forStack ifStack line (tokenize l) with
            | Next st forStack ifStack => compileLoop fuel' st f forStack ifStack line
            | EndProc => Ok (finish st f forStack ifStack line)
            | Raise => TypeError
            | Proc st n a =>
                let child := length (funcs st) in
                let st := mkCompState (text_ st) (errors st)
                                      (funcs st ++ [new_Func (Some f) n a]) in
                match compileLoop fuel' st child [] [] line with
                | Ok c =>
                    let st := update_func f (fun fn => set_functions (store n child (functions fn)) fn)
                                          (c_state c) in
                    let next :=
                      match funcs st !! child with
                      | Some fc => Z.to_nat (lastLine fc + 1)
                      | None => line
                      end in
                    compileLoop fuel' st f forStack ifStack next
                | OutOfFuel => OutOfFuel
                | TypeError => TypeError
                end
            end
      end
  end.

(** [compileFunction(parent, fn, args, line)]: allocate the function and
    run the loop with empty stacks.  The new function is the last entry of
    the table before the call. *)
Definition compileFunction (fuel : nat) (st : CompState) (p : option nat)
    (fn : string) (a : list string) (line : nat) : Res Compiled :=
  compileLoop fuel
    (mkCompState (text_ st) (errors st) (funcs st ++ [new_Func p fn a]))
    (length (funcs st)) [] [] line.

(** [compile(script)] on a fresh engine: the text is split, [__main__] is
    compiled from line 0 and becomes function 0. *)
Definition compile (script : string) : Res Compiled :=
  let text := Text.compile_text script in
  compileFunction (S (length text)) (mkCompState text [] []) None "__main__" [] 0.

End Compiler.

(** ** The execution engine of js/qmath.js and the builtins of
       js/compiler.js *)

Module Engine.

Import Compiler.

Definition MEASURED_VALUE : string := "measured_value".
Definition VARS_PREFIX : string := "window.".

(** [quantum.QScript.StepData] *)
Record StepData : Type := mkStepData {
  symbols : list string;
  values : list Val;
  func : nat;
  step : Z;
}.

(** A frame of [callStack]: [[func, step, argv]]. *)
Record Frame : Type := mkFrame {
  frame_func : nat;
  frame_step : Z;
  frame_argv : string;
}.

Section Engine.
Context {FL : Float32} {G : Gpu} {H : Host}.

(** The engine object after [compile].  [funcs] is the table of script
    functions, [vars] the cells of the global object that the evaluator
    reads and writes, [rng] the number of values [Math.random] has
    returned so far and [calls] the calls made to the host's callback.
    [callStack] and [history_] have their top first.  A history record
    shares its arrays with [savedVars_]/[savedValues_] until the next
    [runStep] replaces these; nothing reads a record while that is so,
    and the model copies them. *)
Record QScript : Type := mkQScript {
  funcs : list Func;
  errors : list string;
  currentFunc : nat;
  currentStep : Z;
  callStack : list Frame;
  simulator : option Simulator.Sim;
  history_ : list StepData;
  savedVars_ : list string;
  savedValues_ : list Val;
  measuredValue : Val;
  vectorSize : Val;
  vars : gmap string Val;
  rng : nat;
  calls : list (string * list Val);
}.

Definition set_funcs (x : list Func) (q : QScript) : QScript :=
  mkQScript x (errors q) (currentFunc q) (currentStep q) (callStack q)
    (simulator q) (history_ q) (savedVars_ q) (savedValues_ q)
    (measuredValue q) (vectorSize q) (vars q) (rng q) (calls q).
Definition set_errors (x : list string) (q : QScript) : QScript :=
  mkQScript (funcs q) x (currentFunc q) (currentStep q) (callStack q)
    (simulator q) (history_ q) (savedVars_ q) (savedValues_ q)
    (measuredValue q) (vectorSize q) (vars q) (rng q) (calls q).
Definition set_position (f : nat) (s : Z) (q : QScript) : QScript :=
  mkQScript (funcs q) (errors q) f s (callStack q)
    (simulator q) (history_ q) (savedVars_ q) (savedValues_ q)
    (measuredValue q) (vectorSize q) (vars q) (rng q) (calls q).
Definition set_currentStep (s : Z) (q : QScript) : QScript :=
  set_position (currentFunc q) s q.
Definition set_callStack (x : list Frame) (q : QScript) : QScript :=
  mkQScript (funcs q) (errors q) (currentFunc q) (currentStep q) x
    (simulator q) (history_ q) (savedVars_ q) (savedValues_ q)
    (measuredValue q) (vectorSize q) (vars q) (rng q) (calls q).
Definition set_simulator (x : option Simulator.Sim) (q : QScript) : QScript :=
  mkQScript (funcs q) (errors q) (currentFunc q) (currentStep q) (callStack q)
    x (history_ q) (savedVars_ q) (savedValues_ q)
    (measuredValue q) (vectorSize q) (vars q) (rng q) (calls q).
Definition set_history (x : list StepData) (q : QScript) : QScript :=
  mkQScript (funcs q) (errors q) (currentFunc q) (currentStep q) (callStack q)
    (simulator q) x (savedVars_ q) (savedValues_ q)
    (measuredValue q) (vectorSize q) (vars q) (rng q) (calls q).
Definition set_saved (xs : list string) (vs : list Val) (q : QScript) : QScript :=
  mkQScript (funcs q) (errors q) (currentFunc q) (currentStep q) (callStack q)
    (simulator q) (history_ q) xs vs
    (measuredValue q) (vectorSize q) (vars q) (rng q) (calls q).
Definition set_measuredValue (x : Val) (q : QScript) : QScript :=
  mkQScript (funcs q) (errors q) (currentFunc q) (currentStep q) (callStack q)
    (simulator q) (history_ q) (savedVars_ q) (savedValues_ q)
    x (vectorSize q) (vars q) (rng q) (calls q).
Definition set_vectorSize (x : Val) (q : QScript) : QScript :=
  mkQScript (funcs q) (errors q) (currentFunc q) (currentStep q) (callStack q)
    (simulator q) (history_ q) (savedVars_ q) (savedValues_ q)
    (measuredValue q) x (vars q) (rng q) (calls q).
Definition set_vars (x : gmap string Val) (q : QScript) : QScript :=
  mkQScript (funcs q) (errors q) (currentFunc q) (currentStep q) (callStack q)
    (simulator q) (history_ q) (savedVars_ q) (savedValues_ q)
    (measuredValue q) (vectorSize q) x (rng q) (calls q).
Definition set_rng (x : nat) (q : QScript) : QScript :=
  mkQScript (funcs q) (errors q) (currentFunc q) (currentStep q) (callStack q)
    (simulator q) (history_ q) (savedVars_ q) (savedValues_ q)
    (measuredValue q) (vectorSize q) (vars q) x (calls q).
Definition set_calls (x : list (string * list Val)) (q : QScript) : QScript :=
  mkQScript (funcs q) (errors q) (currentFunc q) (currentStep q) (callStack q)
    (simulator q) (history_ q) (savedVars_ q) (savedValues_ q)
    (measuredValue q) (vectorSize q) (vars q) (rng q) x.

(** *** Computations on the engine that may throw *)

Inductive Result (A : Type) : Type :=
  | Done (a : A) (q : QScript)
  | Thrown (message : string) (q : QScript).
Arguments Done {A} a q.
Arguments Thrown {A} message q.

Definition M (A : Type) : Type := QScript -> Result A.

Definition ret {A : Type} (a : A) : M A := fun q => Done a q.

Definition bind {A B : Type} (m : M A) (k : A -> M B) : M B :=
  fun q =>
    match m q with
    | Done a q' => k a q'
    | Thrown msg q' => Thrown msg q'
    end.

Definition throw {A : Type} (msg : string) : M A := fun q => Thrown msg q.
Definition get : M QScript := fun q => Done q q.
Definition modify (g : QScript -> QScript) : M unit := fun q => Done tt (g q).

(** The state a computation ends in, thrown or not. *)
Definition final {A : Type} (r : Result A) : QScript :=
  match r with
  | Done _ q => q
  | Thrown _ q => q
  end.

Notation "x <- m ;; k" := (bind m (fun x => k))
  (at level 100, m at next level, right associativity).
Notation "m ;;; k" := (bind m (fun _ => k))
  (at level 100, right associativity).

Definition push_error (msg : string) : M unit :=
  modify (fun q => set_errors (errors q ++ [msg]) q).

(** *** Saving and restoring variables *)

(** [saveValue_(id)] *)
Definition saveValue_ (id : string) : M unit :=
  q <- get ;;
  if bool_decide (id ∈ savedVars_ q) then ret tt
  else if String.eqb id MEASURED_VALUE then
    modify (fun q => set_saved (savedVars_ q ++ [id])
                               (savedValues_ q ++ [measuredValue q]) q)
  else
    modify (fun q => set_saved (savedVars_ q ++ [id]) (savedValues_ q) q) ;;;
    q <- get ;;
    match eval_ id (vars q) with
    | (EvalValue v, cells) =>
        modify (fun q => set_saved (savedVars_ q) (savedValues_ q ++ [v])
                                   (set_vars cells q))
    | (EvalThrow msg, cells) => modify (set_vars cells) ;;; throw msg
    end.

(** [restoreValues_(step)]: the loop over [step.symbols], entered at
    index [i]; [step.values[i]] is [undefined] past the end of [values]. *)
Fixpoint restore_loop (syms : list string) (vals : list Val) : M unit :=
  match syms with
  | [] => ret tt
  | sym :: syms' =>
      let v := default VUndef (head vals) in
      (if String.eqb sym MEASURED_VALUE then modify (set_measuredValue v)
       else
         q <- get ;;
         match eval_ (sym +:+ "=" +:+ toString v) (vars q) with
         | (EvalValue _, cells) => modify (set_vars cells)
         | (EvalThrow msg, cells) => modify (set_vars cells) ;;; throw msg
         end) ;;;
      restore_loop syms' (tail vals)
  end.

Definition restoreValues_ (st : StepData) : M unit :=
  restore_loop (symbols st) (values st).

(** *** Scoping of identifiers *)

(** The [while] loop of [translateId]: the first function from [f]
    upwards whose [locals] has [id], each asked
    [f.locals.hasOwnProperty(id)].  A parent has a smaller index than
    its children, so [fn + 1] rounds reach the root. *)
Fixpoint find_scope (rounds : nat) (fs : list Func) (f : option nat)
    (id : string) : Search nat :=
  match rounds with
  | O => Miss
  | S rounds' =>
      match f with
      | None => Miss
      | Some i =>
          match fs !! i with
          | None => Miss
          | Some fn =>
              match hasOwnProperty (locals fn) id with
              | None => Broken
              | Some true => Hit i
              | Some false => find_scope rounds' fs (parent fn) id
              end
          end
      end
  end.

(** [fn.locals[id] = 0; this.buildLocals(fn);] *)
Definition declare_local (fn : nat) (id : string) : M unit :=
  q <- get ;;
  match funcs q !! fn with
  | None => throw "TypeError"
  | Some _ =>
      modify (set_funcs (alter (fun f => set_locals (with_key id (locals f)) f) fn (funcs q)))
  end.

(** [id[0] == '_'] *)
Definition is_global (id : string) : bool :=
  match id with
  | String c _ => (nat_of_ascii c =? 95)%nat
  | EmptyString => false
  end.

(** [translateId(fn, id)] *)
Definition translateId (fn : nat) (id : string) : M string :=
  if Text.occurs "." id then ret id
  else if String.eqb id MEASURED_VALUE then
    saveValue_ MEASURED_VALUE ;;;
    q <- get ;;
    match measuredValue q with
    | VUndef => throw "TypeError"
    | v => ret (toString v)
    end
  else if is_global id then
    let globid := VARS_PREFIX +:+ "_" +:+ id in
    saveValue_ globid ;;; ret globid
  else
    q <- get ;;
    f <- match find_scope (S fn) (funcs q) (Some fn) id with
         | Hit f => ret f
         | Miss => declare_local fn id ;;; ret fn
         | Broken => throw "TypeError"
         end ;;
    q <- get ;;
    match funcs q !! f with
    | None => throw "TypeError"
    | Some fo =>
        let trid := VARS_PREFIX +:+ name fo +:+ "_" +:+ id in
        saveValue_ trid ;;; ret trid
    end.

(** *** Expressions *)

(** The loop of [executeExpression] that builds [expr]. *)
Fixpoint translate_tokens (fn : nat) (ex : list Token) : M string :=
  match ex with
  | [] => ret EmptyString
  | t :: rest =>
      piece <- (if decide (type t = ID) then translateId fn (body t)
                else ret (body t)) ;;
      more <- translate_tokens fn rest ;;
      ret (piece +:+ more)
  end.

(** The test made on the first token: [ex.length > 1 && ex[1].body == '='],
    for a first token that is an identifier. *)
Definition assigned_id (ex : list Token) : option string :=
  match ex with
  | t0 :: t1 :: _ =>
      if decide (type t0 = ID) then
        if String.eqb (body t1) "=" then Some (body t0) else None
      else None
  | _ => None
  end.

(** [executeExpression(ex, opt_prefix)]; [ex] is [None] when the caller
    passes [undefined] (an argument the opcode does not have). *)
Definition executeExpression (ex : option (list Token)) (prefix : string) : M Val :=
  match ex with
  | None => throw "TypeError"
  | Some ex =>
      q <- get ;;
      let fn := currentFunc q in
      match assigned_id ex with
      | Some id =>
          match funcs q !! fn with
          | None => throw "TypeError"
          | Some f =>
              match hasOwnProperty (locals f) id with
              | None => throw "TypeError"
              | Some true => ret tt
              | Some false => declare_local fn id
              end
          end
      | None => ret tt
      end ;;;
      expr <- translate_tokens fn ex ;;
      q <- get ;;
      match eval_ (prefix +:+ expr) (vars q) with
      | (EvalValue v, cells) => modify (set_vars cells) ;;; ret v
      | (EvalThrow msg, cells) =>
          modify (set_vars cells) ;;;
          push_error ("JavaScript exception: " +:+ msg) ;;;
          ret (VNum 0)
      end
  end.

(** [argv[i] = this.executeExpression(op.args[i])] for every [i]. *)
Fixpoint eval_args (a : list (list Token)) : M (list Val) :=
  match a with
  | [] => ret []
  | ex :: rest =>
      v <- executeExpression (Some ex) EmptyString ;;
      vs <- eval_args rest ;;
      ret (v :: vs)
  end.

(** *** The builtins *)

(** [quantum.QScript.prototype.init(vs)].  For a size that passes the
    test and is not a number ([undefined], [NaN]) the width of the texture
    is 1 and the loop of the simulator's [init()] never ends: the call
    has no result, which is the outcome [Thrown] with the text
    ["out of fuel"] here.  For a number that passes the test the width is
    a power of two from 8 on and the loop ends. *)
Definition init (vs : Val) : M unit :=
  if Value.lt str_to_num vs (VNum 6) || Value.gt str_to_num vs (VNum 22)
     || negb (Z.land (Value.to_int32 str_to_num vs) 1 =? 0)
  then push_error ("State vector size outside of supported range 6..22 or not even: "
                   +:+ toString vs)
  else
    let s := Simulator.create vs in
    match Simulator.init_loop 32 (Simulator.texWidth s) 1 with
    | Some _ => modify (fun q => set_simulator (Some s) (set_vectorSize vs q))
    | None => throw "out of fuel"
    end.

(** [checkBound(qbit)] *)
Definition checkBound (qbit : Val) : M bool :=
  q <- get ;;
  if Value.lt str_to_num qbit (VNum 0) || Value.ge str_to_num qbit (vectorSize q)
  then push_error ("Qubit number out of range: " +:+ toString qbit) ;;; ret false
  else ret true.

(** [q.simulator.method(...)]: a [TypeError] while [simulator] is [null]. *)
Definition on_simulator (g : Simulator.Sim -> Simulator.Sim) : M unit :=
  q <- get ;;
  match simulator q with
  | Some s => modify (set_simulator (Some (g s)))
  | None => throw "TypeError"
  end.

(** [argv[k]] *)
Definition arg (argv : list Val) (k : nat) : Val := default VUndef (argv !! k).

(** [if (!q.checkBound(argv[0])) return; gate] and its variants with two
    and three checked arguments ([||] stops at the first failure). *)
Definition checked1 (a : Val) (gate : M unit) : M unit :=
  ok <- checkBound a ;; if ok then gate else ret tt.
Definition checked2 (a b : Val) (gate : M unit) : M unit :=
  checked1 a (checked1 b gate).
Definition checked3 (a b c : Val) (gate : M unit) : M unit :=
  checked1 a (checked1 b (checked1 c gate)).

(** [q.callback_(name, argv)] *)
Definition callback_ (n : string) (argv : list Val) : M unit :=
  modify (fun q => set_calls (calls q ++ [(n, argv)]) q).

(** The [execute] function of each builtin. *)
Definition execute (b : Builtin) (argv : list Val) : M unit :=
  let a := arg argv in
  match b with
  | VectorSize => init (a 0%nat)
  | Decoherence =>
      q <- get ;;
      match simulator q with
      | None => throw "TypeError"
      | Some s =>
          let '(s, r) := Simulator.applyDecoherence (a 0%nat) (rng q) s in
          modify (fun q => set_rng r (set_simulator (Some s) q))
      end
  | Hadamard => checked1 (a 0%nat) (on_simulator (Simulator.applyHadamard (a 0%nat)))
  | SigmaX => checked1 (a 0%nat) (on_simulator (Simulator.applySigmaX (a 0%nat)))
  | SigmaY => checked1 (a 0%nat) (on_simulator (Simulator.applySigmaY (a 0%nat)))
  | SigmaZ => checked1 (a 0%nat) (on_simulator (Simulator.applySigmaZ (a 0%nat)))
  | Unitary =>
      checked1 (a 0%nat)
        (on_simulator (Simulator.renderUnitary (a 0%nat)
           [a 1%nat; a 3%nat; a 5%nat; a 7%nat; a 2%nat; a 4%nat; a 6%nat; a 8%nat]))
  | Rx => checked1 (a 0%nat) (on_simulator (Simulator.applyRx (a 0%nat) (a 1%nat)))
  | Ry => checked1 (a 0%nat) (on_simulator (Simulator.applyRy (a 0%nat) (a 1%nat)))
  | Rz => checked1 (a 0%nat) (on_simulator (Simulator.applyRz (a 0%nat) (a 1%nat)))
  | CNot =>
      checked2 (a 0%nat) (a 1%nat) (on_simulator (Simulator.applyCNot (a 0%nat) (a 1%nat)))
  | Swap =>
      checked2 (a 0%nat) (a 1%nat) (on_simulator (Simulator.applySwap (a 0%nat) (a 1%nat)))
  | Toffoli =>
      checked3 (a 0%nat) (a 1%nat) (a 2%nat)
        (on_simulator (Simulator.applyToffoli (a 0%nat) (a 1%nat) (a 2%nat)))
  | Phase =>
      checked1 (a 0%nat)
        (on_simulator (Simulator.applyCPhaseShift (a 0%nat) (a 0%nat) (a 1%nat)))
  | CPhase =>
      checked2 (a 0%nat) (a 1%nat)
        (on_simulator (Simulator.applyCPhaseShift (a 0%nat) (a 1%nat) (a 2%nat)))
  | QFTCPhase =>
      checked2 (a 0%nat) (a 1%nat)
        (if Value.le str_to_num (a 0%nat) (a 1%nat) then
           push_error "Error: For QFTCPhase control qbit must be above the target qbit."
         else on_simulator (Simulator.applyPhaseShift (a 0%nat) (a 1%nat) 1))
  | InvQFTCPhase =>
      checked2 (a 0%nat) (a 1%nat)
        (if Value.le str_to_num (a 0%nat) (a 1%nat) then
           push_error "Error: For InvQFTCPhase control qbit must be above the target qbit."
         else on_simulator (Simulator.applyPhaseShift (a 0%nat) (a 1%nat) (-1)))
  | QFT => checked1 (a 0%nat) (on_simulator (Simulator.applyQFT (a 0%nat) (a 1%nat)))
  | InvQFT => checked1 (a 0%nat) (on_simulator (Simulator.applyInvQFT (a 0%nat) (a 1%nat)))
  | ExpModN =>
      checked1 (a 2%nat)
        (q <- get ;;
         match simulator q with
         | None => throw "TypeError"
         | Some s =>
             match Simulator.applyExpModN (a 0%nat) (a 1%nat) (a 2%nat) s with
             | Some s => modify (set_simulator (Some s))
             | None => throw "out of fuel"
             end
         end)
  | RevExpModN =>
      checked1 (a 2%nat)
        (q <- get ;;
         match simulator q with
         | None => throw "TypeError"
         | Some s =>
             match Simulator.applyRevExpModN (a 0%nat) (a 1%nat) (a 2%nat) s with
             | Some s => modify (set_simulator (Some s))
             | None => throw "out of fuel"
             end
         end)
  | ShiftLeft => checked1 (a 0%nat) (on_simulator (Simulator.applyShiftLeft (a 0%nat)))
  | ShiftRight => checked1 (a 0%nat) (on_simulator (Simulator.applyShiftRight (a 0%nat)))
  | MeasureBit =>
      checked1 (a 0%nat)
        (q <- get ;;
         match simulator q with
         | None => throw "TypeError"
         | Some s =>
             let '(r, s) := Simulator.applyBitMeasure (a 0%nat) (random (rng q)) s in
             modify (fun q => set_measuredValue (VNum r)
                                (set_rng (S (rng q)) (set_simulator (Some s) q)))
         end)
  | Measure =>
      q <- get ;;
      match simulator q with
      | None => throw "TypeError"
      | Some s =>
          let '(r, s) := Simulator.applyMeasure (random (rng q)) s in
          modify (fun q => set_measuredValue (VNum r)
                             (set_rng (S (rng q)) (set_simulator (Some s) q)))
      end
  | Print => callback_ "Print" argv
  | Breakpoint => callback_ "Breakpoint" argv
  | Delay => callback_ "Delay" argv
  | Display => callback_ "Display" argv
  | SetViewAngle => callback_ "SetViewAngle" argv
  | SetViewMode => callback_ "SetViewMode" argv
  end.

(** *** Stepping *)

(** [this.currentFunc.code] *)
Definition current_code : M (list Opcode) :=
  q <- get ;;
  match funcs q !! currentFunc q with
  | Some f => ret (code f)
  | None => throw "TypeError"
  end.

(** The end-of-function test made at both ends of [runStep]:
    [if (this.currentStep >= this.currentFunc.code.length)], popping a
    frame when the call stack has one. *)
Definition pop_frame_at_end : M bool :=
  cd <- current_code ;;
  q <- get ;;
  if Z.of_nat (length cd) <=? currentStep q then
    match callStack q with
    | [] => ret true
    | frame :: rest =>
        modify (fun q => set_position (frame_func frame) (frame_step frame)
                           (set_callStack rest q)) ;;;
        ret true
    end
  else ret false.

Definition goto (s : Z) : M unit := modify (set_currentStep s).
Definition advance (d : Z) : M unit :=
  modify (fun q => set_currentStep (currentStep q + d) q).

(** [this.executeExpression(op.args[k])] *)
Definition exec_arg (op : Opcode) (k : nat) : M Val :=
  executeExpression (args op !! k) EmptyString.

(** The [switch] of [runStep] over the command codes. *)
Definition run_code (c : CommandCode.t) (op : Opcode) : M unit :=
  match c with
  | CommandCode.FOR_INIT =>
      exec_arg op 0 ;;;
      c <- exec_arg op 1 ;;
      if truthy c then
        if decide (length (args op) = 2%nat) then advance 2
        else exec_arg op 2 ;;; advance 1
      else
        if decide (length (args op) = 2%nat) then goto (target op + 1)
        else advance 2
  | CommandCode.FOR_LOOP =>
      exec_arg op 1 ;;;
      c <- exec_arg op 0 ;;
      if truthy c then
        if decide (length (args op) = 2%nat) then advance 1
        else exec_arg op 2 ;;; ret tt
      else
        if decide (length (args op) = 2%nat) then goto (target op + 1)
        else advance 1
  | CommandCode.FOR_END => goto (target op)
  | CommandCode.EXPRESSION => exec_arg op 0 ;;; advance 1
  | CommandCode.IF =>
      c <- exec_arg op 0 ;;
      if truthy c then
        advance 1 ;;;
        if decide (length (args op) = 2%nat) then exec_arg op 1 ;;; ret tt
        else ret tt
      else goto (target op + 1)
  | CommandCode.ELSE => goto (target op + 1)
  | CommandCode.ENDIF => advance 1
  | CommandCode.RETURN =>
      cd <- current_code ;; goto (Z.of_nat (length cd))
  | CommandCode.BREAK =>
      cd <- current_code ;;
      match Arr.get cd (target op) with
      | Some loop => goto (target loop + 1)
      | None => throw "TypeError"
      end
  end.

(** The loop of a script function call over the arguments from index [i]
    on; [argv] is the display string built so far. *)
Fixpoint bind_args (callee : nat) (a : list (list Token)) (i : nat)
    (argv : string) : M string :=
  match a with
  | [] => ret argv
  | ex :: rest =>
      q <- get ;;
      match funcs q !! callee with
      | None => throw "TypeError"
      | Some f =>
          match params f !! i with
          | None => throw "TypeError"
          | Some p =>
              cell <- translateId callee p ;;
              executeExpression (Some ex) (cell +:+ " = ") ;;;
              let argv := if decide (0 < i)%nat then argv +:+ ", " else argv in
              v <- executeExpression (Some ex) EmptyString ;;
              bind_args callee rest (S i) (argv +:+ toString v)
          end
      end
  end.

(** The body of [runStep] for the opcode [op], up to the push onto
    [history_]. *)
Definition run_op (op : Opcode) : M unit :=
  match command op with
  | Code c => run_code c op
  | CallUser callee =>
      argv <- bind_args callee (args op) 0 EmptyString ;;
      modify (fun q => set_position callee 0
                (set_callStack (mkFrame (currentFunc q) (currentStep q + 1) argv
                                  :: callStack q) q))
  | CallBuiltin b =>
      argv <- eval_args (args op) ;;
      execute b argv ;;;
      advance 1
  end.

(** [runStep()] *)
Definition runStep : M unit :=
  at_end <- pop_frame_at_end ;;
  if at_end then ret tt
  else
    cd <- current_code ;;
    q <- get ;;
    match Arr.get cd (currentStep q) with
    | None => throw "TypeError"
    | Some op =>
        let savedFunc := currentFunc q in
        let savedStep := currentStep q in
        modify (fun q => set_saved [] [] (set_errors [] q)) ;;;
        run_op op ;;;
        modify (fun q => set_history
                  (mkStepData (savedVars_ q) (savedValues_ q) savedFunc savedStep
                     :: history_ q) q) ;;;
        pop_frame_at_end ;;;
        ret tt
    end.

(** [argv[k] = v] on the plain array [argv] (it grows when [k] is past
    its end). *)
Definition set_arg (k : nat) (v : Val) (argv : list Val) : list Val :=
  if decide (k < length argv)%nat then <[k := v]> argv
  else argv ++ replicate (k - length argv) VUndef ++ [v].

(** The [switch] of [stepBack]: the builtin to run as the reverse
    ([None] for the empty name), its arguments, and the warning pushed
    on the way. *)
Definition reverse_of (b : Builtin) (argv : list Val)
  : option Builtin * list Val * list string :=
  let negated k := set_arg k (Value.neg str_to_num (arg argv k)) argv in
  match b with
  | VectorSize => (None, argv, [])
  | Phase => (Some Phase, negated 1%nat, [])
  | CPhase => (Some CPhase, negated 2%nat, [])
  | QFTCPhase => (Some InvQFTCPhase, argv, [])
  | InvQFTCPhase => (Some QFTCPhase, argv, [])
  | QFT => (Some InvQFT, argv, [])
  | InvQFT => (Some QFT, argv, [])
  | ShiftLeft => (Some ShiftRight, argv, [])
  | ShiftRight => (Some ShiftLeft, argv, [])
  | MeasureBit | ExpModN | RevExpModN => (None, argv, [])
  | Measure => (Some Measure, argv, ["Warning: measurement is normally not reversible!"])
  | Rx | Ry | Rz => (Some b, negated 1%nat, [])
  | _ => (Some b, argv, [])
  end.

(** The second half of [stepBack]: the opcode at the restored position
    and, for a builtin, the call of its reverse. *)
Definition reverse_gate : M unit :=
  cd <- current_code ;;
  q <- get ;;
  match Arr.get cd (currentStep q) with
  | None => throw "TypeError"
  | Some op =>
      match command op with
      | CallBuiltin b =>
          argv <- eval_args (args op) ;;
          let '(reverse, argv, warnings) := reverse_of b argv in
          modify (fun q => set_errors (errors q ++ warnings) q) ;;;
          match reverse with
          | None => push_error "Warning: this step has no reverse operation!"
          | Some revcmd => execute revcmd argv
          end
      | _ => ret tt
      end
  end.

(** [stepBack()] *)
Definition stepBack : M unit :=
  q <- get ;;
  match history_ q with
  | [] => ret tt
  | st :: older =>
      modify (fun q => set_errors [] (set_history older q)) ;;;
      restoreValues_ st ;;;
      modify (set_position (func st) (step st)) ;;;
      reverse_gate
  end.

(** *** What the page asks the engine *)

(** [isDone()] *)
Definition isDone : M bool :=
  cd <- current_code ;;
  q <- get ;;
  ret ((Z.of_nat (length cd) <=? currentStep q)
       && match callStack q with [] => true | _ => false end).

(** [isStart()] *)
Definition isStart : M bool :=
  q <- get ;;
  ret match history_ q with [] => true | _ => false end.

(** [getCurrentLine()]: a [TypeError] when the opcode it reads is
    [undefined]. *)
Definition getCurrentLine : M Z :=
  cd <- current_code ;;
  q <- get ;;
  let k := if Z.of_nat (length cd) <=? currentStep q
           then Z.of_nat (length cd) - 1 else currentStep q in
  match Arr.get cd k with
  | Some op => ret (Z.of_nat (line op) - 1)
  | None => throw "TypeError"
  end.

(** The engine as [compile] leaves a fresh [quantum.QScript]: positioned
    at the start of [__main__] (function 0), with the initial values of
    the constructor. *)
Definition compiled (c : Compiler.Compiled) : QScript :=
  mkQScript (Compiler.funcs (c_state c)) (Compiler.errors (c_state c)) 0 0 []
            None [] [] [] (VStr "unknown") (VNum 0) ∅ 0 [].

End Engine.

Arguments Done {FL A} a q.
Arguments Thrown {FL A} message q.

Notation "x <- m ;; k" := (bind m (fun x => k))
  (at level 100, m at next level, right associativity).
Notation "m ;;; k" := (bind m (fun _ => k))
  (at level 100, right associativity).

End Engine.

(** ** A concrete host, for running the model

    Exact rational numbers for the floats; a GPU whose only kernel is the
    Hadamard gate on qubit 0, with the 32-bit float nearest to [1/sqrt 2]
    as its factor, and whose float shader writes the sign into bit 24 and
    the magnitude, cut to a multiple of 2^-20, into the bits below; an
    evaluator for the texts [cell], [literal], [name] and [cell = text];
    and a random source that returns [0] and then [3/4].  The general
    theorems of Part III hold for every host; this one serves to run the
    model on concrete inputs. *)

Module Demo.

Definition Q : Type := QArith_base.Q.
Definition frac (n : Z) (d : positive) : Q := QArith_base.Qmake n d.

#[local] Instance floats : Float32 := {|
  F := Q;
  fzero := frac 0 1;
  fone := frac 1 1;
  fnan := frac (-1) 1;
  fadd := fun a b => Qreduction.Qred (QArith_base.Qplus a b);
  fsub := fun a b => Qreduction.Qred (QArith_base.Qminus a b);
  fmul := fun a b => Qreduction.Qred (QArith_base.Qmult a b);
  fdiv := fun a b => Qreduction.Qred (QArith_base.Qdiv a b);
  fneg := fun a => QArith_base.Qopp a;
  fof_Z := fun v => frac v 1;
  fnonpos := fun r => QArith_base.Qle_bool r (frac 0 1);
  fgt := fun r s => negb (QArith_base.Qle_bool r s);
|}.

(** The 32-bit float nearest to [1/sqrt 2]: 11863283 / 2^24. *)
Definition inv_sqrt2 : Q := frac 11863283 16777216.

(** The texture holds four floats (re, im, 0, 0) per basis state; qubit 0
    pairs the basis states [2k] and [2k + 1]. *)
Fixpoint hadamard0 (tex : list Q) : list Q :=
  match tex with
  | r0 :: i0 :: a :: b :: r1 :: i1 :: c :: d :: rest =>
      fmul inv_sqrt2 (fadd r0 r1) :: fmul inv_sqrt2 (fadd i0 i1) :: a :: b ::
      fmul inv_sqrt2 (fsub r0 r1) :: fmul inv_sqrt2 (fsub i0 i1) :: c :: d ::
      hadamard0 rest
  | _ => tex
  end.

(** The word of a float: bit 24 for the sign, and below it the magnitude
    in units of 2^-20, cut towards zero and to 24 bits. *)
Definition word_of (x : Q) : Z :=
  let m := Z.min (2 ^ 24 - 1)
             (Z.abs (QArith_base.Qnum x) * 2 ^ 20 / Z.pos (QArith_base.Qden x)) in
  if QArith_base.Qnum x <? 0 then 2 ^ 24 + m else m.

#[local] Instance gpu : Gpu := {|
  kernel := fun name args tex =>
    if String.eqb name "applyHadamard" then
      match args with
      | [VNum 0] => hadamard0 tex
      | _ => tex
      end
    else tex;
  float_word := word_of;
  bit_sum := fun _ _ _ => frac 0 1;
  collapse := fun _ _ _ tex => tex;
|}.

Fixpoint strip_spaces (s : string) : string :=
  match s with
  | EmptyString => EmptyString
  | String c rest =>
      if (nat_of_ascii c =? 32)%nat then strip_spaces rest
      else String c (strip_spaces rest)
  end.

(** Split at the first [=]. *)
Fixpoint split_eq (s : string) : option (string * string) :=
  match s with
  | EmptyString => None
  | String c rest =>
      if (nat_of_ascii c =? 61)%nat then Some (EmptyString, rest)
      else match split_eq rest with
           | Some (l, r) => Some (String c l, r)
           | None => None
           end
  end.

Fixpoint digits (s : string) (acc : Z) : option Z :=
  match s with
  | EmptyString => Some acc
  | String c rest =>
      if Compiler.is_digit c
      then digits rest (10 * acc + Z.of_nat (nat_of_ascii c - 48))
      else None
  end.

(** The characters between two double quotes that hold none. *)
Fixpoint until_quote (s : string) : option string :=
  match s with
  | EmptyString => None
  | String c rest =>
      if Compiler.is_quote c then
        match rest with
        | EmptyString => Some EmptyString
        | _ => None
        end
      else option_map (String c) (until_quote rest)
  end.

Definition literal (s : string) : option Val :=
  if String.eqb s "undefined" then Some VUndef
  else if String.eqb s "true" then Some (VBool true)
  else if String.eqb s "false" then Some (VBool false)
  else if String.eqb s "NaN" then Some VNaN
  else
    match s with
    | EmptyString => None
    | String c rest =>
        if Compiler.is_quote c then option_map VStr (until_quote rest)
        else if (nat_of_ascii c =? 45)%nat then
          match rest with
          | EmptyString => None
          | _ => option_map (fun z => VNum (- z)) (digits rest 0)
          end
        else option_map VNum (digits s 0)
    end.

(** A property of the global object, written [window.name]. *)
Definition is_cell (s : string) : bool := String.prefix "window." s.

(** A literal has its value; [window.name] reads a cell ([undefined]
    when it is absent); any other name is not defined, a
    ReferenceError; [window.name = text] stores the value of [text].
    Nothing else is evaluated: an assignment to anything but a cell ends
    in an exception as well. *)
Fixpoint evaluate (fuel : nat) (text : string) (cells : gmap string Val)
  : EvalResult * gmap string Val :=
  match literal text with
  | Some v => (EvalValue v, cells)
  | None =>
      match split_eq text with
      | Some (lhs, rhs) =>
          match fuel with
          | O => (EvalThrow "too deep", cells)
          | S fuel' =>
              match evaluate fuel' rhs cells with
              | (EvalValue v, cells') =>
                  if is_cell lhs then (EvalValue v, <[lhs := v]> cells')
                  else (EvalThrow "Invalid left-hand side in assignment", cells')
              | thrown => thrown
              end
          end
      | None =>
          match text with
          | EmptyString => (EvalThrow "Unexpected end of input", cells)
          | _ =>
              if is_cell text then (EvalValue (cell cells text), cells)
              else (EvalThrow (text +:+ " is not defined"), cells)
          end
      end
  end.

#[local] Instance host : Host := {|
  eval_ := fun text cells =>
    let text := strip_spaces text in evaluate (String.length text) text cells;
  str_to_num := fun _ => None;
  random := fun n => match n with O => frac 0 1 | S _ => frac 3 4 end;
  decoherence_draws := fun _ _ _ => 0%nat;
|}.

End Demo.

(** * Part II: the properties

    The predicates in which the theorems of Part III are stated, and the
    concrete inputs on which they are run. *)

(** ** QMath and the text of a script *)

(** What the specification says of [getWidth(n)]. *)
Definition smallest_width (n i : Z) : Prop :=
  n <= 2 ^ i /\ forall j, 0 <= j -> n <= 2 ^ j -> i <= j.

Definition two_returns : string :=
  String "a" (String Text.CR (String Text.CR (String "b" EmptyString))).

(** ** The simulator *)

Section SimulatorSpec.
Context {FL : Float32} {H : Host}.

(** Round [i] of the loop of [applyExpModN] finds its power, and writes
    the basis state [tgt i]. *)
Definition round_ok (width : Val) (power : Z -> option JS.num) (tgt : Z -> Z)
    (i : Z) : Prop :=
  exists e, power i = Some e /\
    JS.shl32 (JS.num_to_int32 e) (Simulator.shift_count width) + i = tgt i.

End SimulatorSpec.

(** ** The engine *)

Module EngineSpec.

Import Compiler Engine.

(** [keeps R m]: whatever [m] does, thrown or not, the state it ends in
    is related by [R] to the state it started from. *)
Definition keeps {FL : Float32} {A : Type} (R : QScript -> QScript -> Prop) (m : M A) : Prop :=
  forall q, R q (final (m q)).

(** The relation "the component [proj] is the same". *)
Definition same {FL : Float32} {B : Type} (proj : QScript -> B) (q q' : QScript) : Prop :=
  proj q' = proj q.

(** What the translation and evaluation of expressions leave alone:
    everything but the saved variables, the cells, the errors, the table
    of functions (whose [locals] grow) and [measuredValue]. *)
Definition eval_frame {FL : Float32} (q : QScript) :=
  (callStack q, simulator q, history_ q, currentFunc q, currentStep q,
   vectorSize q, rng q, calls q).

(** What [restoreValues_] leaves alone: everything but the cells and
    [measuredValue]. *)
Definition restore_frame {FL : Float32} (q : QScript) :=
  (eval_frame q, funcs q, errors q, savedVars_ q, savedValues_ q).

(** What the builtins leave alone: the position, the stacks, the table
    of functions, the cells and the saved variables. *)
Definition builtin_frame {FL : Float32} (q : QScript) :=
  (callStack q, history_ q, currentFunc q, currentStep q, funcs q, vars q,
   savedVars_ q, savedValues_ q).





(** The positions, in [argv], of the arguments that a builtin passes to
    [checkBound], in the order in which it checks them. *)
Definition checked_args (b : Builtin) : list nat :=
  match b with
  | Hadamard | SigmaX | SigmaY | SigmaZ | Unitary | Rx | Ry | Rz | Phase
  | QFT | InvQFT | ShiftLeft | ShiftRight | MeasureBit => [0%nat]
  | CNot | Swap | CPhase | QFTCPhase | InvQFTCPhase => [0%nat; 1%nat]
  | Toffoli => [0%nat; 1%nat; 2%nat]
  | ExpModN | RevExpModN => [2%nat]
  | _ => []
  end.

(** [up fs i j]: [j] is [i] or one of its ancestors in the table [fs]. *)
Inductive up (fs : list Func) : nat -> nat -> Prop :=
  | up_self (i : nat) : up fs i i
  | up_parent (i p j : nat) (f : Func) :
      fs !! i = Some f -> parent f = Some p -> up fs p j -> up fs i j.

(** A parent is allocated before its children. *)
Definition parents_below (fs : list Func) : Prop :=
  forall i f p, fs !! i = Some f -> parent f = Some p -> (p < i)%nat.

(** What the scope search of [translateId] has seen when it reaches the
    function [a] from [i]: no function before [a] declares [id] or has a
    local named [hasOwnProperty]. *)
Definition passed (fs : list Func) (id : string) (i a : nat) : Prop :=
  forall j fj, up fs i j -> up fs j a -> j <> a -> fs !! j = Some fj ->
               (id ∉ locals fj) /\ (HAS_OWN ∉ locals fj).

(** The cell of the variable [id] of the function [f]. *)
Definition local_cell (f : Func) (id : string) : string :=
  VARS_PREFIX +:+ name f +:+ "_" +:+ id.

(** The cell of the global variable [id] (an identifier that begins
    with an underscore). *)
Definition global_cell (id : string) : string := VARS_PREFIX +:+ "_" +:+ id.

(** [fn.locals[id] = 0] on the table of functions. *)
Definition declared {FL : Float32} (fn : nat) (id : string) (q : QScript) : QScript :=
  set_funcs (alter (fun f => set_locals (with_key id (locals f)) f) fn (funcs q)) q.

(** Evaluating the name of the cell [c] reads it and does nothing else. *)
Definition reads {FL : Float32} {H : Host} (c : string) : Prop :=
  forall cells, eval_ c cells = (EvalValue (cell cells c), cells).

(** Evaluating [c=v], with [v] printed, stores [v] in the cell [c]. *)
Definition assigns {FL : Float32} {H : Host} (c : string) (v : Val) : Prop :=
  forall cells, eval_ (c +:+ "=" +:+ toString v) cells = (EvalValue v, <[c := v]> cells).

(** The saved values are those that the saved symbols had in the cells
    [cells0], with [mv0] for [measured_value]. *)
Definition recorded (cells0 : gmap string Val) (mv0 : Val)
    (syms : list string) (vals : list Val) : Prop :=
  Forall2 (fun c v => v = if String.eqb c MEASURED_VALUE then mv0 else cell cells0 c)
          syms vals.

(** The saved symbols only grow. *)
Definition incl_saved {FL : Float32} (q q' : QScript) : Prop :=
  forall c, c ∈ savedVars_ q -> c ∈ savedVars_ q'.

(** The code of every function. *)
Definition code_table {FL : Float32} (q : QScript) : list (list Opcode) :=
  map code (funcs q).

(** What the end-of-function test leaves alone. *)
Definition data_frame {FL : Float32} (q : QScript) :=
  (funcs q, vars q, measuredValue q, history_ q, savedVars_ q, savedValues_ q).

(** While the identifiers of an expression are translated, nothing has
    been evaluated yet: the cells and [measuredValue] are those the step
    started with, and the record so far holds their values. *)
Definition translating {FL : Float32} (cells0 : gmap string Val) (mv0 : Val)
    (q : QScript) : Prop :=
  vars q = cells0 /\ measuredValue q = mv0 /\
  recorded cells0 mv0 (savedVars_ q) (savedValues_ q).

Definition readable_saved {FL : Float32} {H : Host} (q : QScript) : Prop :=
  forall c, c ∈ savedVars_ q -> c <> MEASURED_VALUE -> reads c.

Definition tracks {FL : Float32} {H : Host} (cells0 : gmap string Val) (mv0 : Val)
    {A : Type} (m : M A) : Prop :=
  forall q a q', m q = Done a q' -> readable_saved q' -> translating cells0 mv0 q -> translating cells0 mv0 q'.

End EngineSpec.

(** ** Concrete inputs, on the host of [Demo] *)

Module Inputs.

Import Compiler Engine.
#[local] Existing Instances Demo.floats Demo.gpu Demo.host.

(** The engine after [compile(script)]. *)
Definition engine_of (script : string) : QScript :=
  match Compiler.compile script with
  | Ok c => compiled c
  | _ => compiled (mkCompiled (mkCompState [] [] []) [] [])
  end.

(** [n] calls of [runStep]. *)
Definition steps (n : nat) (q : QScript) : QScript :=
  Nat.iter n (fun q => final (runStep q)) q.

(** Tests on the outcome of a run, on an optional value and on a list. *)
Definition is_done {A : Type} (r : Result A) : bool :=
  match r with
  | Done _ _ => true
  | Thrown _ _ => false
  end.
Definition has_value {A : Type} (o : option A) : bool :=
  match o with
  | Some _ => true
  | None => false
  end.
Definition nonempty {A : Type} (l : list A) : bool :=
  match l with
  | [] => false
  | _ :: _ => true
  end.
Definition thrown_message {A : Type} (r : Result A) : option string :=
  match r with
  | Done _ _ => None
  | Thrown msg _ => Some msg
  end.

Definition no_Func : Func := new_Func None EmptyString [].
Definition no_Opcode : Opcode := mkOpcode (Code CommandCode.RETURN) [] 0 (-1).
Definition no_StepData : StepData := mkStepData [] [] 0 0.

(** The function and the opcode the engine is at; its newest history
    record, with the function and the opcode that the record names. *)
Definition func_at (q : QScript) : Func := default no_Func (funcs q !! currentFunc q).
Definition op_at (q : QScript) : Opcode :=
  default no_Opcode (Arr.get (code (func_at q)) (currentStep q)).
Definition newest (q : QScript) : StepData := default no_StepData (head (history_ q)).

(** *** An assignment *)

Definition assign_program : string := "x = 5".
Definition assign_q0 : QScript := engine_of assign_program.
Definition assign_q1 : QScript := final (runStep assign_q0).
Definition x_of_main : string := "window.__main___x".

(** *** A measurement of a superposition *)

Definition measure_program : string := "VectorSize 6
Hadamard 0
Measure".
Definition measure_q2 : QScript := steps 2 (engine_of measure_program).
Definition measure_sim : Simulator.Sim :=
  default (Simulator.create (VNum 6)) (simulator measure_q2).

(** *** A partial measurement of the same superposition *)


(** *** A modular exponentiation on the superposition *)

Definition placed_sim : Simulator.Sim :=
  default measure_sim
    (Simulator.applyExpModN (VNum 7) (VNum 15) (VNum 2) measure_sim).

(** *** A modular exponentiation with modulus 1 *)

Definition modulus_one : Simulator.Sim :=
  default (Simulator.create (VNum 6))
    (Simulator.applyExpModN (VNum 2) (VNum 1) (VNum 1) (Simulator.create (VNum 6))).

(** *** Two assignments of a string *)

Definition string_program : string :=
  "x = " +:+ dq +:+ "a" +:+ dq +:+ "
x = " +:+ dq +:+ "b" +:+ dq.
Definition string_q2 : QScript := steps 2 (engine_of string_program).
Definition string_back : Result unit := stepBack string_q2.

(** *** An assignment to [hasOwnProperty] *)

Definition hidden_program : string := "hasOwnProperty = 1".
Definition hidden_q0 : QScript := engine_of hidden_program.
Definition hidden_tokens : list Token :=
  [mkToken ID HAS_OWN; mkToken EXPRESSION "="; mkToken EXPRESSION "1"].

(** *** A one-line [if] whose condition is false *)

Definition one_line_if : string := "x = 1
if 0; x = 2
x = 3".
Definition if_q1 : QScript := steps 1 (engine_of one_line_if).
Definition if_q2 : QScript := final (runStep if_q1).

(** *** An assignment in a procedure to a variable of its parent *)

Definition shadow_program : string := "proc f
x = 2
endproc
x = 1
f".
Definition shadow_q2 : QScript := steps 2 (engine_of shadow_program).
Definition shadow_q3 : QScript := final (runStep shadow_q2).
Definition main_of_shadow : Func := default no_Func (funcs shadow_q2 !! 0%nat).

(** *** Gates out of range *)

Definition six_qubits : QScript := steps 1 (engine_of "VectorSize 6").
Definition out_of_range : Result unit := execute CNot [VNum 99; VNum 100] six_qubits.

End Inputs.

(** ** Further properties: the lexer, the text, the steps, the register *)

Module LexSpec.

Import Compiler.

(** Every character of [s] is one of the identifier characters of
    [tokenize]: a letter, a digit, [_] or [.]. *)
Fixpoint all_ident (s : string) : bool :=
  match s with
  | EmptyString => true
  | String c rest => is_ident c && all_ident rest
  end.

(** What [tokenize] promises of a token. *)
Definition token_ok (t : Token) : Prop :=
  body t <> EmptyString /\ (type t = ID -> all_ident (body t) = true).

(** The invariant of the lexer's registers. *)
Definition lexer_ok (lx : Lexer) : Prop :=
  Forall token_ok (tokens lx) /\ (state lx <= 4)%nat /\
  (state lx <> 0%nat -> cur lx <> EmptyString) /\
  (state lx = 1%nat -> all_ident (cur lx) = true).

(** The characters of [s] that are not blank ([c > ' ']), in order. *)
Fixpoint squeeze (s : string) : string :=
  match s with
  | EmptyString => EmptyString
  | String c rest => if is_blank c then squeeze rest else String c (squeeze rest)
  end.

(** The bodies of the tokens, one after the other. *)
Fixpoint bodies (toks : list Token) : string :=
  match toks with
  | [] => EmptyString
  | t :: rest => (body t ++ bodies rest)%string
  end.

(** The text that the lexer has read: the bodies of its tokens and the
    body it is collecting. *)
Definition pending (lx : Lexer) : string :=
  (bodies (tokens lx) ++ match state lx with 0%nat => EmptyString | _ => cur lx end)%string.

(** [s] has a double quote, the character that opens a string literal. *)
Fixpoint quoted (s : string) : bool :=
  match s with
  | EmptyString => false
  | String c rest => is_quote c || quoted rest
  end.

(** No token of [toks] has a parenthesis that changes the nesting depth. *)
Definition flat (toks : list Token) : Prop :=
  Forall (fun t => paren_delta (body t) = 0) toks.

End LexSpec.

Module TextSpec.

(** The number of occurrences of [c] in [s]. *)
Fixpoint count (c : ascii) (s : string) : nat :=
  match s with
  | EmptyString => O
  | String a rest => ((if Ascii.eqb a c then 1 else 0) + count c rest)%nat
  end.

End TextSpec.

Module StepSpec.

Import Compiler Engine.

(** A line that the loop of [compileFunction] skips: blank after
    [trim()], or a comment. *)
Definition skipped (raw : string) : bool :=
  (String.length (trim raw) =? 0)%nat || String.eqb (substring 0 2 (trim raw)) "//".

(** The saved symbols are distinct and each has its saved value. *)
Definition aligned {FL : Float32} (q : QScript) : Prop :=
  NoDup (savedVars_ q) /\ length (savedVars_ q) = length (savedValues_ q).

(** [m], when it returns, keeps the property [I] of the engine. *)
Definition preserves {FL : Float32} {A : Type} (I : QScript -> Prop) (m : M A) : Prop :=
  forall q a q', m q = Done a q' -> I q -> I q'.

(** The arrays of saved symbols and values. *)
Definition saved {FL : Float32} (q : QScript) : list string * list Val :=
  (savedVars_ q, savedValues_ q).

(** The message of [init] for a size it refuses. *)
Definition bad_size (n : Z) : string :=
  "State vector size outside of supported range 6..22 or not even: " +:+ pretty n.

(** The message of QFTCPhase and InvQFTCPhase for a control that is not
    above the target. *)
Definition control_below (b : Builtin) : string :=
  "Error: For " +:+ builtin_name b +:+ " control qbit must be above the target qbit.".

End StepSpec.

Module RegisterSpec.

Section Circuit.
Context {FL : Float32} {G : Gpu} {H : Host}.

(** The two gates of which the Fourier transforms are made. *)
Inductive Gate : Type :=
| Hadamard (bitn : Val)
| PhaseShift (control target : Val) (inv : Z).

Definition run_gate (s : Simulator.Sim) (g : Gate) : Simulator.Sim :=
  match g with
  | Hadamard bitn => Simulator.applyHadamard bitn s
  | PhaseShift control target inv => Simulator.applyPhaseShift control target inv s
  end.

(** The same gate with the opposite phase shift. *)
Definition opposite (g : Gate) : Gate :=
  match g with
  | Hadamard bitn => Hadamard bitn
  | PhaseShift control target inv => PhaseShift control target (- inv)
  end.

(** The gates on qubit [i] of a window of [w] qubits at [offset]: a
    Hadamard gate, then a phase shift controlled by each higher qubit of
    the window, in rising order. *)
Definition gates_on (offset : Val) (w i : Z) : list Gate :=
  Hadamard (Value.add str_to_num (VNum i) offset)
  :: map (fun d => PhaseShift (Value.add str_to_num (VNum (i + 1 + d)) offset)
                              (Value.add str_to_num (VNum i) offset) (-1))
         (Arr.range (w - (i + 1))).

Definition qft_gates (offset : Val) (w : Z) : list Gate :=
  flat_map (gates_on offset w) (Arr.range w).

End Circuit.

End RegisterSpec.

(** ** Further inputs *)

Module Cases.

Import Compiler Engine Inputs.
#[local] Existing Instances Demo.floats Demo.gpu Demo.host.

(** *** A script of a comment and a blank line *)

Definition comment_only : string := "// nothing
   ".

(** *** A procedure that returns at once *)

Definition return_program : string := "proc f
return
endproc
f".
Definition return_q1 : QScript := steps 1 (engine_of return_program).
Definition caller_frame : Frame := default (mkFrame 0 0 "") (head (callStack return_q1)).

(** *** A line with a tab and a carriage return *)

Definition windows_line : string :=
  String "a" (String Text.TAB (String "b" (String Text.CR (String Text.LF (String "c" EmptyString))))).

End Cases.

(** * Part III: proofs *)

(** ** 32-bit operators on small operands *)

Lemma to_int32_small (x : Z) : - 2 ^ 31 <= x < 2 ^ 31 -> JS.to_int32 x = x.
Proof.
  intros Hx. unfold JS.to_int32.
  rewrite Z.mod_small; lia.
Qed.

Lemma shl32_small (a b : Z) :
  0 <= a -> 0 <= b < 32 -> a * 2 ^ b < 2 ^ 31 -> JS.shl32 a b = a * 2 ^ b.
Proof.
  intros Ha Hb Hlt. unfold JS.shl32.
  assert (1 <= 2 ^ b) by (apply (Z.pow_le_mono_r 2 0 b); lia).
  rewrite (to_int32_small a) by nia.
  rewrite Z.mod_small by lia.
  rewrite Z.shiftl_mul_pow2 by lia.
  apply to_int32_small. nia.
Qed.

Lemma shl32_one (i : Z) : 0 <= i <= 30 -> JS.shl32 1 i = 2 ^ i.
Proof.
  intros Hi. rewrite shl32_small; try lia.
  assert (2 ^ i <= 2 ^ 30) by (apply Z.pow_le_mono_r; lia). lia.
Qed.

(** [1 << i] never exceeds 2^30, whatever [i] is. *)
Lemma shl32_one_le (i : Z) : JS.shl32 1 i <= 2 ^ 30.
Proof.
  unfold JS.shl32.
  assert (Hm : 0 <= i mod 32 < 32) by (apply Z.mod_pos_bound; lia).
  rewrite (to_int32_small 1) by lia.
  rewrite Z.shiftl_mul_pow2 by lia. rewrite Z.mul_1_l.
  destruct (Z.eq_dec (i mod 32) 31) as [->|Hne].
  - vm_compute. discriminate.
  - assert (2 ^ (i mod 32) <= 2 ^ 30) by (apply Z.pow_le_mono_r; lia).
    rewrite to_int32_small; lia.
Qed.

(** ** getWidth *)

Lemma getWidth_loop_spec (n : Z) (fuel : nat) (i : Z) :
  n <= 2 ^ 30 -> 1 <= i <= 30 -> (30 - i < Z.of_nat fuel) ->
  (forall j, 1 <= j < i -> 2 ^ j < n) ->
  exists r, QMath.getWidth_loop fuel n i = Some r /\ i <= r <= 30 /\
            n <= 2 ^ r /\ forall j, 1 <= j < r -> 2 ^ j < n.
Proof.
  intros Hn. revert i. induction fuel as [|fuel IH]; intros i Hi Hfuel Hbelow.
  - lia.
  - cbn [QMath.getWidth_loop]. rewrite shl32_one by lia.
    destruct (2 ^ i <? n) eqn:Hlt.
    + apply Z.ltb_lt in Hlt.
      assert (i < 30).
      { destruct (Z.eq_dec i 30) as [->|]; [lia|lia]. }
      destruct (IH (i + 1)) as (r & Hr & Hir & Hnr & Hmin); try lia.
      { intros j Hj. destruct (Z.eq_dec j i) as [->|]; [exact Hlt|apply Hbelow; lia]. }
      exists r. repeat split; try lia; auto.
    + apply Z.ltb_ge in Hlt. exists i. repeat split; try lia; auto.
Qed.

(** C9 (as amended): for an integer [n <= 2^30], [getWidth(n)] returns the
    smallest [i >= 1] with [2^i >= n]. *)
Theorem getWidth_smallest_from_one (n : Z) (fuel : nat) :
  n <= 2 ^ 30 -> (30 <= fuel)%nat ->
  exists i, QMath.getWidth fuel n = Some i /\ 1 <= i /\ n <= 2 ^ i /\
            forall j, 1 <= j -> n <= 2 ^ j -> i <= j.
Proof.
  intros Hn Hfuel.
  destruct (getWidth_loop_spec n fuel 1) as (r & Hr & Hir & Hnr & Hmin); try lia.
  exists r. repeat split; try lia; auto.
  intros j Hj Hnj. destruct (Z_lt_le_dec j r) as [Hlt|]; [|lia].
  specialize (Hmin j ltac:(lia)). lia.
Qed.

Lemma getWidth_smallest_from_one_witness :
  exists i, QMath.getWidth 30 5 = Some i /\ 1 <= i /\ 5 <= 2 ^ i /\
            forall j, 1 <= j -> 5 <= 2 ^ j -> i <= j.
Proof. apply (getWidth_smallest_from_one 5 30); [vm_compute; discriminate | lia]. Defined.

(** C9, counterexample: [getWidth(1)] is 1, although [2^0 >= 1]. *)
Lemma getWidth_one_not_smallest :
  QMath.getWidth 30 1 = Some 1 /\ ~ smallest_width 1 1.
Proof.
  split; [reflexivity|].
  intros [_ Hmin]. specialize (Hmin 0 ltac:(lia) ltac:(simpl; lia)). lia.
Qed.

(** Above 2^30 the loop of [getWidth] never ends: [1 << i] wraps around. *)
Lemma getWidth_loop_diverges (n : Z) (fuel : nat) (i : Z) :
  2 ^ 30 < n -> QMath.getWidth_loop fuel n i = None.
Proof.
  intros Hn. revert i. induction fuel as [|fuel IH]; intros i; [reflexivity|].
  cbn [QMath.getWidth_loop].
  pose proof (shl32_one_le i).
  destruct (JS.shl32 1 i <? n) eqn:Hlt; [apply IH|].
  apply Z.ltb_ge in Hlt. lia.
Qed.

(** ** compile: folding of carriage returns and tabs *)

(** C6: only the first carriage return is replaced; the second one stays
    in the stored source line. *)
Theorem compile_text_keeps_second_return :
  Text.compile_text two_returns
    = [String "a" (String Text.SPACE (String Text.CR (String "b" EmptyString)))]
  /\ existsb (Text.occurs Text.CR) (Text.compile_text two_returns) = true.
Proof. split; reflexivity. Qed.

Lemma to_int32_range (x : Z) : - 2 ^ 31 <= JS.to_int32 x < 2 ^ 31.
Proof.
  unfold JS.to_int32.
  pose proof (Z.mod_pos_bound (x + 2 ^ 31) (2 ^ 32) ltac:(lia)). lia.
Qed.

Lemma and32_one (e : Z) : 0 <= e < 2 ^ 31 -> JS.and32 e 1 = e mod 2.
Proof.
  intros He. unfold JS.and32.
  rewrite (to_int32_small e), (to_int32_small 1) by lia.
  change 1 with (Z.ones 1) at 1. rewrite Z.land_ones by lia.
  change (2 ^ 1) with 2.
  pose proof (Z.mod_pos_bound e 2 ltac:(lia)).
  apply to_int32_small. lia.
Qed.

Lemma shr32_one (e : Z) : - 2 ^ 31 <= e < 2 ^ 31 -> JS.shr32 e 1 = e / 2.
Proof.
  intros He. unfold JS.shr32. rewrite to_int32_small by lia.
  change (1 mod 32) with 1. rewrite Z.shiftr_div_pow2 by lia. reflexivity.
Qed.

(** ** expModN *)

Lemma expModN_loop_S (f : nat) (N b r : JS.num) (e : Z) :
  QMath.expModN_loop (S f) N b r e =
    if 0 <? e then
      QMath.expModN_loop f N (JS.rem (JS.mul b b) N)
        (if JS.and32 e 1 =? 0 then r else JS.rem (JS.mul r b) N) (JS.shr32 e 1)
    else Some r.
Proof. reflexivity. Qed.

Lemma expModN_loop_total (f : nat) (N b r : JS.num) (e : Z) :
  - 2 ^ 31 <= e < 2 ^ 31 -> e < 2 ^ Z.of_nat f ->
  exists res, QMath.expModN_loop (S f) N b r e = Some res.
Proof.
  revert b r e. induction f as [|f IH]; intros b r e He Hf.
  - rewrite expModN_loop_S. change (2 ^ Z.of_nat 0) with 1 in Hf.
    destruct (0 <? e) eqn:Hpos; [apply Z.ltb_lt in Hpos; lia|]. eauto.
  - rewrite expModN_loop_S.
    destruct (0 <? e) eqn:Hpos; [|eauto].
    apply Z.ltb_lt in Hpos.
    rewrite shr32_one by lia.
    apply IH.
    + split; [apply Z.le_trans with 0; [lia|apply Z.div_pos; lia]|].
      apply Z.div_lt_upper_bound; lia.
    + apply Z.div_lt_upper_bound; [lia|].
      rewrite Nat2Z.inj_succ, Z.pow_succ_r in Hf by lia. lia.
Qed.

(** [expModN] always returns: 33 rounds are enough for every exponent. *)
Lemma expModN_total (x k N : JS.num) : exists res, QMath.expModN x k N = Some res.
Proof.
  unfold QMath.expModN. destruct k as [e|]; [|eauto].
  rewrite expModN_loop_S.
  destruct (0 <? e) eqn:Hpos; [|eauto].
  pose proof (to_int32_range e) as Hr.
  apply expModN_loop_total.
  - unfold JS.shr32. change (1 mod 32) with 1.
    rewrite Z.shiftr_div_pow2 by lia. change (2 ^ 1) with 2.
    split; [apply Z.div_le_lower_bound; lia|apply Z.div_lt_upper_bound; lia].
  - unfold JS.shr32. change (1 mod 32) with 1.
    rewrite Z.shiftr_div_pow2 by lia. change (2 ^ 1) with 2.
    apply Z.div_lt_upper_bound; [lia|]. change (Z.of_nat 31) with 31. lia.
Qed.

Lemma pow_halve (b e : Z) : 0 <= e -> b ^ e = (b * b) ^ (e / 2) * b ^ (e mod 2).
Proof.
  intros He.
  rewrite (Z.div_mod e 2) at 1 by lia.
  pose proof (Z.mod_pos_bound e 2 ltac:(lia)).
  assert (0 <= e / 2) by (apply Z.div_pos; lia).
  rewrite Z.pow_add_r by lia. rewrite Z.pow_mul_r by lia.
  change (b ^ 2) with (b * (b * 1)). rewrite Z.mul_1_r. reflexivity.
Qed.

Lemma expModN_loop_correct (N : Z) (f : nat) (b r e : Z) :
  2 <= N -> 0 <= b < N -> 0 <= r < N -> 0 <= e < 2 ^ 31 -> e < 2 ^ Z.of_nat f ->
  QMath.expModN_loop (S f) (Some N) (Some b) (Some r) e
    = Some (Some ((r * b ^ e) mod N)).
Proof.
  intros HN. revert b r e. induction f as [|f IH]; intros b r e Hb Hr He Hf.
  - change (2 ^ Z.of_nat 0) with 1 in Hf. assert (e = 0) as -> by lia.
    rewrite expModN_loop_S. change (0 <? 0) with false. cbv iota.
    rewrite Z.pow_0_r, Z.mul_1_r, Z.mod_small by lia. reflexivity.
  - rewrite expModN_loop_S.
    destruct (0 <? e) eqn:Hpos.
    2:{ apply Z.ltb_ge in Hpos. assert (e = 0) as -> by lia.
        rewrite Z.pow_0_r, Z.mul_1_r, Z.mod_small by lia. reflexivity. }
    apply Z.ltb_lt in Hpos.
    rewrite and32_one, shr32_one by lia.
    assert (Hrem : forall u, 0 <= u -> JS.rem (Some u) (Some N) = Some (u mod N)).
    { intros u Hu. cbn. destruct (N =? 0) eqn:E; [apply Z.eqb_eq in E; lia|].
      rewrite Z.rem_mod_nonneg by lia. reflexivity. }
    cbn [JS.mul]. rewrite (Hrem (b * b)) by nia.
    pose proof (Z.mod_pos_bound (b * b) N ltac:(lia)) as Hbb.
    pose proof (Z.mod_pos_bound e 2 ltac:(lia)) as He2.
    assert (Hhalf : 0 <= e / 2 < 2 ^ 31).
    { split; [apply Z.div_pos; lia|apply Z.div_lt_upper_bound; lia]. }
    assert (Hf' : e / 2 < 2 ^ Z.of_nat f).
    { apply Z.div_lt_upper_bound; [lia|].
      rewrite Nat2Z.inj_succ, Z.pow_succ_r in Hf by lia. lia. }
    rewrite (pow_halve b e) by lia.
    destruct (e mod 2 =? 0) eqn:Hodd.
    + apply Z.eqb_eq in Hodd. rewrite Hodd, Z.pow_0_r, Z.mul_1_r.
      rewrite IH by lia.
      f_equal. f_equal.
      rewrite <- Z.mul_mod_idemp_r by lia.
      rewrite (Z.mod_pow_l (b * b)).
      rewrite Z.mul_mod_idemp_r by lia. reflexivity.
    + apply Z.eqb_neq in Hodd. assert (e mod 2 = 1) as -> by lia.
      rewrite Z.pow_1_r. rewrite (Hrem (r * b)) by nia.
      pose proof (Z.mod_pos_bound (r * b) N ltac:(lia)).
      rewrite IH by lia.
      f_equal. f_equal.
      rewrite <- Z.mul_mod_idemp_r by lia.
      rewrite (Z.mod_pow_l (b * b)).
      rewrite Z.mul_mod_idemp_r by lia.
      rewrite Z.mul_mod_idemp_l by lia.
      f_equal. ring.
Qed.

(** For a base [x >= 0], a modulus [N >= 2] and an exponent below 2^31,
    [expModN(x, k, N)] is [x^k mod N]. *)
Lemma expModN_correct (x k N : Z) :
  0 <= x -> 2 <= N -> 0 <= k < 2 ^ 31 ->
  QMath.expModN (Some x) (Some k) (Some N) = Some (Some (x ^ k mod N)).
Proof.
  intros Hx HN Hk. unfold QMath.expModN.
  assert (JS.rem (Some x) (Some N) = Some (x mod N)) as ->.
  { cbn. destruct (N =? 0) eqn:E; [apply Z.eqb_eq in E; lia|].
    rewrite Z.rem_mod_nonneg by lia. reflexivity. }
  pose proof (Z.mod_pos_bound x N ltac:(lia)).
  rewrite expModN_loop_correct by (try lia; change (Z.of_nat 32) with 32; lia).
  rewrite Z.mul_1_l. rewrite Z.mod_pow_l. reflexivity.
Qed.

(** ** Arrays *)

Lemma Arr_set_length {A : Type} (l : list A) (i : Z) (x : A) :
  length (Arr.set l i x) = length l.
Proof. unfold Arr.set. destruct (i <? 0); [reflexivity|apply length_insert]. Qed.

Lemma Arr_get_set_eq {A : Type} (l : list A) (i : Z) (x : A) :
  0 <= i < Z.of_nat (length l) -> Arr.get (Arr.set l i x) i = Some x.
Proof.
  intros Hi. unfold Arr.get, Arr.set.
  destruct (i <? 0) eqn:E; [apply Z.ltb_lt in E; lia|].
  apply list_lookup_insert_eq. lia.
Qed.

Lemma Arr_get_set_ne {A : Type} (l : list A) (i j : Z) (x : A) :
  i <> j -> Arr.get (Arr.set l i x) j = Arr.get l j.
Proof.
  intros Hne. unfold Arr.get, Arr.set.
  destruct (i <? 0) eqn:Ei; [reflexivity|].
  destruct (j <? 0) eqn:Ej; [reflexivity|].
  apply Z.ltb_ge in Ei, Ej.
  apply list_lookup_insert_ne. lia.
Qed.

Lemma Arr_get_replicate {A : Type} (n : nat) (x : A) (i : Z) :
  0 <= i < Z.of_nat n -> Arr.get (replicate n x) i = Some x.
Proof.
  intros Hi. unfold Arr.get.
  destruct (i <? 0) eqn:E; [apply Z.ltb_lt in E; lia|].
  apply lookup_replicate_2. lia.
Qed.

Lemma Arr_range_length (n : Z) : length (Arr.range n) = Z.to_nat n.
Proof. unfold Arr.range. rewrite length_map, length_seq. reflexivity. Qed.

Lemma Arr_range_elem (n i : Z) : i ∈ Arr.range n <-> 0 <= i < n.
Proof.
  unfold Arr.range. rewrite list_elem_of_fmap. split.
  - intros (k & -> & Hk). apply elem_of_seq in Hk. lia.
  - intros Hi. exists (Z.to_nat i). split; [lia|]. apply elem_of_seq. lia.
Qed.

Lemma Arr_range_NoDup (n : Z) : NoDup (Arr.range n).
Proof.
  unfold Arr.range. apply NoDup_fmap_2; [|apply NoDup_seq].
  intros a b Hab. lia.
Qed.

Section SimulatorFacts.
Context {FL : Float32} {G : Gpu} {H : Host}.

Import Simulator.

(** *** The staging array after [generateZeroTexture(); texArray[0] = 0] *)

Lemma imap_zero (n : Z) (l : list F) :
  Z.of_nat (length l) <= n ->
  imap (fun i x => if Z.of_nat i <? n then fzero else x) l = replicate (length l) fzero.
Proof.
  intros Hn. apply list_eq. intros i.
  rewrite list_lookup_imap.
  destruct (l !! i) as [x|] eqn:Hi.
  - pose proof (lookup_lt_Some _ _ _ Hi).
    cbn. destruct (Z.of_nat i <? n) eqn:E; [|apply Z.ltb_ge in E; lia].
    symmetry. apply lookup_replicate_2. lia.
  - cbn. symmetry. apply lookup_ge_None. rewrite length_replicate.
    apply lookup_ge_None in Hi. lia.
Qed.

Lemma zeroed_texArray (n : Z) (s : Sim) :
  wf n s ->
  Arr.set (texArray (generateZeroTexture s)) 0 fzero
    = replicate (length (texArray s)) fzero.
Proof.
  intros (Hn & _ & Htw & Hlen & _).
  unfold generateZeroTexture. cbn [texArray set_texArray].
  rewrite imap_zero by lia.
  unfold Arr.set. cbn.
  rewrite list_insert_insert_eq.
  apply list_eq. intros i.
  destruct (decide (i = 0%nat)) as [->|Hne].
  - destruct (length (texArray s)) as [|k] eqn:E; [reflexivity|].
    reflexivity.
  - rewrite list_lookup_insert_ne by lia. reflexivity.
Qed.

(** *** The loop that places the amplitudes *)

Section Placing.
Variables (state : list F) (width : Val) (power : Z -> option JS.num).
(** [tgt i] is the basis state that round [i] writes. *)
Variable tgt : Z -> Z.

Lemma place_rounds (l : list Z) (tex : list F) :
  (forall i, i ∈ l -> round_ok width power tgt i) ->
  (forall i j, i ∈ l -> j ∈ l -> tgt i = tgt j -> i = j) ->
  exists tex',
    fold_left
      (fun acc i =>
         match acc with
         | Some tex =>
             match power i with
             | Some e => Some (place state width e i tex)
             | None => None
             end
         | None => None
         end) l (Some tex) = Some tex'
    /\ length tex' = length tex
    /\ (forall i, i ∈ l -> 0 <= tgt i -> 4 * tgt i + 1 < Z.of_nat (length tex) ->
          Arr.get tex' (4 * tgt i) = Some (read_f32 state (i * 2)) /\
          Arr.get tex' (4 * tgt i + 1) = Some (read_f32 state (i * 2 + 1)))
    /\ (forall p, (forall i, i ∈ l -> p <> 4 * tgt i /\ p <> 4 * tgt i + 1) ->
          Arr.get tex' p = Arr.get tex p).
Proof.
  induction l as [|i l IH] using rev_ind; intros Hok Hinj.
  - exists tex. cbn.
    split; [reflexivity|]. split; [reflexivity|]. split; [|reflexivity].
    intros j Hj. inversion Hj.
  - destruct IH as (tex1 & Hfold & Hlen & Hhit & Hmiss).
    { intros j Hj. apply Hok. apply elem_of_app. auto. }
    { intros j k Hj Hk. apply Hinj; apply elem_of_app; auto. }
    destruct (Hok i) as (e & He & Hidx).
    { apply elem_of_app. right. apply list_elem_of_singleton. reflexivity. }
    exists (place state width e i tex1).
    rewrite fold_left_app. cbn [fold_left]. rewrite Hfold, He.
    assert (Hplace : place state width e i tex1 =
              Arr.set (Arr.set tex1 (4 * tgt i) (read_f32 state (i * 2)))
                      (4 * tgt i + 1) (read_f32 state (i * 2 + 1))).
    { unfold place. rewrite Hidx.
      replace (tgt i * 4) with (4 * tgt i) by lia. reflexivity. }
    rewrite Hplace.
    split; [reflexivity|]. split; [rewrite !Arr_set_length; exact Hlen|]. split.
    + intros j Hj Hpos Hin.
      destruct (decide (j = i)) as [->|Hne].
      * split.
        -- rewrite Arr_get_set_ne by lia. apply Arr_get_set_eq. lia.
        -- apply Arr_get_set_eq. rewrite Arr_set_length. lia.
      * apply elem_of_app in Hj as [Hj|Hj].
        2:{ apply list_elem_of_singleton in Hj. contradiction. }
        assert (tgt i <> tgt j).
        { intros Heq. apply Hinj in Heq; [congruence| |].
          - apply elem_of_app. right. apply list_elem_of_singleton. reflexivity.
          - apply elem_of_app. auto. }
        rewrite !Arr_get_set_ne by lia. apply Hhit; auto.
    + intros p Hp.
      destruct (Hp i) as [Hp1 Hp2].
      { apply elem_of_app. right. apply list_elem_of_singleton. reflexivity. }
      rewrite !Arr_get_set_ne by lia.
      apply Hmiss. intros j Hj. apply Hp. apply elem_of_app. auto.
Qed.

End Placing.

End SimulatorFacts.

Section SimulatorTheorems.
Context {FL : Float32} {G : Gpu} {H : Host}.

Import Simulator.

Lemma target_injective (w a b i j : Z) :
  0 <= w -> 0 <= i < 2 ^ w -> 0 <= j < 2 ^ w ->
  a * 2 ^ w + i = b * 2 ^ w + j -> i = j.
Proof.
  intros Hw Hi Hj Heq.
  assert (Hm : (a * 2 ^ w + i) mod 2 ^ w = (b * 2 ^ w + j) mod 2 ^ w) by congruence.
  rewrite !(Z.add_comm (_ * 2 ^ w)), !Z.mod_add, !Z.mod_small in Hm by lia.
  exact Hm.
Qed.

(** *** What [getState] reads *)

Lemma plane_length (tex : list F) (pixels sel : Z) :
  length (plane tex pixels sel) = Z.to_nat pixels.
Proof. unfold plane. rewrite length_map. apply Arr_range_length. Qed.

Lemma interleave_lookup (c1 c2 : list F) (k : nat) :
  length c1 = length c2 ->
  interleave c1 c2 !! (2 * k)%nat = c1 !! k /\
  interleave c1 c2 !! (2 * k + 1)%nat = c2 !! k.
Proof.
  revert c2 k. induction c1 as [|a c1 IH]; intros [|b c2] k Hlen; cbn in Hlen; try lia.
  - split; reflexivity.
  - destruct k as [|k]; [split; reflexivity|].
    replace (2 * S k + 1)%nat with (S (S (2 * k + 1))) by lia.
    replace (2 * S k)%nat with (S (S (2 * k))) by lia.
    cbn [interleave]. change ((a :: b :: ?l) !! S (S ?j)) with (l !! j).
    rewrite !lookup_cons. apply IH. lia.
Qed.

Lemma plane_lookup (tex : list F) (pixels sel : Z) (k : nat) :
  Z.of_nat k < pixels ->
  plane tex pixels sel !! k
    = Some (readback (default fzero (Arr.get tex (4 * Z.of_nat k + sel)))).
Proof.
  intros Hk. unfold plane, Arr.range.
  change (map ?f ?l) with (f <$> l).
  rewrite !list_lookup_fmap, lookup_seq_lt by lia. reflexivity.
Qed.

(** The state that [getState] returns holds, for every basis state of
    the register, the amplitude as it is read back. *)
Lemma getState_read (n : Z) (s : Sim) (i : Z) :
  wf n s -> 0 <= i < 2 ^ n ->
  exists re im,
    amplitude s i = Some (re, im) /\
    read_f32 (getState s).1 (i * 2) = readback re /\
    read_f32 (getState s).1 (i * 2 + 1) = readback im.
Proof.
  intros (Hn & _ & Htw & _ & H1 & H2) Hi.
  assert (Hlen : Z.of_nat (length (current s)) = 4 * 2 ^ n).
  { unfold current. destruct (currentOutput s); assumption. }
  unfold amplitude.
  destruct (lookup_lt_is_Some_2 (current s) (Z.to_nat (4 * i)) ltac:(lia)) as [re Hre].
  destruct (lookup_lt_is_Some_2 (current s) (Z.to_nat (4 * i + 1)) ltac:(lia)) as [im Him].
  assert (Hgre : Arr.get (current s) (4 * i) = Some re).
  { unfold Arr.get. destruct (4 * i <? 0) eqn:E; [apply Z.ltb_lt in E; lia|exact Hre]. }
  assert (Hgim : Arr.get (current s) (4 * i + 1) = Some im).
  { unfold Arr.get. destruct (4 * i + 1 <? 0) eqn:E; [apply Z.ltb_lt in E; lia|exact Him]. }
  exists re, im. rewrite Hgre, Hgim. split; [reflexivity|].
  unfold getState. cbn [fst]. unfold read_f32, Arr.get.
  destruct (i * 2 <? 0) eqn:E1; [apply Z.ltb_lt in E1; lia|].
  destruct (i * 2 + 1 <? 0) eqn:E2; [apply Z.ltb_lt in E2; lia|].
  replace (Z.to_nat (i * 2)) with (2 * Z.to_nat i)%nat by lia.
  replace (Z.to_nat (i * 2 + 1)) with (2 * Z.to_nat i + 1)%nat by lia.
  destruct (interleave_lookup
              (plane (current s) (texWidth s * texWidth s) 0)
              (plane (current s) (texWidth s * texWidth s) 1) (Z.to_nat i))
    as [Ha Hb]; [rewrite !plane_length; reflexivity|].
  rewrite Ha, Hb, !plane_lookup by lia.
  rewrite Z2Nat.id by lia. rewrite Z.add_0_r, Hgre, Hgim. split; reflexivity.
Qed.

(** C2 (as amended): for integers [x >= 0] and [N >= 2] with
    [N * 2^w <= 2^31] (and [N <= 2^26], so that the products of [expModN]
    are exact), [applyExpModN(x, N, w)] returns, and in the new state
    vector the amplitude at index [(x^i mod N) * 2^w + i] is the old
    amplitude [i] as [getState] reads it back (each component through
    the float shader and [intToFloat]), for every [i < 2^w] whose index
    lies inside the vector; every other amplitude is zero. *)
Theorem applyExpModN_places (n x N w : Z) (s : Sim) :
  wf n s -> 0 <= x -> 2 <= N -> N <= 2 ^ 26 -> 0 <= w -> N * 2 ^ w <= 2 ^ 31 ->
  exists s',
    applyExpModN (VNum x) (VNum N) (VNum w) s = Some s' /\
    (forall i, 0 <= i < 2 ^ w -> (x ^ i mod N) * 2 ^ w + i < 2 ^ n ->
       exists re im,
         amplitude s i = Some (re, im) /\
         amplitude s' ((x ^ i mod N) * 2 ^ w + i) = Some (readback re, readback im)) /\
    (forall t, 0 <= t < 2 ^ n ->
       (forall i, 0 <= i < 2 ^ w -> t <> (x ^ i mod N) * 2 ^ w + i) ->
       amplitude s' t = Some (fzero, fzero)).
Proof.
  intros Hwf Hx HN HN26 Hw HNw.
  assert (Hpw : 1 <= 2 ^ w) by (apply (Z.pow_le_mono_r 2 0 w); lia).
  assert (Hw30 : w <= 30).
  { destruct (Z_le_gt_dec w 30) as [|Hgt]; [assumption|].
    assert (2 ^ 31 <= 2 ^ w) by (apply Z.pow_le_mono_r; lia). nia. }
  assert (Hpw30 : 2 ^ w <= 2 ^ 30) by (apply Z.pow_le_mono_r; lia).
  pose proof (fun i => getState_read n s i Hwf) as Hread.
  unfold applyExpModN, permute.
  destruct (getState s) as [state s1] eqn:Hgs.
  assert (Hs1 : s1 = set_rtOutput (plane (current s) (texWidth s * texWidth s) 1) s).
  { unfold getState in Hgs. congruence. }
  assert (Hwf1 : wf n s1) by (subst s1; exact Hwf).
  pose proof (zeroed_texArray n s1 Hwf1) as Hzero.
  cbn [texArray set_texArray].
  rewrite Hzero.
  assert (Hcnt : JS.shl32 1 (shift_count (VNum w)) = 2 ^ w).
  { unfold shift_count. cbn [ToNumber]. apply shl32_one. lia. }
  rewrite Hcnt.
  set (tgt := fun i => (x ^ i mod N) * 2 ^ w + i).
  destruct (place_rounds state (VNum w)
              (fun i => QMath.expModN (ToNumber str_to_num (VNum x)) (Some i)
                                      (ToNumber str_to_num (VNum N)))
              tgt (Arr.range (2 ^ w)) (replicate (length (texArray s1)) fzero))
    as (tex' & Hfold & Hlen & Hhit & Hmiss).
  { intros i Hi. apply Arr_range_elem in Hi.
    exists (Some (x ^ i mod N)). split.
    - cbn [ToNumber]. apply expModN_correct; lia.
    - pose proof (Z.mod_pos_bound (x ^ i) N ltac:(lia)) as Hb.
      unfold shift_count, JS.num_to_int32. cbn [ToNumber].
      rewrite to_int32_small by lia.
      rewrite shl32_small by (try lia; nia). reflexivity. }
  { intros i j Hi Hj. apply Arr_range_elem in Hi, Hj. unfold tgt.
    apply target_injective; lia. }
  unfold place_all. rewrite Hfold.
  eexists. split; [reflexivity|].
  destruct Hwf1 as (Hn & _ & _ & Hta & _).
  rewrite length_replicate in Hlen, Hhit.
  cbn [fst] in Hread.
  split.
  - intros i Hi Hin.
    pose proof (Z.mod_pos_bound (x ^ i) N ltac:(lia)) as Hmod.
    destruct (Hread i) as (re & im & Hamp & Hre' & Him'); [nia|].
    exists re, im. split; [exact Hamp|].
    destruct (Hhit i) as [Hre Him].
    { apply Arr_range_elem. lia. }
    { unfold tgt. nia. }
    { unfold tgt. lia. }
    unfold amplitude, setState, current. cbn.
    unfold tgt in Hre, Him. rewrite Hre, Him, Hre', Him'. reflexivity.
  - intros t Ht Hfree.
    unfold amplitude, setState, current. cbn.
    rewrite !Hmiss.
    + rewrite !Arr_get_replicate by lia. reflexivity.
    + intros i Hi. apply Arr_range_elem in Hi.
      specialize (Hfree i Hi). unfold tgt. lia.
    + intros i Hi. apply Arr_range_elem in Hi.
      specialize (Hfree i Hi). unfold tgt. lia.
Qed.

(** *** Full measurement *)

Lemma interleave_length (c1 c2 : list F) :
  length c1 = length c2 -> length (interleave c1 c2) = (2 * length c1)%nat.
Proof.
  revert c2. induction c1 as [|a c1 IH]; intros [|b c2] Hl; cbn in *; try lia.
  rewrite IH by lia. lia.
Qed.

Lemma getState_length (n : Z) (s : Sim) :
  wf n s -> Z.of_nat (length (getState s).1) = 2 * 2 ^ n.
Proof.
  intros (Hn & _ & Htw & _). unfold getState. cbn [fst].
  rewrite interleave_length by (rewrite !plane_length; reflexivity).
  rewrite plane_length, Htw.
  assert (0 < 2 ^ n) by (apply Z.pow_pos_nonneg; lia). lia.
Qed.

(** The second loop of [applyMeasure] over [m] pairs, entered at the
    even index [2 * a], returns one of [a, ..., a + m - 1]. *)
Lemma measure_loop_range (m : nat) (state : list F) (a : Z) (r : F) :
  length state = (2 * m)%nat -> (1 <= m)%nat ->
  a <= measure_loop state (2 * a) r <= a + Z.of_nat m - 1.
Proof.
  revert state a r. induction m as [|m IH]; intros state a r Hlen Hm; [lia|].
  destruct state as [|re [|im rest]]; cbn in Hlen; try lia.
  cbn [measure_loop].
  destruct (fnonpos (fsub r (modulus2 re im))).
  - rewrite Z.mul_comm, Z.div_mul by lia. lia.
  - destruct m as [|m'].
    + destruct rest; cbn in Hlen; [|lia].
      cbn [measure_loop].
      replace (2 * a + 2 - 2) with (a * 2) by lia.
      rewrite Z.div_mul by lia. lia.
    + replace (2 * a + 2) with (2 * (a + 1)) by lia.
      specialize (IH rest (a + 1) (fsub r (modulus2 re im)) ltac:(lia) ltac:(lia)).
      lia.
Qed.

(** C3, on the simulator: [applyMeasure] returns a basis state of the
    register and leaves both state textures, the staging array and the
    choice of the current texture as they were; only the read-back
    texture is written. *)
Lemma applyMeasure_frame (n : Z) (r : F) (s : Sim) :
  wf n s ->
  0 <= (applyMeasure r s).1 <= 2 ^ n - 1 /\
  (applyMeasure r s).2
    = set_rtOutput (plane (current s) (texWidth s * texWidth s) 1) s.
Proof.
  intros Hwf. pose proof (getState_length n s Hwf) as Hlen.
  destruct Hwf as (Hn & _).
  assert (0 < 2 ^ n) by (apply Z.pow_pos_nonneg; lia).
  unfold applyMeasure.
  destruct (getState s) as [state s1] eqn:Hgs. cbn [fst snd] in *.
  split.
  - pose proof (measure_loop_range (Z.to_nat (2 ^ n)) state 0
                  (fmul r (norm_loop state fzero)) ltac:(lia) ltac:(lia)) as Hr.
    change (2 * 0) with 0 in Hr. lia.
  - unfold getState in Hgs. congruence.
Qed.

End SimulatorTheorems.

Module EngineFacts.

Import Compiler Engine EngineSpec.

Section Monad.
Context {FL : Float32} {G : Gpu} {H : Host}.

(** ** What a computation leaves unchanged *)

Section Keeps.
Context {B : Type} (proj : QScript -> B).

Lemma keeps_ret {A : Type} (a : A) : keeps (same proj) (ret a).
Proof. intros q. reflexivity. Qed.

Lemma keeps_get : keeps (same proj) get.
Proof. intros q. reflexivity. Qed.

Lemma keeps_throw {A : Type} (msg : string) : keeps (same proj) (throw (A := A) msg).
Proof. intros q. reflexivity. Qed.

Lemma keeps_modify (g : QScript -> QScript) :
  (forall q, proj (g q) = proj q) -> keeps (same proj) (modify g).
Proof. intros Hg q. apply Hg. Qed.

Lemma keeps_bind {A C : Type} (m : M A) (k : A -> M C) :
  keeps (same proj) m -> (forall a, keeps (same proj) (k a)) ->
  keeps (same proj) (bind m k).
Proof.
  intros Hm Hk q. unfold bind. specialize (Hm q).
  destruct (m q) as [a q1|msg q1]; cbn in *.
  - unfold same in *. rewrite <- Hm. apply Hk.
  - exact Hm.
Qed.

(** A successful run of [m] from [q] to [q']. *)
Lemma keeps_done {A : Type} (m : M A) (q q' : QScript) (a : A) :
  keeps (same proj) m -> m q = Done a q' -> proj q' = proj q.
Proof. intros Hm Hq. specialize (Hm q). rewrite Hq in Hm. exact Hm. Qed.

End Keeps.

(** Splitting a successful [bind]. *)
Lemma bind_done {A C : Type} (m : M A) (k : A -> M C) (q q' : QScript) (c : C) :
  bind m k q = Done c q' -> exists a q1, m q = Done a q1 /\ k a q1 = Done c q'.
Proof.
  unfold bind. destruct (m q) as [a q1|msg q1]; [eauto|discriminate].
Qed.

End Monad.

Ltac frame_step :=
  first
    [ apply keeps_ret
    | apply keeps_get
    | apply keeps_throw
    | apply keeps_modify; intros; reflexivity
    | apply keeps_bind; [|intros]
    | match goal with
      | |- keeps _ (match ?x with _ => _ end) => destruct x
      | |- keeps _ (if ?x then _ else _) => destruct x
      end ].

Section Frames.
Context {FL : Float32} {G : Gpu} {H : Host}.

Lemma keeps_weaken {A B C : Type} (p1 : QScript -> B) (p2 : QScript -> C) (m : M A) :
  (forall q q', p1 q' = p1 q -> p2 q' = p2 q) ->
  keeps (same p1) m -> keeps (same p2) m.
Proof. intros Hp Hm q. apply Hp, Hm. Qed.

Lemma keeps_push_error (msg : string) : keeps (same eval_frame) (push_error msg).
Proof. unfold push_error. repeat frame_step. Qed.

Lemma keeps_saveValue_ (id : string) : keeps (same eval_frame) (saveValue_ id).
Proof. unfold saveValue_. repeat frame_step. Qed.

Lemma keeps_restore_loop (syms : list string) (vals : list Val) :
  keeps (same restore_frame) (restore_loop syms vals).
Proof.
  revert vals. induction syms as [|sym syms IH]; intros vals; cbn [restore_loop].
  - apply keeps_ret.
  - apply keeps_bind; [|intros; apply IH]. repeat frame_step.
Qed.

Lemma keeps_declare_local (fn : nat) (id : string) :
  keeps (same eval_frame) (declare_local fn id).
Proof. unfold declare_local. repeat frame_step. Qed.

Lemma keeps_translateId (fn : nat) (id : string) :
  keeps (same eval_frame) (translateId fn id).
Proof.
  unfold translateId.
  repeat first [ apply keeps_saveValue_ | apply keeps_declare_local | frame_step ].
Qed.

Lemma keeps_translate_tokens (fn : nat) (ex : list Token) :
  keeps (same eval_frame) (translate_tokens fn ex).
Proof.
  induction ex as [|t ex IH]; cbn [translate_tokens].
  - apply keeps_ret.
  - repeat first [ apply keeps_translateId | apply IH | frame_step ].
Qed.

Lemma keeps_executeExpression (ex : option (list Token)) (prefix : string) :
  keeps (same eval_frame) (executeExpression ex prefix).
Proof.
  unfold executeExpression.
  repeat first [ apply keeps_translate_tokens | apply keeps_declare_local
               | apply keeps_push_error | frame_step ].
Qed.

Lemma keeps_eval_args (a : list (list Token)) : keeps (same eval_frame) (eval_args a).
Proof.
  induction a as [|ex a IH]; cbn [eval_args].
  - apply keeps_ret.
  - repeat first [ apply keeps_executeExpression | apply IH | frame_step ].
Qed.

Lemma keeps_checkBound (v : Val) : keeps (same builtin_frame) (checkBound v).
Proof. unfold checkBound, push_error. repeat frame_step. Qed.

Lemma keeps_on_simulator (g : Simulator.Sim -> Simulator.Sim) :
  keeps (same builtin_frame) (on_simulator g).
Proof. unfold on_simulator. repeat frame_step. Qed.

Lemma keeps_checked1 (a : Val) (gate : M unit) :
  keeps (same builtin_frame) gate -> keeps (same builtin_frame) (checked1 a gate).
Proof.
  intros Hg. unfold checked1.
  repeat first [ apply keeps_checkBound | exact Hg | frame_step ].
Qed.

Lemma keeps_execute (b : Builtin) (argv : list Val) :
  keeps (same builtin_frame) (execute b argv).
Proof.
  destruct b; cbn [execute]; unfold checked3, checked2, init, callback_, push_error;
    repeat first [ apply keeps_checked1 | apply keeps_on_simulator | frame_step ].
Qed.

(** C10, first part: [stepBack] never modifies the call stack. *)
Lemma stepBack_keeps_callStack : keeps (same callStack) stepBack.
Proof.
  unfold stepBack, reverse_gate, restoreValues_, current_code, push_error.
  repeat first
    [ eapply (keeps_weaken restore_frame); [|apply keeps_restore_loop];
      intros ? ? Heq; inversion Heq; reflexivity
    | eapply (keeps_weaken eval_frame); [|apply keeps_eval_args];
      intros ? ? Heq; inversion Heq; reflexivity
    | eapply (keeps_weaken builtin_frame); [|apply keeps_execute];
      intros ? ? Heq; inversion Heq; reflexivity
    | frame_step ].
Qed.

End Frames.

Ltac frame_from :=
  first
    [ eapply (keeps_weaken restore_frame); [|apply keeps_restore_loop];
      intros ? ? Heq; inversion Heq; reflexivity
    | eapply (keeps_weaken eval_frame); [|apply keeps_eval_args];
      intros ? ? Heq; inversion Heq; reflexivity
    | eapply (keeps_weaken eval_frame); [|apply keeps_executeExpression];
      intros ? ? Heq; inversion Heq; reflexivity
    | eapply (keeps_weaken eval_frame); [|apply keeps_translateId];
      intros ? ? Heq; inversion Heq; reflexivity
    | eapply (keeps_weaken builtin_frame); [|apply keeps_execute];
      intros ? ? Heq; inversion Heq; reflexivity
    | frame_step ].

(** *** One forward step pushes one record *)

Section Records.
Context {FL : Float32} {G : Gpu} {H : Host}.

Lemma keeps_history_bind_args (callee : nat) (a : list (list Token)) (i : nat)
    (argv : string) : keeps (same history_) (bind_args callee a i argv).
Proof.
  revert i argv. induction a as [|ex a IH]; intros i argv; cbn [bind_args].
  - apply keeps_ret.
  - repeat first [ apply IH | frame_from ].
Qed.

Lemma keeps_history_run_op (op : Opcode) : keeps (same history_) (run_op op).
Proof.
  unfold run_op, run_code, exec_arg, goto, advance, current_code.
  repeat first [ apply keeps_history_bind_args | frame_from ].
Qed.

Lemma keeps_history_pop_frame : keeps (same history_) pop_frame_at_end.
Proof. unfold pop_frame_at_end, current_code. repeat frame_step. Qed.

(** At a position that holds an opcode, the end-of-function test fails
    and leaves the state alone. *)
Lemma pop_frame_inside (q : QScript) (f : Func) (op : Opcode) :
  funcs q !! currentFunc q = Some f ->
  Arr.get (code f) (currentStep q) = Some op ->
  pop_frame_at_end q = Done false q.
Proof.
  intros Hf Hop. unfold pop_frame_at_end, current_code, bind, get, ret.
  rewrite Hf.
  unfold Arr.get in Hop.
  destruct (currentStep q <? 0) eqn:Hneg; [discriminate|].
  apply Z.ltb_ge in Hneg. apply lookup_lt_Some in Hop.
  destruct (Z.of_nat (length (code f)) <=? currentStep q) eqn:Hend;
    [apply Z.leb_le in Hend; lia|reflexivity].
Qed.

(** A forward step that executes an opcode pushes exactly one record,
    which names the function and the index of that opcode. *)
Lemma runStep_record (q q1 : QScript) (f : Func) (op : Opcode) :
  funcs q !! currentFunc q = Some f ->
  Arr.get (code f) (currentStep q) = Some op ->
  runStep q = Done tt q1 ->
  exists rec, history_ q1 = rec :: history_ q /\
              func rec = currentFunc q /\ step rec = currentStep q.
Proof.
  intros Hf Hop Hrun. unfold runStep in Hrun.
  apply bind_done in Hrun as (at_end & q' & Hpop & Hrun).
  rewrite (pop_frame_inside q f op Hf Hop) in Hpop. injection Hpop as <- <-.
  apply bind_done in Hrun as (cd & q' & Hcd & Hrun).
  unfold current_code, bind, get in Hcd. rewrite Hf in Hcd.
  injection Hcd as <- <-.
  apply bind_done in Hrun as (q0 & q' & Hget & Hrun).
  injection Hget as <- <-. rewrite Hop in Hrun.
  apply bind_done in Hrun as ([] & qa & Hreset & Hrun).
  injection Hreset as <-.
  apply bind_done in Hrun as ([] & qb & Hop' & Hrun).
  apply bind_done in Hrun as ([] & qc & Hpush & Hrun).
  injection Hpush as <-.
  apply bind_done in Hrun as (e & qd & Hend & Hrun).
  injection Hrun as <-.
  apply (keeps_done history_ _ _ _ _ keeps_history_pop_frame) in Hend.
  apply (keeps_done history_ _ _ _ _ (keeps_history_run_op op)) in Hop'.
  eexists. split; [|split].
  - rewrite Hend. cbn. rewrite Hop'. reflexivity.
  - reflexivity.
  - reflexivity.
Qed.

(** [stepBack] pops the newest record and puts the engine back at the
    function and index it names. *)
Lemma stepBack_restores_position (q q2 : QScript) (rec : StepData)
    (older : list StepData) :
  history_ q = rec :: older -> stepBack q = Done tt q2 ->
  currentFunc q2 = func rec /\ currentStep q2 = step rec /\ history_ q2 = older.
Proof.
  intros Hhist Hback. unfold stepBack in Hback.
  apply bind_done in Hback as (q0 & q' & Hget & Hback).
  injection Hget as <- <-. rewrite Hhist in Hback.
  apply bind_done in Hback as ([] & qa & Hpop & Hback).
  injection Hpop as <-.
  apply bind_done in Hback as ([] & qb & Hrestore & Hback).
  apply bind_done in Hback as ([] & qc & Hpos & Hback).
  injection Hpos as <-.
  pose proof (keeps_done restore_frame _ _ _ _
                (keeps_restore_loop (symbols rec) (values rec)) Hrestore) as Hfr.
  set (p := fun q => (currentFunc q, currentStep q, history_ q)).
  assert (Hp : p q2 = (func rec, step rec, older)).
  { assert (Hk : keeps (same p) reverse_gate).
    { unfold reverse_gate, current_code, push_error. subst p. repeat frame_from. }
    apply (keeps_done p _ _ _ _ Hk) in Hback. rewrite Hback.
    subst p. cbn. inversion Hfr as [[Hef Hfuncs]]. inversion Hef. reflexivity. }
  subst p. cbn in Hp. inversion Hp. auto.
Qed.

End Records.

Section CallStack.
Context {FL : Float32} {G : Gpu} {H : Host}.

(** *** Calls and the call stack *)

Lemma keeps_bind_args (callee : nat) (a : list (list Token)) (i : nat)
    (argv : string) : keeps (same eval_frame) (bind_args callee a i argv).
Proof.
  revert i argv. induction a as [|ex a IH]; intros i argv; cbn [bind_args].
  - apply keeps_ret.
  - repeat first [ apply IH | apply keeps_translateId
                 | apply keeps_executeExpression | frame_step ].
Qed.

(** The early return of [runStep]: past the end of the function, with a
    frame on the call stack, the frame is popped and nothing else
    changes. *)
Lemma runStep_pops_frame (q : QScript) (f : Func) (frame : Frame) (rest : list Frame) :
  funcs q !! currentFunc q = Some f ->
  Z.of_nat (length (code f)) <= currentStep q ->
  callStack q = frame :: rest ->
  runStep q = Done tt (set_position (frame_func frame) (frame_step frame)
                         (set_callStack rest q)).
Proof.
  intros Hf Hend Hstack.
  unfold runStep, pop_frame_at_end, current_code, bind, get, ret, modify.
  rewrite Hf.
  destruct (Z.of_nat (length (code f)) <=? currentStep q) eqn:E;
    [|apply Z.leb_gt in E; lia].
  rewrite Hstack. reflexivity.
Qed.

(** A forward step on a call of a script function ends with the frame
    of that call on the stack, unless the callee has no code at all. *)
Lemma runStep_call_pushes (q q1 : QScript) (f : Func) (op : Opcode) (callee : nat) :
  funcs q !! currentFunc q = Some f ->
  Arr.get (code f) (currentStep q) = Some op ->
  command op = CallUser callee ->
  runStep q = Done tt q1 ->
  forall fc, funcs q1 !! callee = Some fc -> code fc <> [] ->
  exists argv,
    callStack q1 = mkFrame (currentFunc q) (currentStep q + 1) argv :: callStack q.
Proof.
  intros Hf Hop Hcmd Hrun fc Hfc Hcode. unfold runStep in Hrun.
  apply bind_done in Hrun as (at_end & q' & Hpop & Hrun).
  rewrite (pop_frame_inside q f op Hf Hop) in Hpop. injection Hpop as <- <-.
  apply bind_done in Hrun as (cd & q' & Hcd & Hrun).
  unfold current_code, bind, get in Hcd. rewrite Hf in Hcd.
  injection Hcd as <- <-.
  apply bind_done in Hrun as (q0 & q' & Hget & Hrun).
  injection Hget as <- <-. rewrite Hop in Hrun.
  apply bind_done in Hrun as ([] & qa & Hreset & Hrun).
  injection Hreset as <-.
  apply bind_done in Hrun as ([] & qb & Hop' & Hrun).
  apply bind_done in Hrun as ([] & qc & Hpush & Hrun).
  injection Hpush as <-.
  apply bind_done in Hrun as (e & qd & Hend & Hrun).
  injection Hrun as Hqd. subst qd.
  unfold run_op in Hop'. rewrite Hcmd in Hop'.
  apply bind_done in Hop' as (argv & qx & Hbind & Hop').
  injection Hop' as <-.
  pose proof (keeps_done eval_frame _ _ _ _ (keeps_bind_args callee (args op) 0 "") Hbind)
    as Hfr.
  inversion Hfr as [[Hcs Hsim Hhist Hcf Hstep Hvs Hrng Hcalls]].
  cbn in Hcs, Hcf, Hstep.
  exists argv.
  unfold pop_frame_at_end, current_code, bind, get, ret in Hend. cbn in Hend.
  destruct (funcs qx !! callee) as [fx|] eqn:Hfx; [|discriminate].
  cbn in Hend.
  destruct (Z.of_nat (length (code fx)) <=? 0) eqn:E.
  - exfalso. apply Z.leb_le in E.
    assert (Hq1 : funcs q1 = funcs qx).
    { cbn in Hend. injection Hend as _ <-. reflexivity. }
    rewrite Hq1, Hfx in Hfc. injection Hfc as <-.
    destruct (code fx); [congruence|cbn in E; lia].
  - injection Hend as _ <-. cbn. rewrite Hcs, Hcf, Hstep. reflexivity.
Qed.

(** C10: [stepBack] never modifies the call stack.  Undoing a call of a
    script function puts [currentFunc] and [currentStep] back but leaves
    the frame of that call on [callStack]; and the frame pop that
    [runStep] performs past the end of a function pushes no history
    record. *)
Theorem stepBack_leaves_callStack :
  (forall q, callStack (final (stepBack q)) = callStack q) /\
  (forall q q1 q2 f op callee,
     funcs q !! currentFunc q = Some f ->
     Arr.get (code f) (currentStep q) = Some op ->
     command op = CallUser callee ->
     runStep q = Done tt q1 -> stepBack q1 = Done tt q2 ->
     currentFunc q2 = currentFunc q /\ currentStep q2 = currentStep q /\
     callStack q2 = callStack q1 /\
     forall fc, funcs q1 !! callee = Some fc -> code fc <> [] ->
       exists argv,
         callStack q1 = mkFrame (currentFunc q) (currentStep q + 1) argv :: callStack q) /\
  (forall q f frame rest,
     funcs q !! currentFunc q = Some f ->
     Z.of_nat (length (code f)) <= currentStep q ->
     callStack q = frame :: rest ->
     exists q1, runStep q = Done tt q1 /\ callStack q1 = rest /\
                history_ q1 = history_ q).
Proof.
  split; [|split].
  - exact stepBack_keeps_callStack.
  - intros q q1 q2 f op callee Hf Hop Hcmd Hrun Hback.
    destruct (runStep_record q q1 f op Hf Hop Hrun) as (rec & Hhist & Hfunc & Hstep).
    destruct (stepBack_restores_position q1 q2 rec (history_ q) Hhist Hback)
      as (Hcf & Hcs & _).
    split; [congruence|]. split; [congruence|]. split.
    + pose proof (stepBack_keeps_callStack q1) as Hk. rewrite Hback in Hk. exact Hk.
    + apply (runStep_call_pushes q q1 f op callee); assumption.
  - intros q f frame rest Hf Hend Hstack.
    eexists. split; [apply (runStep_pops_frame q f frame rest); assumption|].
    split; reflexivity.
Qed.

End CallStack.

Section Builtins.
Context {FL : Float32} {G : Gpu} {H : Host}.

(** *** Measure *)

(** C3: the Measure builtin returns a basis state [k] of the register,
    [0 <= k <= 2^n - 1], for every state vector and every random draw;
    the amplitudes, both state textures and the staging array stay as
    they are (only the read-back texture is written), and in the engine
    only [measuredValue] is updated (and one more random draw counted). *)
Theorem Measure_only_sets_measuredValue (n : Z) (q : QScript) (s : Simulator.Sim)
    (argv : list Val) :
  simulator q = Some s -> Simulator.wf n s ->
  (forall r : F,
     0 <= (Simulator.applyMeasure r s).1 <= 2 ^ n - 1 /\
     (forall i, Simulator.amplitude (Simulator.applyMeasure r s).2 i
                = Simulator.amplitude s i) /\
     (Simulator.applyMeasure r s).2
       = Simulator.set_rtOutput
           (Simulator.plane (Simulator.current s)
              (Simulator.texWidth s * Simulator.texWidth s) 1) s) /\
  exists k s',
    Simulator.applyMeasure (random (rng q)) s = (k, s') /\
    execute Measure argv q
      = Done tt (set_measuredValue (VNum k)
                   (set_rng (S (rng q)) (set_simulator (Some s') q))).
Proof.
  intros Hsim Hwf. split.
  - intros r. destruct (applyMeasure_frame n r s Hwf) as [Hk Hs].
    split; [exact Hk|]. split; [|exact Hs].
    intros i. rewrite Hs. reflexivity.
  - destruct (Simulator.applyMeasure (random (rng q)) s) as [k s'] eqn:Hm.
    exists k, s'. split; [reflexivity|].
    cbn [execute]. unfold bind, get, modify. rewrite Hsim, Hm. reflexivity.
Qed.


(** *** Stepping back over a builtin without reverse *)





(** *** Range checks of the gates *)

Lemma checkBound_rejects (q : QScript) (n z : Z) :
  vectorSize q = VNum n -> z < 0 \/ n <= z ->
  checkBound (VNum z) q
    = Done false (set_errors (errors q ++ ["Qubit number out of range: " +:+ pretty z]) q).
Proof.
  intros Hvs Hz. unfold checkBound, bind, get, push_error, modify, ret.
  rewrite Hvs. cbn [Value.lt Value.ge ToNumber toString].
  destruct (z <? 0) eqn:E1; [reflexivity|].
  destruct (n <=? z) eqn:E2; [reflexivity|].
  apply Z.ltb_ge in E1. apply Z.leb_gt in E2. lia.
Qed.

Lemma checkBound_accepts (q : QScript) (n z : Z) :
  vectorSize q = VNum n -> 0 <= z < n -> checkBound (VNum z) q = Done true q.
Proof.
  intros Hvs Hz. unfold checkBound, bind, get, push_error, modify, ret.
  rewrite Hvs. cbn [Value.lt Value.ge ToNumber toString].
  destruct (z <? 0) eqn:E1; [apply Z.ltb_lt in E1; lia|].
  destruct (n <=? z) eqn:E2; [apply Z.leb_le in E2; lia|].
  reflexivity.
Qed.

Lemma checked1_rejects (q : QScript) (n z : Z) (a : Val) (gate : M unit) :
  vectorSize q = VNum n -> a = VNum z -> z < 0 \/ n <= z ->
  checked1 a gate q
    = Done tt (set_errors (errors q ++ ["Qubit number out of range: " +:+ pretty z]) q).
Proof.
  intros Hvs -> Hz. unfold checked1, bind.
  rewrite (checkBound_rejects q n z Hvs Hz). reflexivity.
Qed.

Lemma checked1_accepts (q : QScript) (n z : Z) (a : Val) (gate : M unit) :
  vectorSize q = VNum n -> a = VNum z -> 0 <= z < n ->
  checked1 a gate q = gate q.
Proof.
  intros Hvs -> Hz. unfold checked1, bind.
  rewrite (checkBound_accepts q n z Hvs Hz). reflexivity.
Qed.

(** C8 (as amended): a gate whose first out-of-range qubit-index
    argument (in the order of the checks) is the integer [z], a safe
    integer, pushes ['Qubit number out of range: z'], with [z] in decimal
    digits, and returns: the simulator and everything else but [errors]
    stay as they were.  The arguments after it are not checked. *)
Theorem gate_out_of_range (b : Builtin) (q : QScript) (argv : list Val)
    (n z : Z) (before after : list nat) (p : nat) :
  vectorSize q = VNum n ->
  checked_args b = before ++ p :: after ->
  (forall k, k ∈ before -> exists y, arg argv k = VNum y /\ 0 <= y < n) ->
  arg argv p = VNum z -> z < 0 \/ n <= z -> Z.abs z <= 2 ^ 53 ->
  execute b argv q
    = Done tt (set_errors (errors q ++ ["Qubit number out of range: " +:+ pretty z]) q).
Proof.
  intros Hvs Hargs Hbefore Hp Hz _.
  destruct b; cbn [checked_args] in Hargs;
    try (destruct before; discriminate);
    destruct before as [|k0 [|k1 [|k2 before]]];
    cbn in Hargs; simplify_eq;
    try match goal with
        | Hx : [] = ?l ++ _ :: _ |- _ => destruct l; discriminate
        end;
    cbn [execute]; unfold checked3, checked2;
    repeat match goal with
    | Hb : forall k, k ∈ _ -> _ |- checked1 (arg argv ?k) _ q = _ =>
        let y := fresh "y" in let Hy := fresh "Hy" in let Hr := fresh "Hr" in
        destruct (Hb k ltac:(repeat first [left | right])) as (y & Hy & Hr);
        rewrite (checked1_accepts q n y _ _ Hvs Hy Hr)
    end;
    try (apply (checked1_rejects q n z); assumption);
    try (destruct after; discriminate).
Qed.

End Builtins.

(** ** Scopes *)

Lemma up_le (fs : list Func) (i j : nat) :
  parents_below fs -> up fs i j -> (j <= i)%nat.
Proof.
  intros Hpb Hup. induction Hup as [i|i p j f Hf Hp Hup IH]; [lia|].
  specialize (Hpb i f p Hf Hp). lia.
Qed.

Lemma up_trans (fs : list Func) (i j k : nat) : up fs i j -> up fs j k -> up fs i k.
Proof.
  intros Hij Hjk. induction Hij as [i|i p j f Hf Hp Hup IH]; [exact Hjk|].
  eapply up_parent; eauto.
Qed.

Lemma up_linear (fs : list Func) (i a b : nat) :
  up fs i a -> up fs i b -> up fs a b \/ up fs b a.
Proof.
  intros Ha. revert b. induction Ha as [i|i p a f Hf Hp Hup IH]; intros b Hb.
  - left. exact Hb.
  - inversion Hb as [|i' p' b' f' Hf' Hp' Hup']; subst.
    + right. eapply up_parent; eauto.
    + rewrite Hf in Hf'. injection Hf' as <-. rewrite Hp in Hp'. injection Hp' as <-.
      apply IH. exact Hup'.
Qed.

(** What the scope search has passed when it looks at the function [a]:
    no function from [i] up to [a], [a] excluded, declares [id] or hides
    [hasOwnProperty]. *)
Lemma find_scope_spec (fs : list Func) (id : string) (r i : nat) :
  parents_below fs -> (i < r)%nat ->
  match find_scope r fs (Some i) id with
  | Hit a =>
      up fs i a /\
      (exists fa, fs !! a = Some fa /\ id ∈ locals fa /\ HAS_OWN ∉ locals fa) /\
      passed fs id i a
  | Broken =>
      exists a fa, up fs i a /\ fs !! a = Some fa /\ HAS_OWN ∈ locals fa /\
                   passed fs id i a
  | Miss =>
      forall j fj, up fs i j -> fs !! j = Some fj ->
                   (id ∉ locals fj) /\ (HAS_OWN ∉ locals fj)
  end.
Proof.
  intros Hpb. revert i. induction r as [|r IH]; intros i Hr; [lia|].
  cbn [find_scope].
  destruct (fs !! i) as [fn|] eqn:Hfn.
  2:{ intros j fj Hij Hfj.
      inversion Hij as [|i' p' j' f' Hf' Hp' Hup']; subst; congruence. }
  unfold hasOwnProperty.
  destruct (bool_decide (HAS_OWN ∈ locals fn)) eqn:Hhas.
  { apply bool_decide_eq_true in Hhas.
    exists i, fn. split; [apply up_self|]. split; [exact Hfn|]. split; [exact Hhas|].
    intros j fj Hij Hji Hne. apply (up_le _ _ _ Hpb) in Hij, Hji. lia. }
  apply bool_decide_eq_false in Hhas.
  destruct (bool_decide (id ∈ locals fn)) eqn:Hdec.
  { apply bool_decide_eq_true in Hdec.
    split; [apply up_self|]. split; [eauto|].
    intros j fj Hij Hji Hne. apply (up_le _ _ _ Hpb) in Hij, Hji. lia. }
  apply bool_decide_eq_false in Hdec.
  assert (Hstep : forall a, passed fs id i a \/ True -> True) by auto.
  destruct (parent fn) as [p|] eqn:Hp.
  - pose proof (Hpb _ _ _ Hfn Hp) as Hlt.
    specialize (IH p ltac:(lia)).
    assert (Hlift : forall a, up fs p a -> passed fs id p a -> passed fs id i a).
    { intros a Hupa Hmin j fj Hij Hja Hne Hfj.
      inversion Hij as [|i' p' j' f' Hf' Hp' Hup']; subst.
      - rewrite Hfn in Hfj. injection Hfj as <-. auto.
      - rewrite Hfn in Hf'. injection Hf' as <-. rewrite Hp in Hp'. injection Hp' as <-.
        eapply Hmin; eauto. }
    destruct (find_scope r fs (Some p) id) as [a| |].
    + destruct IH as (Hup & Hdecl & Hmin).
      split; [eapply up_parent; eauto|]. split; [exact Hdecl|]. auto.
    + intros j fj Hij Hfj.
      inversion Hij as [|i' p' j' f' Hf' Hp' Hup']; subst.
      * rewrite Hfn in Hfj. injection Hfj as <-. auto.
      * rewrite Hfn in Hf'. injection Hf' as <-. rewrite Hp in Hp'. injection Hp' as <-.
        eapply IH; eauto.
    + destruct IH as (a & fa & Hup & Hfa & Hin & Hmin).
      exists a, fa. split; [eapply up_parent; eauto|]. auto.
  - destruct r; cbn [find_scope];
      intros j fj Hij Hfj;
      (inversion Hij as [|i' p' j' f' Hf' Hp' Hup']; subst;
       [rewrite Hfn in Hfj; injection Hfj as <-; auto|congruence]).
Qed.

Lemma up_antisym (fs : list Func) (a b : nat) :
  parents_below fs -> up fs a b -> up fs b a -> a = b.
Proof. intros Hpb Hab Hba. apply (up_le _ _ _ Hpb) in Hab, Hba. lia. Qed.

(** The scope search stops at the innermost function that declares
    [id], when nothing on the way hides [hasOwnProperty]. *)
Lemma find_scope_innermost (fs : list Func) (id : string) (fn a : nat) (fa : Func) :
  parents_below fs -> up fs fn a -> fs !! a = Some fa ->
  id ∈ locals fa -> HAS_OWN ∉ locals fa -> passed fs id fn a ->
  find_scope (S fn) fs (Some fn) id = Hit a.
Proof.
  intros Hpb Hup Hfa Hin Hhas Hmin.
  pose proof (find_scope_spec fs id (S fn) fn Hpb ltac:(lia)) as Hspec.
  destruct (find_scope (S fn) fs (Some fn) id) as [b| |].
  - destruct Hspec as (Hupb & (fb & Hfb & Hinb & _) & Hminb).
    destruct (decide (b = a)) as [->|Hne]; [reflexivity|].
    exfalso. destruct (up_linear fs fn a b Hup Hupb) as [Hab|Hba].
    + destruct (Hminb a fa) as [Hno _]; auto.
    + destruct (Hmin b fb) as [Hno _]; auto.
  - exfalso. destruct (Hspec a fa Hup Hfa) as [Hno _]. auto.
  - exfalso. destruct Hspec as (b & fb & Hupb & Hfb & Hhasb & Hminb).
    destruct (decide (b = a)) as [->|Hne]; [congruence|].
    destruct (up_linear fs fn a b Hup Hupb) as [Hab|Hba].
    + destruct (Hminb a fa) as [Hno _]; auto.
    + destruct (Hmin b fb) as [_ Hno]; auto.
Qed.

(** It fails at the innermost function that hides [hasOwnProperty],
    when nothing before it declares [id]. *)
Lemma find_scope_broken (fs : list Func) (id : string) (fn a : nat) (fa : Func) :
  parents_below fs -> up fs fn a -> fs !! a = Some fa ->
  HAS_OWN ∈ locals fa -> passed fs id fn a ->
  find_scope (S fn) fs (Some fn) id = Broken.
Proof.
  intros Hpb Hup Hfa Hhas Hmin.
  pose proof (find_scope_spec fs id (S fn) fn Hpb ltac:(lia)) as Hspec.
  destruct (find_scope (S fn) fs (Some fn) id) as [b| |].
  - exfalso. destruct Hspec as (Hupb & (fb & Hfb & Hinb & Hnb) & Hminb).
    destruct (decide (b = a)) as [->|Hne]; [congruence|].
    destruct (up_linear fs fn a b Hup Hupb) as [Hab|Hba].
    + destruct (Hminb a fa) as [_ Hno]; auto.
    + destruct (Hmin b fb) as [Hno _]; auto.
  - exfalso. destruct (Hspec a fa Hup Hfa) as [_ Hno]. auto.
  - reflexivity.
Qed.

Lemma find_scope_miss (fs : list Func) (id : string) (fn : nat) :
  parents_below fs ->
  (forall j fj, up fs fn j -> fs !! j = Some fj ->
                (id ∉ locals fj) /\ (HAS_OWN ∉ locals fj)) ->
  find_scope (S fn) fs (Some fn) id = Miss.
Proof.
  intros Hpb Hnone.
  pose proof (find_scope_spec fs id (S fn) fn Hpb ltac:(lia)) as Hspec.
  destruct (find_scope (S fn) fs (Some fn) id) as [b| |].
  - exfalso. destruct Hspec as (Hupb & (fb & Hfb & Hinb & _) & _).
    destruct (Hnone b fb Hupb Hfb) as [Hno _]. auto.
  - reflexivity.
  - exfalso. destruct Hspec as (b & fb & Hupb & Hfb & Hhasb & _).
    destruct (Hnone b fb Hupb Hfb) as [_ Hno]. auto.
Qed.

Section Scoping.
Context {FL : Float32} {G : Gpu} {H : Host}.

Lemma translateId_local (q : QScript) (fn a : nat) (id : string) (fa : Func) :
  Text.occurs "." id = false -> String.eqb id MEASURED_VALUE = false ->
  is_global id = false ->
  find_scope (S fn) (funcs q) (Some fn) id = Hit a -> funcs q !! a = Some fa ->
  translateId fn id q
    = (saveValue_ (local_cell fa id) ;;; ret (local_cell fa id)) q.
Proof.
  intros Hdot Hmv Hglob Hfind Hfa. unfold translateId.
  rewrite Hdot, Hmv, Hglob.
  unfold bind at 1. unfold get at 1. rewrite Hfind.
  unfold bind at 1. unfold ret at 1. unfold bind at 1. unfold get at 1.
  rewrite Hfa. reflexivity.
Qed.

Lemma translateId_broken (q : QScript) (fn : nat) (id : string) :
  Text.occurs "." id = false -> String.eqb id MEASURED_VALUE = false ->
  is_global id = false ->
  find_scope (S fn) (funcs q) (Some fn) id = Broken ->
  translateId fn id q = Thrown "TypeError" q.
Proof.
  intros Hdot Hmv Hglob Hfind. unfold translateId.
  rewrite Hdot, Hmv, Hglob.
  unfold bind at 1. unfold get at 1. rewrite Hfind. reflexivity.
Qed.

Lemma declared_lookup (q : QScript) (fn : nat) (f : Func) (id : string) :
  funcs q !! fn = Some f ->
  funcs (declared fn id q) !! fn = Some (set_locals (with_key id (locals f)) f).
Proof.
  intros Hf. unfold declared. cbn. rewrite list_lookup_alter_eq, Hf. reflexivity.
Qed.

Lemma with_key_elem (id : string) (keys : gset string) :
  id <> PROTO -> id ∈ with_key id keys.
Proof.
  intros Hne. unfold with_key.
  destruct (String.eqb id PROTO) eqn:E; [apply String.eqb_eq in E; contradiction|].
  apply elem_of_union_l, elem_of_singleton. reflexivity.
Qed.

Lemma with_key_other (id k : string) (keys : gset string) :
  k <> id -> k ∈ with_key id keys <-> k ∈ keys.
Proof.
  intros Hne. unfold with_key. destruct (String.eqb id PROTO); [tauto|].
  rewrite elem_of_union, elem_of_singleton. tauto.
Qed.

Lemma assigned_id_first (ex : list Token) (id : string) :
  assigned_id ex = Some id ->
  exists t0 rest, ex = t0 :: rest /\ type t0 = ID /\ body t0 = id.
Proof.
  destruct ex as [|t0 [|t1 rest]]; try discriminate. cbn.
  destruct (decide (type t0 = ID)) as [Hty|]; [|discriminate].
  destruct (String.eqb (body t1) "="); [|discriminate].
  intros Heq. injection Heq as <-. eauto.
Qed.

Lemma declared_proto (q : QScript) (fn : nat) : declared fn PROTO q = q.
Proof.
  unfold declared.
  rewrite list_alter_id by (intros f0; destruct f0; reflexivity).
  destruct q; reflexivity.
Qed.

(** C7 (as amended): how [translateId] resolves an identifier [id] used
    in the function [fn].  An identifier with a dot is left as it is and
    [measured_value] becomes the text of the last measurement.
    Otherwise: an identifier that begins with [_] resolves to the global
    cell [window._id], whatever [fn] is; else the functions from [fn]
    upwards are asked in turn, and the search ends at the first one that
    declares [id], whose cell [id] resolves to, or that has a local named
    [hasOwnProperty], where it raises a TypeError; when it finds neither,
    [id] becomes a local of [fn] (unless it is [__proto__], which is never
    stored) and resolves to the cell of [fn].  In [executeExpression], an
    identifier that is the first token and is followed by [=] is declared
    in the current function first when that function does not declare it,
    so that it resolves to the current function's cell even when an
    ancestor declares it; the assignment [hasOwnProperty = ...] declares
    the local and raises the TypeError, and so does every later
    expression with an identifier looked up in that function. *)
Theorem translateId_scoping (q : QScript) (fn : nat) (f : Func) (id : string) :
  funcs q !! fn = Some f -> parents_below (funcs q) ->
  (Text.occurs "." id = true -> translateId fn id q = Done id q) /\
  (Text.occurs "." id = false -> id = MEASURED_VALUE ->
     translateId fn id q
       = (saveValue_ MEASURED_VALUE ;;;
          q <- get ;;
          match measuredValue q with
          | VUndef => throw "TypeError"
          | v => ret (toString v)
          end) q) /\
  (Text.occurs "." id = false -> id <> MEASURED_VALUE ->
     (is_global id = true ->
        translateId fn id q = (saveValue_ (global_cell id) ;;; ret (global_cell id)) q) /\
     (is_global id = false ->
        (forall a fa,
           up (funcs q) fn a -> funcs q !! a = Some fa ->
           passed (funcs q) id fn a ->
           (HAS_OWN ∈ locals fa -> translateId fn id q = Thrown "TypeError" q) /\
           (HAS_OWN ∉ locals fa -> id ∈ locals fa ->
              translateId fn id q
                = (saveValue_ (local_cell fa id) ;;; ret (local_cell fa id)) q)) /\
        ((forall j fj, up (funcs q) fn j -> funcs q !! j = Some fj ->
                       (id ∉ locals fj) /\ (HAS_OWN ∉ locals fj)) ->
           translateId fn id q
             = (saveValue_ (local_cell f id) ;;; ret (local_cell f id))
                 (declared fn id q) /\
           exists f', funcs (declared fn id q) !! fn = Some f' /\
                      (id ∈ locals f' <-> id <> PROTO)))) /\
  (forall ex prefix,
     currentFunc q = fn -> assigned_id ex = Some id ->
     (HAS_OWN ∈ locals f -> executeExpression (Some ex) prefix q = Thrown "TypeError" q) /\
     (HAS_OWN ∉ locals f -> id ∉ locals f ->
        (id <> HAS_OWN ->
           executeExpression (Some ex) prefix q
             = executeExpression (Some ex) prefix (declared fn id q)) /\
        (id = HAS_OWN ->
           executeExpression (Some ex) prefix q
             = Thrown "TypeError" (declared fn id q)) /\
        exists f', funcs (declared fn id q) !! fn = Some f' /\
                   (id ∈ locals f' <-> id <> PROTO))).
Proof.
  intros Hf Hpb.
  pose proof (declared_lookup q fn f id Hf) as Hf'.
  assert (Hdecl : id ∉ locals f ->
            exists f', funcs (declared fn id q) !! fn = Some f' /\
                       (id ∈ locals f' <-> id <> PROTO)).
  { intros Hnot. eexists. split; [exact Hf'|]. cbn. split.
    - intros Hin Heq. subst id. unfold with_key in Hin. cbn in Hin. contradiction.
    - apply with_key_elem. }
  split; [|split; [|split]].
  - intros Hdot. unfold translateId. rewrite Hdot. reflexivity.
  - intros Hdot ->. unfold translateId. rewrite Hdot. reflexivity.
  - intros Hdot Hmv.
    assert (Hmv' : String.eqb id MEASURED_VALUE = false) by (apply String.eqb_neq; exact Hmv).
    split.
    + intros Hglob. unfold translateId. rewrite Hdot, Hmv', Hglob. reflexivity.
    + intros Hglob. split.
      * intros a fa Hup Hfa Hmin. split.
        -- intros Hhas. apply translateId_broken; auto.
           apply (find_scope_broken _ _ _ a fa); auto.
        -- intros Hhas Hin. apply (translateId_local q fn a); auto.
           apply (find_scope_innermost _ _ _ _ fa); auto.
      * intros Hnone.
        destruct (Hnone fn f (up_self _ _) Hf) as [Hnot _].
        split; [|exact (Hdecl Hnot)].
        pose proof (find_scope_miss _ _ _ Hpb Hnone) as Hfind.
        unfold translateId. rewrite Hdot, Hmv', Hglob.
        unfold bind at 1. unfold get at 1. rewrite Hfind.
        unfold bind at 1. unfold bind at 1. unfold declare_local at 1.
        unfold bind at 1. unfold get at 1. rewrite Hf.
        unfold modify at 1. unfold ret at 1. unfold bind at 1. unfold get at 1.
        fold (declared fn id q). rewrite Hf'. reflexivity.
  - intros ex prefix Hcur Hassign. split.
    + intros Hhas. unfold executeExpression.
      unfold bind at 1. unfold get at 1. cbv beta zeta.
      unfold bind at 1. rewrite Hassign, Hcur, Hf.
      unfold hasOwnProperty. rewrite bool_decide_eq_true_2 by exact Hhas. reflexivity.
    + intros Hhas Hnot. split; [|split; [|exact (Hdecl Hnot)]].
      * intros Hne.
        destruct (decide (id = PROTO)) as [->|Hproto];
          [rewrite declared_proto; reflexivity|].
        unfold executeExpression.
        unfold bind at 1. unfold get at 1. cbv beta zeta.
        unfold bind at 1. rewrite Hassign, Hcur, Hf.
        unfold hasOwnProperty at 1.
        rewrite bool_decide_eq_false_2 by exact Hhas.
        rewrite bool_decide_eq_false_2 by exact Hnot.
        unfold declare_local at 1. unfold bind at 1. unfold get at 1. rewrite Hf.
        unfold modify at 1. fold (declared fn id q).
        symmetry.
        unfold bind at 1. unfold get at 1. cbv beta zeta.
        unfold bind at 1.
        assert (currentFunc (declared fn id q) = fn) as -> by exact Hcur.
        rewrite Hf'. cbn [locals set_locals].
        unfold hasOwnProperty, with_key.
        destruct (String.eqb id PROTO) eqn:Eproto;
          [apply String.eqb_eq in Eproto; contradiction|].
        rewrite bool_decide_eq_false_2
          by (intros Hin; apply elem_of_union in Hin as [Hin|Hin];
              [apply elem_of_singleton in Hin; congruence|contradiction]).
        rewrite bool_decide_eq_true_2
          by (apply elem_of_union_l, elem_of_singleton; reflexivity).
        unfold ret at 1. reflexivity.
      * intros ->.
        destruct (assigned_id_first _ _ Hassign) as (t0 & rest & -> & Hty & Hbody).
        unfold executeExpression.
        unfold bind at 1. unfold get at 1. cbv beta zeta.
        unfold bind at 1. rewrite Hassign, Hcur, Hf.
        unfold hasOwnProperty at 1.
        rewrite !bool_decide_eq_false_2 by exact Hhas.
        unfold declare_local at 1. unfold bind at 1. unfold get at 1. rewrite Hf.
        unfold modify at 1. fold (declared fn HAS_OWN q).
        unfold bind at 1. cbn [translate_tokens].
        destruct (decide (type t0 = ID)) as [_|Hno]; [|contradiction].
        unfold bind at 1. rewrite Hbody.
        rewrite (translateId_broken (declared fn HAS_OWN q) fn HAS_OWN);
          [reflexivity|reflexivity|reflexivity|reflexivity|].
        cbn [find_scope]. rewrite Hf'. cbn [locals set_locals]. unfold hasOwnProperty.
        rewrite bool_decide_eq_true_2; [reflexivity|].
        apply with_key_elem. discriminate.
Qed.

End Scoping.

(** ** Undoing a step *)

Section Undo.
Context {FL : Float32} {G : Gpu} {H : Host}.

Lemma keeps_bind_pre {A C : Type} (R : QScript -> QScript -> Prop) (m : M A) (k : A -> M C) :
  (forall q1 q2 q3, R q1 q2 -> R q2 q3 -> R q1 q3) ->
  keeps R m -> (forall a, keeps R (k a)) -> keeps R (bind m k).
Proof.
  intros Htrans Hm Hk q. unfold bind. specialize (Hm q).
  destruct (m q) as [a q1|msg q1]; cbn in *; [|exact Hm].
  eapply Htrans; [exact Hm|apply Hk].
Qed.

Lemma incl_saved_trans (q1 q2 q3 : QScript) :
  incl_saved q1 q2 -> incl_saved q2 q3 -> incl_saved q1 q3.
Proof. intros H1 H2 c Hc. apply H2, H1, Hc. Qed.

Ltac grow_step :=
  first
    [ intros q; cbn; intros c Hc; exact Hc
    | apply keeps_bind_pre; [exact incl_saved_trans| |intros]
    | match goal with
      | |- keeps _ (match ?x with _ => _ end) => destruct x
      | |- keeps _ (if ?x then _ else _) => destruct x
      end ].

Lemma grows_saveValue_ (id : string) : keeps incl_saved (saveValue_ id).
Proof.
  unfold saveValue_.
  apply keeps_bind_pre; [exact incl_saved_trans|intros q; cbn; intros c Hc; exact Hc|].
  intros q0. destruct (bool_decide (id ∈ savedVars_ q0)).
  { intros q; cbn; intros c Hc; exact Hc. }
  destruct (String.eqb id MEASURED_VALUE).
  { intros q c Hc. cbn. apply elem_of_app. left. exact Hc. }
  apply keeps_bind_pre; [exact incl_saved_trans| |intros].
  { intros q c Hc. cbn. apply elem_of_app. left. exact Hc. }
  apply keeps_bind_pre; [exact incl_saved_trans|intros q; cbn; intros c Hc; exact Hc|].
  intros q1. destruct (eval_ id (vars q1)) as [[v|msg] cells].
  - intros q c Hc. exact Hc.
  - apply keeps_bind_pre; [exact incl_saved_trans| |intros];
      intros q c Hc; exact Hc.
Qed.

Lemma grows_declare_local (fn : nat) (id : string) : keeps incl_saved (declare_local fn id).
Proof. unfold declare_local. repeat grow_step. Qed.

Lemma grows_translateId (fn : nat) (id : string) : keeps incl_saved (translateId fn id).
Proof.
  unfold translateId.
  repeat first [ apply grows_saveValue_ | apply grows_declare_local | grow_step ].
Qed.

Lemma grows_translate_tokens (fn : nat) (ex : list Token) :
  keeps incl_saved (translate_tokens fn ex).
Proof.
  induction ex as [|t ex IH]; cbn [translate_tokens].
  - grow_step.
  - repeat first [ apply IH | apply grows_translateId | grow_step ].
Qed.

(** *** The code of the functions is not touched by evaluation *)

Lemma code_table_declare (fn : nat) (id : string) :
  keeps (same code_table) (declare_local fn id).
Proof.
  intros q. unfold declare_local, bind, get, same, code_table.
  destruct (funcs q !! fn) as [f|] eqn:Hf; [|reflexivity]. cbn.
  apply list_eq. intros i. rewrite !list_lookup_fmap.
  destruct (decide (i = fn)) as [->|Hne].
  - rewrite list_lookup_alter_eq, Hf. reflexivity.
  - rewrite list_lookup_alter_ne by congruence. reflexivity.
Qed.

Lemma code_table_saveValue_ (id : string) : keeps (same code_table) (saveValue_ id).
Proof. unfold saveValue_. repeat frame_step. Qed.

Lemma code_table_translateId (fn : nat) (id : string) :
  keeps (same code_table) (translateId fn id).
Proof.
  unfold translateId.
  repeat first [ apply code_table_saveValue_ | apply code_table_declare | frame_step ].
Qed.

Lemma code_table_translate_tokens (fn : nat) (ex : list Token) :
  keeps (same code_table) (translate_tokens fn ex).
Proof.
  induction ex as [|t ex IH]; cbn [translate_tokens].
  - apply keeps_ret.
  - repeat first [ apply IH | apply code_table_translateId | frame_step ].
Qed.

Lemma code_table_executeExpression (ex : option (list Token)) (prefix : string) :
  keeps (same code_table) (executeExpression ex prefix).
Proof.
  unfold executeExpression, push_error.
  repeat first [ apply code_table_translate_tokens | apply code_table_declare | frame_step ].
Qed.

(** *** What a step records *)

Section Recording.
Variable cells0 : gmap string Val.
Variable mv0 : Val.

Lemma tracks_ret {A : Type} (a : A) : tracks cells0 mv0 (ret a).
Proof. intros q a' q' Hrun _ Hinv. injection Hrun as _ <-. exact Hinv. Qed.

Lemma tracks_get : tracks cells0 mv0 get.
Proof. intros q a' q' Hrun _ Hinv. injection Hrun as _ <-. exact Hinv. Qed.

Lemma tracks_throw {A : Type} (msg : string) : tracks cells0 mv0 (throw (A := A) msg).
Proof. intros q a' q' Hrun. discriminate. Qed.

Lemma tracks_bind {A C : Type} (m : M A) (k : A -> M C) :
  tracks cells0 mv0 m -> (forall a, tracks cells0 mv0 (k a)) -> (forall a, keeps incl_saved (k a)) ->
  tracks cells0 mv0 (bind m k).
Proof.
  intros Hm Hk Hgrow q c q' Hrun Hread Hinv.
  apply bind_done in Hrun as (a & q1 & Hrun1 & Hrun2).
  apply (Hk a q1 c q' Hrun2 Hread).
  apply (Hm q a q1 Hrun1); [|exact Hinv].
  intros x Hx. apply Hread.
  pose proof (Hgrow a q1) as Hg. rewrite Hrun2 in Hg. apply Hg, Hx.
Qed.

Lemma tracks_saveValue_ (id : string) : tracks cells0 mv0 (saveValue_ id).
Proof.
  intros q [] q' Hrun Hread (Hvars & Hmv & Hrec).
  unfold saveValue_, bind, get in Hrun.
  destruct (bool_decide (id ∈ savedVars_ q)).
  { injection Hrun as <-. repeat split; assumption. }
  destruct (String.eqb id MEASURED_VALUE) eqn:Hid.
  { injection Hrun as <-. repeat split; cbn; try assumption.
    apply Forall2_app; [exact Hrec|]. constructor; [|constructor].
    rewrite Hid. exact Hmv. }
  cbn in Hrun.
  destruct (eval_ id (vars q)) as [[v|msg] cells] eqn:Hev; cbn in Hrun; [|discriminate].
  injection Hrun as <-.
  assert (Hr : reads id).
  { apply Hread; [cbn; apply elem_of_app; right; left|].
    intros ->. rewrite String.eqb_refl in Hid. discriminate. }
  rewrite (Hr (vars q)) in Hev. injection Hev as <- <-.
  repeat split; cbn; try assumption.
  apply Forall2_app; [exact Hrec|]. constructor; [|constructor].
  rewrite Hid, Hvars. reflexivity.
Qed.

Lemma tracks_declare_local (fn : nat) (id : string) : tracks cells0 mv0 (declare_local fn id).
Proof.
  intros q [] q' Hrun _ Hinv. unfold declare_local, bind, get in Hrun.
  destruct (funcs q !! fn); [|discriminate]. injection Hrun as <-. exact Hinv.
Qed.

Ltac grow_auto :=
  repeat first
    [ apply grows_saveValue_ | apply grows_declare_local | apply grows_translateId
    | apply grows_translate_tokens | grow_step ].

Ltac track_step :=
  first
    [ apply tracks_ret
    | apply tracks_get
    | apply tracks_throw
    | apply tracks_saveValue_
    | apply tracks_declare_local
    | apply tracks_bind; [|intros|intros; grow_auto]
    | match goal with
      | |- tracks cells0 mv0 (match ?x with _ => _ end) => destruct x
      | |- tracks cells0 mv0 (if ?x then _ else _) => destruct x
      end ].

Lemma tracks_translateId (fn : nat) (id : string) : tracks cells0 mv0 (translateId fn id).
Proof. unfold translateId. repeat track_step. Qed.

Lemma tracks_translate_tokens (fn : nat) (ex : list Token) :
  tracks cells0 mv0 (translate_tokens fn ex).
Proof.
  induction ex as [|t ex IH]; cbn [translate_tokens].
  - apply tracks_ret.
  - repeat first [ apply IH | apply tracks_translateId | track_step ].
Qed.

(** An expression is evaluated once, after all its identifiers have been
    saved: the record holds the values from before the evaluation. *)
Lemma executeExpression_recorded (ex : list Token) (prefix : string)
    (q q' : QScript) (v : Val) :
  executeExpression (Some ex) prefix q = Done v q' ->
  readable_saved q' -> translating cells0 mv0 q ->
  measuredValue q' = mv0 /\ recorded cells0 mv0 (savedVars_ q') (savedValues_ q').
Proof.
  intros Hrun Hread Hinv. unfold executeExpression in Hrun.
  apply bind_done in Hrun as (q0 & q0' & Hget & Hrun). injection Hget as <- <-.
  apply bind_done in Hrun as ([] & qa & Hdecl & Hrun).
  apply bind_done in Hrun as (expr & qb & Htr & Hrun).
  apply bind_done in Hrun as (qb0 & qb' & Hget & Hrun). injection Hget as <- <-.
  assert (Hsaved : savedVars_ q' = savedVars_ qb /\ savedValues_ q' = savedValues_ qb
                   /\ measuredValue q' = measuredValue qb).
  { destruct (eval_ (prefix +:+ expr) (vars qb)) as [[w|msg] cells];
      unfold bind, modify, ret, push_error in Hrun; cbn in Hrun;
      injection Hrun as _ <-; auto. }
  destruct Hsaved as (Hs1 & Hs2 & Hs3).
  assert (Hreadb : readable_saved qb).
  { intros c Hc. apply Hread. rewrite Hs1. exact Hc. }
  assert (Hreada : readable_saved qa).
  { intros c Hc. apply Hreadb.
    pose proof (grows_translate_tokens (currentFunc q) ex qa) as Hg.
    rewrite Htr in Hg. apply Hg, Hc. }
  assert (Hinva : translating cells0 mv0 qa).
  { match type of Hdecl with
    | ?m q = _ => assert (Htrk : tracks cells0 mv0 m) by (repeat track_step)
    end.
    exact (Htrk q tt qa Hdecl Hreada Hinv). }
  pose proof (tracks_translate_tokens _ _ _ _ _ Htr Hreadb Hinva) as (_ & Hmv & Hrec).
  rewrite Hs1, Hs2, Hs3. split; assumption.
Qed.

(** [restoreValues_] on a record of the values of [cells0]: every cell of
    the record has its value of [cells0] again. *)
Lemma restore_loop_restores (syms : list string) (vals : list Val) :
  recorded cells0 mv0 syms vals ->
  (forall c, c ∈ syms -> c <> MEASURED_VALUE -> assigns c (cell cells0 c)) ->
  forall q, exists q',
    restore_loop syms vals q = Done tt q' /\
    restore_frame q' = restore_frame q /\
    (measuredValue q = mv0 -> measuredValue q' = mv0) /\
    (forall c, c <> MEASURED_VALUE ->
               c ∈ syms \/ cell (vars q) c = cell cells0 c ->
               cell (vars q') c = cell cells0 c).
Proof.
  intros Hrec. unfold recorded in Hrec.
  induction Hrec as [|sym v syms vals Hv Hrec IH]; intros Hassign q.
  - exists q. cbn. split; [reflexivity|]. split; [reflexivity|]. split; [auto|].
    intros c _ [Hc|Hc]; [apply elem_of_nil in Hc; contradiction|exact Hc].
  - cbn [restore_loop head tail default].
    destruct (String.eqb sym MEASURED_VALUE) eqn:Hsym.
    + destruct (IH ltac:(intros c Hc; apply Hassign; right; exact Hc)
                   (set_measuredValue v q)) as (q' & Hrun & Hfr & Hmv & Hcells).
      exists q'. unfold bind, modify. cbn. rewrite Hrun.
      split; [reflexivity|]. split; [rewrite Hfr; reflexivity|].
      split; [intros _; apply Hmv; cbn; exact Hv|].
      intros c Hne [Hc|Hc]; apply Hcells; auto. cbn.
      apply elem_of_cons in Hc as [->|Hc]; [|auto].
      apply String.eqb_eq in Hsym. contradiction.
    + assert (Hne : sym <> MEASURED_VALUE).
      { intros ->. rewrite String.eqb_refl in Hsym. discriminate. }
      pose proof (Hassign sym ltac:(left) Hne) as Has. rewrite <- Hv in Has.
      destruct (IH ltac:(intros c Hc; apply Hassign; right; exact Hc)
                   (set_vars (<[sym := v]> (vars q)) q)) as (q' & Hrun & Hfr & Hmv & Hcells).
      exists q'. unfold bind, get, modify. change (id v) with v. rewrite (Has (vars q)). cbn.
      unfold bind, get, modify in Hrun. rewrite Hrun.
      split; [reflexivity|]. split; [rewrite Hfr; reflexivity|].
      split; [intros Hq; apply Hmv; cbn; exact Hq|].
      intros c Hnec Hc. apply Hcells; [exact Hnec|]. cbn.
      destruct (decide (c = sym)) as [->|Hcs].
      * right. unfold cell. rewrite lookup_insert_eq. cbn. exact Hv.
      * destruct Hc as [Hc|Hc].
        -- apply elem_of_cons in Hc as [->|Hc]; [contradiction|left; exact Hc].
        -- right. unfold cell. rewrite lookup_insert_ne by congruence. exact Hc.
Qed.

End Recording.

Lemma keeps_data_pop_frame : keeps (same data_frame) pop_frame_at_end.
Proof. unfold pop_frame_at_end, current_code. repeat frame_step. Qed.

(** Where undoing works: a forward step on an EXPRESSION opcode, then
    [stepBack].  The engine is back at the opcode, [measured_value] and
    every cell the step recorded (the translated identifiers of the
    expression) have their values from before the step, and the code is
    the same.  The host is assumed to read a recorded cell without side
    effect and to store the old value when its printed form is assigned:
    this is what fails for a string, see [Examples]. *)
Theorem stepBack_undoes_expression (q0 q1 : QScript) (f : Func) (op : Opcode)
    (rec : StepData) (older : list StepData) :
  funcs q0 !! currentFunc q0 = Some f ->
  Arr.get (code f) (currentStep q0) = Some op ->
  command op = Code CommandCode.EXPRESSION ->
  runStep q0 = Done tt q1 ->
  history_ q1 = rec :: older ->
  (forall c, c ∈ symbols rec -> c <> MEASURED_VALUE -> reads c) ->
  (forall c, c ∈ symbols rec -> c <> MEASURED_VALUE -> assigns c (cell (vars q0) c)) ->
  exists q2,
    stepBack q1 = Done tt q2 /\
    currentFunc q2 = currentFunc q0 /\ currentStep q2 = currentStep q0 /\
    history_ q2 = history_ q0 /\
    measuredValue q2 = measuredValue q0 /\
    (forall c, c ∈ symbols rec -> c <> MEASURED_VALUE ->
               cell (vars q2) c = cell (vars q0) c) /\
    code_table q2 = code_table q0.
Proof.
  intros Hf Hop Hcmd Hrun Hhist Hreads Hassigns.
  unfold runStep in Hrun.
  apply bind_done in Hrun as (at_end & q' & Hpop & Hrun).
  rewrite (pop_frame_inside q0 f op Hf Hop) in Hpop. injection Hpop as <- <-.
  apply bind_done in Hrun as (cd & q' & Hcd & Hrun).
  unfold current_code, bind, get in Hcd. rewrite Hf in Hcd.
  injection Hcd as <- <-.
  apply bind_done in Hrun as (q0' & q' & Hget & Hrun).
  injection Hget as <- <-. rewrite Hop in Hrun.
  apply bind_done in Hrun as ([] & qa & Hreset & Hrun).
  injection Hreset as <-.
  apply bind_done in Hrun as ([] & qb & Hop' & Hrun).
  apply bind_done in Hrun as ([] & qc & Hpush & Hrun).
  injection Hpush as <-.
  apply bind_done in Hrun as (e & qd & Hend & Hrun).
  injection Hrun as Hqd. subst qd.
  unfold run_op in Hop'. rewrite Hcmd in Hop'. cbn [run_code] in Hop'.
  apply bind_done in Hop' as (v & qx & Hex & Hadv).
  injection Hadv as <-. unfold exec_arg in Hex.
  destruct (args op !! 0%nat) as [ex|]; [|discriminate].
  pose proof (keeps_done data_frame _ _ _ _ keeps_data_pop_frame Hend) as Hdata.
  unfold data_frame in Hdata. cbn in Hdata.
  injection Hdata as Hfuncs Hvars Hmv Hh Hsv Hsvals.
  rewrite Hhist in Hh. injection Hh as Hrec Holder.
  pose proof (keeps_done eval_frame _ _ _ _ (keeps_executeExpression _ _) Hex) as Hef.
  unfold eval_frame in Hef. cbn in Hef. injection Hef as _ _ Hhx _ _ _ _ _.
  pose proof (keeps_done code_table _ _ _ _ (code_table_executeExpression _ _) Hex) as Hct.
  assert (Hsyms : symbols rec = savedVars_ qx) by (rewrite Hrec; reflexivity).
  assert (Hvals : values rec = savedValues_ qx) by (rewrite Hrec; reflexivity).
  destruct (executeExpression_recorded (vars q0) (measuredValue q0) ex EmptyString
              _ qx v Hex) as [Hmvx Hrecx].
  { intros c Hc. apply Hreads. rewrite Hsyms. exact Hc. }
  { split; [reflexivity|]. split; [reflexivity|]. constructor. }
  rewrite <- Hsyms, <- Hvals in Hrecx.
  destruct (restore_loop_restores (vars q0) (measuredValue q0) _ _ Hrecx Hassigns
              (set_errors [] (set_history older q1)))
    as (qr & Hrestore & Hfr & Hmvr & Hcells).
  unfold restore_frame, eval_frame in Hfr. cbn in Hfr.
  injection Hfr as _ _ Hhr _ _ _ _ _ Hfuncsr _ _ _.
  assert (Htable : code_table qr = code_table q0).
  { unfold code_table. rewrite Hfuncsr, Hfuncs. exact Hct. }
  assert (Hf' : exists f', funcs qr !! currentFunc q0 = Some f' /\ code f' = code f).
  { unfold code_table in Htable.
    assert (Hl : map code (funcs qr) !! currentFunc q0 = Some (code f)).
    { rewrite Htable. change (map code (funcs q0)) with (code <$> funcs q0).
      rewrite list_lookup_fmap, Hf. reflexivity. }
    change (map code (funcs qr)) with (code <$> funcs qr) in Hl.
    rewrite list_lookup_fmap in Hl.
    destruct (funcs qr !! currentFunc q0) as [f'|]; [|discriminate].
    exists f'. split; [reflexivity|]. cbn in Hl. congruence. }
  destruct Hf' as (f' & Hf' & Hcode).
  set (q2 := set_position (func rec) (step rec) qr).
  assert (Hpos : func rec = currentFunc q0 /\ step rec = currentStep q0).
  { rewrite Hrec. split; reflexivity. }
  destruct Hpos as [Hfn Hst].
  assert (Hrev : reverse_gate q2 = Done tt q2).
  { unfold reverse_gate, current_code, bind, get. subst q2. cbn.
    rewrite Hfn, Hf'. cbn. rewrite Hst, Hcode, Hop, Hcmd. reflexivity. }
  exists q2. split.
  { unfold stepBack, bind, get. rewrite Hhist. cbn.
    unfold restoreValues_. rewrite Hrestore. cbn. exact Hrev. }
  split; [exact Hfn|]. split; [exact Hst|].
  split.
  { subst q2. cbn. rewrite Hhr. cbn in Hhx |- *. congruence. }
  split.
  { subst q2. cbn. apply Hmvr. cbn. rewrite Hmv. cbn. exact Hmvx. }
  split; [|exact Htable].
  intros c Hc Hne. subst q2. cbn. apply Hcells; [exact Hne|]. left. exact Hc.
Qed.

End Undo.

End EngineFacts.

(** ** The theorems on concrete inputs *)

Module Examples.

Import Compiler Engine EngineSpec EngineFacts Inputs.
#[local] Existing Instances Demo.floats Demo.gpu Demo.host.

(** Equations between a closed term and a value, by evaluation. *)
Ltac by_vm :=
  match goal with
  | |- ?a = ?b => exact (@eq_refl _ b <: a = b)
  end.

Ltac all_by_vm := repeat (split; [by_vm|]); by_vm.

Lemma done_final (r : Result unit) : is_done r = true -> r = Done tt (final r).
Proof. destruct r as [[] q|msg q]; [reflexivity|discriminate]. Qed.

Lemma some_default {A : Type} (d : A) (o : option A) :
  has_value o = true -> o = Some (default d o).
Proof. destruct o; [reflexivity|discriminate]. Qed.

Lemma cons_head_tail {A : Type} (d : A) (l : list A) :
  nonempty l = true -> l = default d (head l) :: tail l.
Proof. destruct l; [discriminate|reflexivity]. Qed.

Ltac run_ok := apply done_final; by_vm.
Ltac found := apply some_default; by_vm.

Lemma thrown_final {A : Type} (r : Result A) (msg : string) :
  thrown_message r = Some msg -> r = Thrown msg (final r).
Proof. destruct r as [a q|m q]; [discriminate|]. intros Heq. injection Heq as ->. reflexivity. Qed.

(** C1, the failing input: [x] holds the string ['a'] and the step
    [x = "b"] records it.  [stepBack] then evaluates the text
    [window.__main___x=a], in which the old value is a name and not a
    string: the evaluator raises a ReferenceError, which nothing catches.
    [x] keeps the value ['b'], the position is still the one after the
    step, and the record is gone from the history. *)
Theorem stepBack_loses_string :
  symbols (newest string_q2) = [x_of_main] /\
  values (newest string_q2) = [VStr "a"] /\
  cell (vars string_q2) x_of_main = VStr "b" /\
  currentStep string_q2 = 2 /\
  length (history_ string_q2) = 2%nat /\
  x_of_main +:+ "=" +:+ toString (VStr "a") = "window.__main___x=a" /\
  string_back = Thrown "a is not defined" (final string_back) /\
  cell (vars (final string_back)) x_of_main = VStr "b" /\
  currentStep (final string_back) = 2 /\
  length (history_ (final string_back)) = 1%nat.
Proof.
  split; [by_vm|]. split; [by_vm|]. split; [by_vm|]. split; [by_vm|].
  split; [by_vm|]. split; [reflexivity|]. split; [apply thrown_final; by_vm|].
  all_by_vm.
Qed.

Lemma measure_sim_wf : Simulator.wf 6 measure_sim.
Proof. unfold Simulator.wf. split; [lia|]. all_by_vm. Qed.

(** C2, witness: [applyExpModN(7, 15, 2)] on the superposition of the
    basis states 0 and 1. *)
Lemma applyExpModN_places_witness :
  exists s',
    Simulator.applyExpModN (VNum 7) (VNum 15) (VNum 2) measure_sim = Some s' /\
    (forall i, 0 <= i < 2 ^ 2 -> (7 ^ i mod 15) * 2 ^ 2 + i < 2 ^ 6 ->
       exists re im,
         Simulator.amplitude measure_sim i = Some (re, im) /\
         Simulator.amplitude s' ((7 ^ i mod 15) * 2 ^ 2 + i)
           = Some (Simulator.readback re, Simulator.readback im)) /\
    (forall t, 0 <= t < 2 ^ 6 ->
       (forall i, 0 <= i < 2 ^ 2 -> t <> (7 ^ i mod 15) * 2 ^ 2 + i) ->
       Simulator.amplitude s' t = Some (fzero, fzero)).
Proof.
  apply (applyExpModN_places 6 7 15 2 measure_sim).
  - exact measure_sim_wf.
  - lia.
  - lia.
  - lia.
  - lia.
  - lia.
Defined.

Lemma intToFloat_grid (v : Z) : Simulator.intToFloat v <> Demo.inv_sqrt2.
Proof.
  unfold Simulator.intToFloat.
  assert (Hgrid : forall m : Z,
            QArith_base.Qeq (fdiv (fof_Z m) (fof_Z 1048576))
                            (QArith_base.Qmake m 1048576)).
  { intros m. cbn [fdiv fof_Z Demo.floats]. rewrite Qreduction.Qred_correct.
    unfold QArith_base.Qeq, QArith_base.Qdiv, QArith_base.Qmult, QArith_base.Qinv,
      Demo.frac. cbn. lia. }
  destruct (JS.and32 v (JS.shl32 1 24) =? 0); intros Heq.
  - pose proof (Hgrid v) as Hq. rewrite Heq in Hq.
    unfold QArith_base.Qeq, Demo.inv_sqrt2, Demo.frac in Hq. cbn in Hq. lia.
  - pose proof (Hgrid (JS.and32 v 16777215)) as Hq.
    assert (Hopp : fdiv (fof_Z (JS.and32 v 16777215)) (fof_Z 1048576)
                   = QArith_base.Qopp Demo.inv_sqrt2).
    { rewrite <- Heq. cbn [fneg Demo.floats].
      destruct (fdiv _ _) as [a d]. unfold QArith_base.Qopp. cbn.
      rewrite Z.opp_involutive. reflexivity. }
    rewrite Hopp in Hq.
    unfold QArith_base.Qeq, Demo.inv_sqrt2, Demo.frac in Hq. cbn in Hq. lia.
Qed.

(** C2, counterexample: the amplitude of the basis state 0 is the float
    [11863283 / 2^24]; after [applyExpModN(7, 15, 2)] the amplitude at
    index [(7^0 mod 15) * 2^2 + 0 = 4] is [741455 / 2^20], what
    [getState] read back, not the old amplitude.  No word that the float
    shader could deliver reads back as the old amplitude: [intToFloat]
    returns multiples of 2^-20. *)
Lemma applyExpModN_reads_back :
  Simulator.amplitude measure_sim 0 = Some (Demo.inv_sqrt2, fzero) /\
  Simulator.applyExpModN (VNum 7) (VNum 15) (VNum 2) measure_sim = Some placed_sim /\
  (7 ^ 0 mod 15) * 2 ^ 2 + 0 = 4 /\
  Simulator.amplitude placed_sim 4 = Some (Demo.frac 741455 1048576, fzero) /\
  (forall v : Z, Simulator.intToFloat v <> Demo.inv_sqrt2).
Proof.
  split; [by_vm|]. split; [found|]. split; [reflexivity|]. split; [by_vm|].
  exact intToFloat_grid.
Qed.

(** Why the modulus is at least 2 above: with [N = 1] the amplitude of
    index 0 goes to index [(1 << 1) + 0 = 2], not to
    [((2^0 mod 1) << 1) + 0 = 0], because [QMath.expModN(2, 0, 1)] is 1. *)
Lemma applyExpModN_modulus_one :
  Simulator.applyExpModN (VNum 2) (VNum 1) (VNum 1) (Simulator.create (VNum 6))
    = Some modulus_one /\
  2 ^ 0 mod 1 = 0 /\
  Simulator.amplitude (Simulator.create (VNum 6)) 0 = Some (fone, fzero) /\
  Simulator.amplitude modulus_one 0 = Some (fzero, fzero) /\
  Simulator.amplitude modulus_one 2 = Some (fone, fzero).
Proof. split; [found|]. all_by_vm. Qed.

(** C3, witness: Measure on the superposition of 0 and 1. *)
Lemma Measure_only_sets_measuredValue_witness :
  (forall r : F,
     0 <= (Simulator.applyMeasure r measure_sim).1 <= 2 ^ 6 - 1 /\
     (forall i, Simulator.amplitude (Simulator.applyMeasure r measure_sim).2 i
                = Simulator.amplitude measure_sim i) /\
     (Simulator.applyMeasure r measure_sim).2
       = Simulator.set_rtOutput
           (Simulator.plane (Simulator.current measure_sim)
              (Simulator.texWidth measure_sim * Simulator.texWidth measure_sim) 1)
           measure_sim) /\
  exists k s',
    Simulator.applyMeasure (random (rng measure_q2)) measure_sim = (k, s') /\
    execute Measure [] measure_q2
      = Done tt (set_measuredValue (VNum k)
                   (set_rng (S (rng measure_q2)) (set_simulator (Some s') measure_q2))).
Proof.
  apply (Measure_only_sets_measuredValue 6 measure_q2 measure_sim []).
  - found.
  - unfold Simulator.wf. split; [lia|]. all_by_vm.
Defined.



(** C5, the failing input: the one-line [if 0; x = 2] compiles, without
    an error, to an IF with two arguments and the target -1.  Its
    condition is false, and [runStep] goes to [target + 1]: the engine is
    back at step 0 and never reaches the line after the [if]. *)
Theorem one_line_if_restarts :
  (exists c, Compiler.compile one_line_if = Ok c /\ Compiler.errors (c_state c) = []) /\
  currentStep if_q1 = 1 /\
  command (op_at if_q1) = Code CommandCode.IF /\
  length (args (op_at if_q1)) = 2%nat /\
  target (op_at if_q1) = -1 /\
  runStep if_q1 = Done tt if_q2 /\
  errors if_q2 = [] /\
  currentStep if_q2 = 0 /\
  currentStep (steps 2 if_q2) = 0 /\
  cell (vars (steps 2 if_q2)) x_of_main = VNum 1.
Proof.
  split; [vm_compute; eexists; split; reflexivity|].
  split; [by_vm|]. split; [by_vm|]. split; [by_vm|]. split; [by_vm|].
  split; [run_ok|]. all_by_vm.
Qed.

(** C7, witness: inside [f], whose parent [__main__] declares [x], the
    identifier [_g] resolves to the global cell and [x], read, to the cell
    of [__main__]; and the assignment [hasOwnProperty = 1], the first
    opcode of its script, declares the local and raises the TypeError,
    with which the step ends. *)
Lemma translateId_scoping_witness :
  translateId 1 "_g" shadow_q2
    = (saveValue_ (global_cell "_g") ;;; ret (global_cell "_g")) shadow_q2 /\
  translateId 1 "x" shadow_q2
    = (saveValue_ x_of_main ;;; ret x_of_main) shadow_q2 /\
  executeExpression (Some hidden_tokens) EmptyString hidden_q0
    = Thrown "TypeError" (declared 0 HAS_OWN hidden_q0) /\
  args (op_at hidden_q0) = [hidden_tokens] /\
  thrown_message (runStep hidden_q0) = Some "TypeError".
Proof.
  assert (Hcur : currentFunc shadow_q2 = 1%nat) by by_vm.
  assert (Hf : funcs shadow_q2 !! 1%nat = Some (func_at shadow_q2)).
  { unfold func_at. rewrite Hcur. found. }
  assert (Hm : funcs shadow_q2 !! 0%nat = Some main_of_shadow) by found.
  assert (Hlen : length (funcs shadow_q2) = 2%nat) by by_vm.
  assert (Hpm : parent main_of_shadow = None) by by_vm.
  assert (Hpf : parent (func_at shadow_q2) = Some 0%nat) by by_vm.
  assert (Hp : parents_below (funcs shadow_q2)).
  { intros i f p Hi Hpar. destruct i as [|[|i]].
    - rewrite Hm in Hi. apply (inj Some) in Hi. subst f. congruence.
    - rewrite Hf in Hi. apply (inj Some) in Hi. subst f.
      rewrite Hpf in Hpar. apply (inj Some) in Hpar. subst p. lia.
    - apply lookup_lt_Some in Hi. lia. }
  split; [|split; [|split; [|all_by_vm]]].
  - destruct (translateId_scoping shadow_q2 1 (func_at shadow_q2) "_g" Hf Hp)
      as (_ & _ & Hrule & _).
    destruct (Hrule ltac:(reflexivity) ltac:(discriminate)) as (Hglobal & _).
    exact (Hglobal ltac:(reflexivity)).
  - destruct (translateId_scoping shadow_q2 1 (func_at shadow_q2) "x" Hf Hp)
      as (_ & _ & Hrule & _).
    destruct (Hrule ltac:(reflexivity) ltac:(discriminate)) as (_ & Hlocal).
    destruct (Hlocal ltac:(reflexivity)) as (Hchain & _).
    assert (Hcell : local_cell main_of_shadow "x" = x_of_main) by by_vm.
    rewrite <- Hcell.
    refine (proj2 (Hchain 0%nat main_of_shadow _ _ _) _ _).
    + apply (up_parent _ 1%nat 0%nat 0%nat (func_at shadow_q2) Hf Hpf). apply up_self.
    + exact Hm.
    + intros j fj Hup1 Hup2 Hne Hj.
      pose proof (up_le _ _ _ Hp Hup1) as Hle.
      assert (j = 1%nat) by lia. subst j.
      rewrite Hf in Hj. apply (inj Some) in Hj. subst fj. split.
      * apply (bool_decide_eq_false_1 ("x" ∈ locals (func_at shadow_q2))). by_vm.
      * apply (bool_decide_eq_false_1 (HAS_OWN ∈ locals (func_at shadow_q2))). by_vm.
    + apply (bool_decide_eq_false_1 (HAS_OWN ∈ locals main_of_shadow)). by_vm.
    + apply (bool_decide_eq_true_1 ("x" ∈ locals main_of_shadow)). by_vm.
  - assert (Hh : funcs hidden_q0 !! 0%nat = Some (func_at hidden_q0)) by found.
    assert (Hph : parents_below (funcs hidden_q0)).
    { intros i f p Hi Hpar. destruct i as [|i].
      - rewrite Hh in Hi. apply (inj Some) in Hi. subst f.
        assert (Hnone : parent (func_at hidden_q0) = None) by by_vm. congruence.
      - apply lookup_lt_Some in Hi.
        assert (Hl : length (funcs hidden_q0) = 1%nat) by by_vm. lia. }
    destruct (translateId_scoping hidden_q0 0 (func_at hidden_q0) HAS_OWN Hh Hph)
      as (_ & _ & _ & Hassign).
    destruct (Hassign hidden_tokens EmptyString ltac:(by_vm) ltac:(reflexivity))
      as (_ & Hfresh).
    assert (Hno : HAS_OWN ∉ locals (func_at hidden_q0)).
    { apply (bool_decide_eq_false_1 (HAS_OWN ∈ locals (func_at hidden_q0))). by_vm. }
    destruct (Hfresh Hno Hno) as (_ & Hthrow & _).
    exact (Hthrow eq_refl).
Defined.

(** C7, counterexample: inside [f], whose parent [__main__] declares [x]
    and which does not declare it, the assignment [x = 2] goes to the
    new cell [window.f_x]; the cell of [__main__] keeps its value. *)
Lemma assignment_shadows_parent :
  currentFunc shadow_q2 = 1%nat /\
  parent (func_at shadow_q2) = Some 0%nat /\
  funcs shadow_q2 !! 0%nat = Some main_of_shadow /\
  name main_of_shadow = "__main__" /\
  bool_decide ("x" ∈ locals main_of_shadow) = true /\
  name (func_at shadow_q2) = "f" /\
  bool_decide ("x" ∈ locals (func_at shadow_q2)) = false /\
  args (op_at shadow_q2)
    = [[mkToken ID "x"; mkToken EXPRESSION "="; mkToken EXPRESSION "2"]] /\
  runStep shadow_q2 = Done tt shadow_q3 /\
  cell (vars shadow_q2) x_of_main = VNum 1 /\
  cell (vars shadow_q3) x_of_main = VNum 1 /\
  cell (vars shadow_q3) "window.f_x" = VNum 2.
Proof.
  split; [by_vm|]. split; [by_vm|]. split; [found|]. split; [by_vm|].
  split; [by_vm|]. split; [by_vm|]. split; [by_vm|]. split; [by_vm|].
  split; [run_ok|]. all_by_vm.
Qed.

(** C8, witness: [CNot 99, 100] on six qubits. *)
Lemma gate_out_of_range_witness :
  execute CNot [VNum 99; VNum 100] six_qubits
    = Done tt (set_errors (errors six_qubits
                             ++ ["Qubit number out of range: " +:+ pretty 99]) six_qubits).
Proof.
  apply (gate_out_of_range CNot six_qubits [VNum 99; VNum 100] 6 99 [] [1%nat] 0%nat).
  - by_vm.
  - reflexivity.
  - intros k Hk. apply elem_of_nil in Hk. contradiction.
  - reflexivity.
  - right. lia.
  - lia.
Defined.

(** C8, counterexample: the second qubit of [CNot 99, 100] is out of
    range as well, and no error names it. *)
Lemma second_qubit_not_reported :
  vectorSize six_qubits = VNum 6 /\
  errors six_qubits = [] /\
  out_of_range = Done tt (final out_of_range) /\
  errors (final out_of_range) = ["Qubit number out of range: 99"].
Proof. split; [by_vm|]. split; [by_vm|]. split; [run_ok|]. by_vm. Qed.

End Examples.

(** * Part IV: further properties of the code *)

(** ** QMath: powers, greatest common divisors, modular inverses *)

(** X1: [QMath.expModN(x, k, N)] is [x^k mod N] for a base [x >= 0], a
    modulus [2 <= N <= 2^26] (where the products of the loop are exact in
    double precision) and an exponent [0 <= k < 2^31]. *)
Theorem expModN_power (x k N : Z) :
  0 <= x -> 2 <= N -> N <= 2 ^ 26 -> 0 <= k < 2 ^ 31 ->
  QMath.expModN (Some x) (Some k) (Some N) = Some (Some (x ^ k mod N)).
Proof. intros Hx HN _ Hk. apply expModN_correct; assumption. Qed.

Lemma expModN_power_witness :
  QMath.expModN (Some 7) (Some 4) (Some 15) = Some (Some (7 ^ 4 mod 15)).
Proof. apply (expModN_power 7 4 15); lia. Defined.

(** X2: above 2^30 the loop of [getWidth] never ends: [1 << i] wraps around
    and stays below [n], whatever the number of rounds. *)
Theorem getWidth_never_returns (n : Z) (fuel : nat) :
  2 ^ 30 < n -> QMath.getWidth fuel n = None.
Proof. intros Hn. apply getWidth_loop_diverges. exact Hn. Qed.

Lemma getWidth_never_returns_witness : QMath.getWidth 100 (2 ^ 30 + 1) = None.
Proof. apply (getWidth_never_returns (2 ^ 30 + 1) 100). lia. Defined.



(** X4: [QMath.gcd(u, v)] returns, within [|v| + 1] rounds, a number whose
    absolute value is the greatest common divisor of [u] and [v]; it is
    the greatest common divisor itself when neither is negative. *)
Theorem gcd_computes (fuel : nat) :
  forall u v : Z,
    Z.abs v < Z.of_nat fuel ->
    exists g, QMath.gcd fuel u v = Some g /\ Z.abs g = Z.gcd u v /\
              (0 <= u -> 0 <= v -> g = Z.gcd u v).
Proof.
  induction fuel as [|fuel IH]; intros u v Hfuel; [lia|].
  cbn [QMath.gcd]. destruct (v =? 0) eqn:Hv.
  - apply Z.eqb_eq in Hv. subst v. exists u. rewrite Z.gcd_0_r.
    split; [reflexivity|]. split; [reflexivity|]. intros Hu _. lia.
  - apply Z.eqb_neq in Hv.
    pose proof (Z.rem_bound_abs u v Hv) as Hrem.
    destruct (IH v (Z.rem u v) ltac:(lia)) as (g & Hg & Habs & Hpos).
    assert (Hgcd : Z.gcd v (Z.rem u v) = Z.gcd u v).
    { rewrite (Z.gcd_comm u v).
      pose proof (Z.quot_rem' u v) as Hq.
      replace (Z.rem u v) with (u + (- Z.quot u v) * v) by lia.
      apply Z.gcd_add_mult_diag_r. }
    exists g. split; [exact Hg|]. split; [congruence|].
    intros Hu Hv0. rewrite <- Hgcd. apply Hpos; [lia|].
    apply Z.rem_nonneg; lia.
Qed.

Lemma gcd_computes_witness :
  exists g, QMath.gcd 19 12 18 = Some g /\ Z.abs g = Z.gcd 12 18 /\
            (0 <= 12 -> 0 <= 18 -> g = Z.gcd 12 18).
Proof. apply (gcd_computes 19 12 18). lia. Defined.

(** *** inverseMod *)

Lemma inverseMod_loop_finds (n c i0 : Z) (fuel : nat) :
  2 <= n -> 0 <= c -> (i0 * c) mod n = 1 ->
  forall i, 1 <= i <= i0 -> i0 - i < Z.of_nat fuel ->
    (forall j, 1 <= j < i -> (j * c) mod n <> 1) ->
    exists r, QMath.inverseMod_loop fuel n c i = Some r /\ i <= r <= i0 /\
              (r * c) mod n = 1 /\ forall j, 1 <= j < r -> (j * c) mod n <> 1.
Proof.
  intros Hn Hc Hi0. induction fuel as [|fuel IH]; intros i Hi Hfuel Hbelow; [lia|].
  cbn [QMath.inverseMod_loop]. unfold JS.rem.
  destruct (n =? 0) eqn:En; [apply Z.eqb_eq in En; lia|].
  rewrite Z.rem_mod_nonneg by nia.
  destruct (Z.eq_dec ((i * c) mod n) 1) as [Heq|Hne].
  - rewrite Heq. exists i. split; [reflexivity|]. split; [lia|]. split; assumption.
  - assert (Hlt : i < i0).
    { destruct (Z.eq_dec i i0) as [->|]; [contradiction|lia]. }
    destruct (IH (i + 1) ltac:(lia) ltac:(lia)) as (r & Hr & Hir & Hrc & Hmin).
    { intros j Hj. destruct (Z.eq_dec j i) as [->|]; [exact Hne|apply Hbelow; lia]. }
    exists r. split.
    + destruct ((i * c) mod n) as [|[p|p|]|p]; try exact Hr. contradiction.
    + split; [lia|]. split; assumption.
Qed.

(** X5: for a modulus [n >= 2] and a [c >= 0] coprime to it (with [n * c]
    within the exact integers of double precision), [inverseMod(n, c)]
    returns within [n] rounds the least [i >= 1] with [i * c = 1 (mod n)];
    it lies below [n]. *)
Theorem inverseMod_least (n c : Z) (fuel : nat) :
  2 <= n -> 0 <= c -> n * c <= 2 ^ 53 -> Z.gcd c n = 1 -> n <= Z.of_nat fuel ->
  exists i, QMath.inverseMod fuel n c = Some i /\ 1 <= i < n /\
            (i * c) mod n = 1 /\ forall j, 1 <= j < i -> (j * c) mod n <> 1.
Proof.
  intros Hn Hc _ Hgcd Hfuel.
  destruct (Z.gcd_bezout c n 1 Hgcd) as (a & b & Hab).
  assert (Hinv : ((a mod n) * c) mod n = 1).
  { rewrite Z.mul_mod_idemp_l by lia.
    replace (a * c) with (1 + (- b) * n) by lia.
    rewrite Z.mod_add by lia. apply Z.mod_small. lia. }
  pose proof (Z.mod_pos_bound a n ltac:(lia)) as Hbound.
  assert (Hnz : a mod n <> 0).
  { intros E. rewrite E in Hinv. cbn in Hinv. rewrite Z.mod_0_l in Hinv by lia. lia. }
  destruct (inverseMod_loop_finds n c (a mod n) fuel Hn Hc Hinv 1)
    as (r & Hr & Hir & Hrc & Hmin); try lia.
  exists r. split; [exact Hr|]. split; [lia|]. split; assumption.
Qed.

Lemma inverseMod_least_witness :
  exists i, QMath.inverseMod 7 7 3 = Some i /\ 1 <= i < 7 /\
            (i * 3) mod 7 = 1 /\ forall j, 1 <= j < i -> (j * 3) mod 7 <> 1.
Proof. apply (inverseMod_least 7 3 7); try lia. reflexivity. Defined.

Lemma inverseMod_loop_stuck (n c : Z) (fuel : nat) :
  (forall i, Z.rem (i * c) n <> 1) ->
  forall i, QMath.inverseMod_loop fuel n c i = None.
Proof.
  intros Hnever. induction fuel as [|fuel IH]; intros i; [reflexivity|].
  cbn [QMath.inverseMod_loop]. unfold JS.rem.
  destruct (n =? 0); [apply IH|].
  specialize (Hnever i).
  destruct (Z.rem (i * c) n) as [|[p|p|]|p]; try apply IH. contradiction.
Qed.

(** X6: when [c] is not coprime to the modulus [n >= 1] the loop of
    [inverseMod(n, c)] never finds its exit: no number of rounds (within
    the exact integers of double precision) returns. *)
Theorem inverseMod_never_returns (n c : Z) (fuel : nat) :
  1 <= n -> Z.gcd c n <> 1 -> Z.of_nat fuel * Z.abs c <= 2 ^ 53 ->
  QMath.inverseMod fuel n c = None.
Proof.
  intros Hn Hgcd _. apply inverseMod_loop_stuck. intros i Hrem.
  pose proof (Z.quot_rem' (i * c) n) as Hq. rewrite Hrem in Hq.
  pose proof (Z.gcd_divide_l c n) as [x Hx].
  pose proof (Z.gcd_divide_r c n) as [y Hy].
  pose proof (Z.gcd_nonneg c n) as Hpos.
  assert (Hdiv : (Z.gcd c n | 1)).
  { exists (i * x - y * Z.quot (i * c) n). nia. }
  apply Z.divide_1_r_nonneg in Hdiv; [contradiction|exact Hpos].
Qed.

Lemma inverseMod_never_returns_witness : QMath.inverseMod 1000 6 4 = None.
Proof. apply (inverseMod_never_returns 6 4 1000); [lia|vm_compute; discriminate|lia]. Defined.

(** ** The lexer and the parser of a line *)

Module LexFacts.

Import Compiler LexSpec.

Lemma all_ident_app (a b : string) :
  all_ident (a ++ b) = all_ident a && all_ident b.
Proof.
  induction a as [|c a IH]; [reflexivity|].
  change (all_ident (String c a ++ b)) with (is_ident c && all_ident (a ++ b)).
  rewrite IH. cbn [all_ident]. apply andb_assoc.
Qed.

Lemma append_not_empty (a : string) (c : ascii) : (a ++ str1 c)%string <> EmptyString.
Proof. destruct a; discriminate. Qed.

Lemma Forall_emit (P : Token -> Prop) (ty : TokenType) (b : string) (toks : list Token) :
  Forall P toks -> P (mkToken ty b) -> Forall P (emit ty b toks).
Proof. intros Ht Hb. unfold emit. apply Forall_app. split; [exact Ht|]. constructor; [exact Hb|constructor]. Qed.

Lemma lex_char_ok (lx : Lexer) (c : ascii) : lexer_ok lx -> lexer_ok (lex_char lx c).
Proof.
  destruct lx as [toks st b]. intros (Htoks & Hst & Hcur & Hid). cbn in *.
  assert (Hstr1 : forall x : ascii, str1 x <> EmptyString) by (intros x; discriminate).
  assert (Hexp : forall s, s <> EmptyString -> token_ok (mkToken EXPRESSION s)).
  { intros s Hs. split; [exact Hs|]. cbn. discriminate. }
  assert (Hsep : forall s, s <> EmptyString -> token_ok (mkToken SEPARATOR s)).
  { intros s Hs. split; [exact Hs|]. cbn. discriminate. }
  assert (Hidt : st = 1%nat -> token_ok (mkToken ID b)).
  { intros ->. split; [apply Hcur; discriminate|]. intros _. apply Hid. reflexivity. }
  unfold lexer_ok.
  destruct (is_blank c) eqn:Eb; [|destruct (is_ident c) eqn:Ei;
    [|destruct (is_separator c) eqn:Es;
      [|destruct (is_equals c) eqn:Ee; [|destruct (is_quote c) eqn:Eq]]]];
    destruct st as [|[|[|[|[|st]]]]]; try lia;
    try destruct (is_digit c); cbn [tokens state cur];
    repeat match goal with
    | |- _ /\ _ => split
    | |- Forall _ (emit _ _ _) => apply Forall_emit
    | |- token_ok (mkToken EXPRESSION _) => apply Hexp
    | |- token_ok (mkToken SEPARATOR _) => apply Hsep
    | |- token_ok (mkToken ID _) => apply Hidt; reflexivity
    | |- (_ ++ str1 _)%string <> EmptyString => apply append_not_empty
    | |- str1 _ <> EmptyString => apply Hstr1
    | |- b <> EmptyString => apply Hcur; discriminate
    | |- _ -> _ => intros ?
    end;
    try assumption; try lia; try discriminate; try congruence;
    try (rewrite all_ident_app, Hid by reflexivity; cbn; rewrite Ei; reflexivity);
    try (cbn; rewrite Ei; reflexivity).
Qed.

Lemma fold_lex_ok (l : list ascii) (lx : Lexer) :
  lexer_ok lx -> lexer_ok (fold_left lex_char l lx).
Proof.
  revert lx. induction l as [|c l IH]; intros lx Hok; [exact Hok|].
  cbn. apply IH, lex_char_ok, Hok.
Qed.

(** X7: every token that [tokenize] returns has a body that is not empty,
    and the body of an ID token is made of identifier characters. *)
Theorem tokenize_tokens_ok (line : string) : Forall token_ok (tokenize line).
Proof.
  unfold tokenize.
  pose proof (fold_lex_ok (list_ascii_of_string (before_comment line))
                (mkLexer [] 0 EmptyString)) as Hok.
  destruct Hok as (Htoks & Hst & Hcur & Hid).
  { split; [constructor|]. cbn. split; [lia|]. split; [congruence|discriminate]. }
  destruct (fold_left lex_char _ _) as [toks st b]. cbn in *.
  destruct st as [|[|[|[|[|st]]]]]; try lia; try exact Htoks;
    apply Forall_emit; try exact Htoks; split; cbn;
    try (apply Hcur; discriminate); try discriminate.
  intros _. apply Hid. reflexivity.
Qed.

(** *** Tokenizing loses nothing but blanks *)

Lemma append_assoc (a b c : string) : ((a ++ b) ++ c = a ++ (b ++ c))%string.
Proof.
  induction a as [|x a IH]; [reflexivity|].
  change (String x ((a ++ b) ++ c) = String x (a ++ (b ++ c)))%string.
  rewrite IH. reflexivity.
Qed.

Lemma append_empty_r (a : string) : (a ++ EmptyString)%string = a.
Proof.
  induction a as [|x a IH]; [reflexivity|].
  change (String x (a ++ EmptyString)%string = String x a).
  rewrite IH. reflexivity.
Qed.

Lemma bodies_emit (ty : TokenType) (b : string) (toks : list Token) :
  bodies (emit ty b toks) = (bodies toks ++ b)%string.
Proof.
  unfold emit. induction toks as [|t toks IH]; cbn [bodies app].
  - apply append_empty_r.
  - rewrite IH. symmetry. apply append_assoc.
Qed.

Lemma lex_char_pending (lx : Lexer) (c : ascii) :
  (state lx <= 3)%nat -> is_quote c = false ->
  (state (lex_char lx c) <= 3)%nat /\
  pending (lex_char lx c)
    = (pending lx ++ if is_blank c then EmptyString else str1 c)%string.
Proof.
  destruct lx as [toks st b]. cbn [state]. intros Hst Hq.
  unfold lex_char, pending. rewrite Hq.
  destruct (is_blank c) eqn:Eb; [|destruct (is_ident c) eqn:Ei;
    [|destruct (is_separator c) eqn:Es; [|destruct (is_equals c) eqn:Ee]]];
    destruct st as [|[|[|[|st]]]]; try lia;
    try destruct (is_digit c); cbn [tokens state cur];
    rewrite ?bodies_emit, ?append_assoc, ?append_empty_r;
    (split; [lia|reflexivity]).
Qed.

Lemma fold_lex_pending (s : string) (lx : Lexer) :
  (state lx <= 3)%nat -> quoted s = false ->
  pending (fold_left lex_char (list_ascii_of_string s) lx)
    = (pending lx ++ squeeze s)%string.
Proof.
  revert lx. induction s as [|c s IH]; intros lx Hst Hq;
    cbn [list_ascii_of_string fold_left squeeze].
  - symmetry. apply append_empty_r.
  - cbn [quoted] in Hq. apply orb_false_iff in Hq as [Hc Hs].
    destruct (lex_char_pending lx c Hst Hc) as [Hst' Hp].
    rewrite IH, Hp by assumption. rewrite append_assoc.
    destruct (is_blank c); reflexivity.
Qed.

(** X8: on a line without a double quote, the bodies of the tokens that
    [tokenize] returns, put one after the other, are the characters
    before the comment without the blanks: the lexer drops blanks and
    nothing else. *)
Theorem tokenize_keeps_text (line : string) :
  quoted (before_comment line) = false ->
  bodies (tokenize line) = squeeze (before_comment line).
Proof.
  intros Hq. unfold tokenize.
  pose proof (fold_lex_pending (before_comment line) (mkLexer [] 0 EmptyString)
                ltac:(cbn; lia) Hq) as Hp.
  pose proof (fold_lex_ok (list_ascii_of_string (before_comment line))
                (mkLexer [] 0 EmptyString)) as (_ & Hst & _).
  { split; [constructor|]. cbn. split; [lia|]. split; [congruence|discriminate]. }
  change (pending (mkLexer [] 0 EmptyString) ++ squeeze (before_comment line))%string
    with (squeeze (before_comment line)) in Hp.
  rewrite <- Hp.
  destruct (fold_left lex_char _ _) as [toks st b]. unfold pending.
  cbn [tokens state cur] in *.
  destruct st as [|[|[|[|[|st]]]]]; try lia;
    rewrite ?bodies_emit, ?append_empty_r; reflexivity.
Qed.

Lemma tokenize_keeps_text_witness :
  bodies (tokenize "x = y+1 ; z // sum") = squeeze (before_comment "x = y+1 ; z // sum").
Proof. apply (tokenize_keeps_text "x = y+1 ; z // sum"). reflexivity. Defined.

(** *** parseExpressions *)

Lemma parse_loop_flat (toks : list Token) :
  flat toks ->
  forall exp expr,
    concat (parse_loop toks exp expr 0)
      = concat exp ++ expr ++ filter (fun t => type t <> SEPARATOR) toks /\
    length (parse_loop toks exp expr 0)
      = S (length exp + length (filter (fun t => type t = SEPARATOR) toks)) /\
    (Forall (Forall (fun t => type t <> SEPARATOR)) exp ->
     Forall (fun t => type t <> SEPARATOR) expr ->
     Forall (Forall (fun t => type t <> SEPARATOR)) (parse_loop toks exp expr 0)).
Proof.
  intros Hflat. induction Hflat as [|t toks Ht Hflat IH]; intros exp expr.
  - cbn. rewrite concat_app, length_app. cbn. rewrite !app_nil_r.
    split; [reflexivity|]. split; [lia|].
    intros He Hx. apply Forall_app. split; [exact He|]. constructor; [exact Hx|constructor].
  - cbn [parse_loop].
    destruct (decide (type t = SEPARATOR /\ 0 = 0)) as [[Hsep _]|Hno].
    + destruct (IH (exp ++ [expr]) []) as (Hc & Hl & Hf).
      rewrite Hc, Hl. rewrite concat_app, length_app.
      rewrite (filter_cons_False (fun t => type t <> SEPARATOR)) by (intros E; apply E, Hsep).
      rewrite (filter_cons_True (fun t => type t = SEPARATOR)) by exact Hsep.
      cbn. rewrite !app_nil_r, <- !app_assoc.
      split; [reflexivity|]. split; [lia|].
      intros He Hx. apply Hf; [|constructor].
      apply Forall_app. split; [exact He|]. constructor; [exact Hx|constructor].
    + assert (Hns : type t <> SEPARATOR) by (intros E; apply Hno; split; auto).
      rewrite Ht. replace (0 + 0) with 0 by lia.
      destruct (IH exp (expr ++ [t])) as (Hc & Hl & Hf).
      rewrite Hc, Hl.
      rewrite (filter_cons_True (fun t => type t <> SEPARATOR)) by exact Hns.
      rewrite (filter_cons_False (fun t => type t = SEPARATOR)) by exact Hns.
      rewrite <- !app_assoc. cbn.
      split; [reflexivity|]. split; [lia|].
      intros He Hx. apply Hf; [exact He|].
      apply Forall_app. split; [exact Hx|]. constructor; [exact Hns|constructor].
Qed.

(** X9: when no token changes the nesting depth of parentheses,
    [parseExpressions(tokens, idx)] cuts the tokens from [idx] on at the
    separators: it returns one expression more than there are separators,
    no expression holds a separator, and the expressions put together are
    the tokens without the separators. *)
Theorem parseExpressions_splits (toks : list Token) (idx : nat) :
  flat (drop idx toks) ->
  concat (parseExpressions toks idx)
    = filter (fun t => type t <> SEPARATOR) (drop idx toks) /\
  length (parseExpressions toks idx)
    = S (length (filter (fun t => type t = SEPARATOR) (drop idx toks))) /\
  Forall (Forall (fun t => type t <> SEPARATOR)) (parseExpressions toks idx).
Proof.
  intros Hflat. unfold parseExpressions.
  destruct (parse_loop_flat (drop idx toks) Hflat [] []) as (Hc & Hl & Hf).
  split; [exact Hc|]. split; [exact Hl|]. apply Hf; constructor.
Qed.

Lemma parseExpressions_splits_witness :
  concat (parseExpressions (tokenize "Rx 0, x + 1") 1)
    = filter (fun t => type t <> SEPARATOR) (drop 1 (tokenize "Rx 0, x + 1")) /\
  length (parseExpressions (tokenize "Rx 0, x + 1") 1)
    = S (length (filter (fun t => type t = SEPARATOR) (drop 1 (tokenize "Rx 0, x + 1")))) /\
  Forall (Forall (fun t => type t <> SEPARATOR)) (parseExpressions (tokenize "Rx 0, x + 1") 1).
Proof.
  apply (parseExpressions_splits (tokenize "Rx 0, x + 1") 1).
  unfold flat. repeat constructor.
Defined.

End LexFacts.

Module TextFacts.

Import TextSpec Cases.

(** *** The text of a script *)

Lemma occurs_count (c : ascii) (s : string) :
  Text.occurs c s = false <-> count c s = 0%nat.
Proof.
  induction s as [|a s IH]; cbn; [tauto|].
  destruct (Ascii.eqb a c); cbn; [split; [discriminate|lia]|exact IH].
Qed.

Lemma count_replace_other (c d by_ : ascii) (s : string) :
  Ascii.eqb by_ d = false -> (count d (Text.replace c by_ s) <= count d s)%nat.
Proof.
  intros Hby. induction s as [|a s IH]; cbn; [lia|].
  destruct (Ascii.eqb a c) eqn:Hac; cbn.
  - rewrite Hby. lia.
  - destruct (Ascii.eqb a d); lia.
Qed.

Lemma count_replace_self (c by_ : ascii) (s : string) :
  Ascii.eqb by_ c = false -> count c (Text.replace c by_ s) = (count c s - 1)%nat.
Proof.
  intros Hby. induction s as [|a s IH]; cbn; [reflexivity|].
  destruct (Ascii.eqb a c) eqn:Hac; cbn.
  - rewrite Hby. lia.
  - rewrite Hac, IH. reflexivity.
Qed.

Lemma occurs_append (c : ascii) (a b : string) :
  Text.occurs c (a ++ b) = Text.occurs c a || Text.occurs c b.
Proof.
  induction a as [|x a IH]; [reflexivity|].
  change (Text.occurs c (String x a ++ b))
    with (Ascii.eqb x c || Text.occurs c (a ++ b)).
  rewrite IH. cbn. apply orb_assoc.
Qed.

Lemma split_lines_aux_occurs (c : ascii) (s cur : string) :
  Text.occurs c s = false -> Text.occurs c cur = false ->
  Forall (fun l => Text.occurs c l = false) (Text.split_lines_aux s cur).
Proof.
  revert cur. induction s as [|a s IH]; intros cur Hs Hcur; cbn.
  - constructor; [exact Hcur|constructor].
  - cbn in Hs. apply orb_false_iff in Hs as [Ha Hs].
    destruct (Ascii.eqb a Text.LF).
    + constructor; [exact Hcur|]. apply IH; [exact Hs|reflexivity].
    + apply IH; [exact Hs|]. rewrite occurs_append, Hcur. cbn. rewrite Ha. reflexivity.
Qed.

Lemma split_lines_aux_no_LF (s cur : string) :
  Text.occurs Text.LF cur = false ->
  Forall (fun l => Text.occurs Text.LF l = false) (Text.split_lines_aux s cur).
Proof.
  revert cur. induction s as [|a s IH]; intros cur Hcur; cbn.
  - constructor; [exact Hcur|constructor].
  - destruct (Ascii.eqb a Text.LF) eqn:Ha.
    + constructor; [exact Hcur|]. apply IH. reflexivity.
    + apply IH. rewrite occurs_append, Hcur. cbn. rewrite Ha. reflexivity.
Qed.

(** X10: a script with at most one carriage return and at most one tab is
    stored without any: no line of [text_] has a carriage return, a tab
    or a newline. *)
Theorem compile_text_folds_one (script : string) :
  (count Text.CR script <= 1)%nat -> (count Text.TAB script <= 1)%nat ->
  Forall (fun l => Text.occurs Text.CR l = false /\ Text.occurs Text.TAB l = false /\
                   Text.occurs Text.LF l = false)
         (Text.compile_text script).
Proof.
  intros Hcr Htab. unfold Text.compile_text, Text.split_lines.
  set (s := Text.replace Text.TAB Text.SPACE (Text.replace Text.CR Text.SPACE script)).
  assert (Hs_cr : Text.occurs Text.CR s = false).
  { apply occurs_count. subst s.
    pose proof (count_replace_other Text.TAB Text.CR Text.SPACE
                  (Text.replace Text.CR Text.SPACE script) eq_refl).
    rewrite count_replace_self in H by reflexivity. lia. }
  assert (Hs_tab : Text.occurs Text.TAB s = false).
  { apply occurs_count. subst s.
    rewrite count_replace_self by reflexivity.
    pose proof (count_replace_other Text.CR Text.TAB Text.SPACE script eq_refl). lia. }
  pose proof (split_lines_aux_occurs Text.CR s EmptyString Hs_cr eq_refl) as H1.
  pose proof (split_lines_aux_occurs Text.TAB s EmptyString Hs_tab eq_refl) as H2.
  pose proof (split_lines_aux_no_LF s EmptyString eq_refl) as H3.
  rewrite Forall_forall in *. intros l Hl. auto.
Qed.

(** Witness: a line with one tab and one carriage return. *)
Lemma compile_text_folds_one_witness :
  Forall (fun l => Text.occurs Text.CR l = false /\ Text.occurs Text.TAB l = false /\
                   Text.occurs Text.LF l = false)
         (Text.compile_text windows_line).
Proof. apply (compile_text_folds_one windows_line); vm_compute; lia. Defined.

End TextFacts.

Module FunctionFacts.

Import Compiler EngineSpec.

(** *** findFunction *)

Lemma find_up_step (f : Func) (n : string) :
  match hasOwnProperty (dom (functions f)) n, functions f !! n with
  | None, _ => HAS_OWN ∈ dom (functions f)
  | Some true, Some g => True
  | Some true, None => False
  | Some false, o => o = None
  end.
Proof.
  unfold hasOwnProperty.
  destruct (bool_decide (HAS_OWN ∈ dom (functions f))) eqn:Hhas.
  - apply bool_decide_eq_true in Hhas. exact Hhas.
  - destruct (bool_decide (n ∈ dom (functions f))) eqn:Hn.
    + apply bool_decide_eq_true in Hn. apply elem_of_dom in Hn as [g Hg].
      rewrite Hg. exact I.
    + apply bool_decide_eq_false in Hn. apply not_elem_of_dom in Hn. exact Hn.
Qed.

Lemma find_up_found (fs : list Func) (n : string) (r i g : nat) :
  parents_below fs ->
  find_up r fs i n = Hit g ->
  exists a fa, up fs i a /\ fs !! a = Some fa /\ functions fa !! n = Some g /\
    forall j fj, up fs i j -> up fs j a -> j <> a -> fs !! j = Some fj ->
                 functions fj !! n = None.
Proof.
  intros Hpb. revert i. induction r as [|r IH]; intros i Hfind; [discriminate|].
  cbn [find_up] in Hfind.
  destruct (fs !! i) as [fn|] eqn:Hfn; [|discriminate].
  pose proof (find_up_step fn n) as Hstep.
  destruct (hasOwnProperty (dom (functions fn)) n) as [[|]|]; [| |discriminate].
  - destruct (functions fn !! n) as [g'|] eqn:Hg; [|contradiction].
    injection Hfind as <-. exists i, fn.
    split; [apply up_self|]. split; [exact Hfn|]. split; [exact Hg|].
    intros j fj Hij Hji Hne. apply (EngineFacts.up_le _ _ _ Hpb) in Hij, Hji. lia.
  - assert (Hfind' : match parent fn with
                     | Some p => find_up r fs p n
                     | None => Miss
                     end = Hit g).
    { destruct (functions fn !! n); exact Hfind. }
    destruct (parent fn) as [p|] eqn:Hp; [|discriminate].
    destruct (IH p Hfind') as (a & fa & Hup & Hfa & Hga & Hmin).
    exists a, fa. split; [eapply up_parent; eauto|]. split; [exact Hfa|].
    split; [exact Hga|].
    intros j fj Hij Hja Hne Hfj.
    inversion Hij as [|i' p' j' f' Hf' Hp' Hup']; subst.
    + rewrite Hfn in Hfj. injection Hfj as <-. exact Hstep.
    + rewrite Hfn in Hf'. injection Hf' as <-. rewrite Hp in Hp'. injection Hp' as <-.
      eapply Hmin; eauto.
Qed.

Lemma find_up_none (fs : list Func) (n : string) (r i : nat) :
  parents_below fs -> (i < r)%nat ->
  find_up r fs i n = Miss ->
  forall j fj, up fs i j -> fs !! j = Some fj -> functions fj !! n = None.
Proof.
  intros Hpb. revert i. induction r as [|r IH]; intros i Hr Hfind j fj Hij Hfj; [lia|].
  cbn [find_up] in Hfind.
  destruct (fs !! i) as [fn|] eqn:Hfn.
  - pose proof (find_up_step fn n) as Hstep.
    destruct (hasOwnProperty (dom (functions fn)) n) as [[|]|]; [| |discriminate].
    + destruct (functions fn !! n); [discriminate|contradiction].
    + assert (Hfind' : match parent fn with
                       | Some p => find_up r fs p n
                       | None => Miss
                       end = Miss).
      { destruct (functions fn !! n); exact Hfind. }
      inversion Hij as [|i' p' j' f' Hf' Hp' Hup']; subst.
      * rewrite Hfn in Hfj. injection Hfj as <-. exact Hstep.
      * rewrite Hfn in Hf'. injection Hf' as <-. rewrite Hp' in Hfind'.
        pose proof (Hpb _ _ _ Hfn Hp').
        eapply (IH p'); eauto. lia.
  - inversion Hij as [|i' p' j' f' Hf' Hp' Hup']; subst; congruence.
Qed.

Lemma find_up_broken (fs : list Func) (n : string) (r i : nat) :
  find_up r fs i n = Broken ->
  exists a fa, up fs i a /\ fs !! a = Some fa /\ HAS_OWN ∈ dom (functions fa).
Proof.
  revert i. induction r as [|r IH]; intros i Hfind; [discriminate|].
  cbn [find_up] in Hfind.
  destruct (fs !! i) as [fn|] eqn:Hfn; [|discriminate].
  pose proof (find_up_step fn n) as Hstep.
  destruct (hasOwnProperty (dom (functions fn)) n) as [[|]|].
  - destruct (functions fn !! n); [discriminate|contradiction].
  - assert (Hfind' : match parent fn with
                     | Some p => find_up r fs p n
                     | None => Miss
                     end = Broken).
    { destruct (functions fn !! n); exact Hfind. }
    destruct (parent fn) as [p|] eqn:Hp; [|discriminate].
    destruct (IH p Hfind') as (a & fa & Hup & Hfa & Hhas).
    exists a, fa. split; [eapply up_parent; eauto|]. auto.
  - exists i, fn. split; [apply up_self|]. auto.
Qed.

(** X11: [findFunction(fn, name)], in a table where every parent is allocated
    before its children: a result is the entry [name] of the innermost
    function, from [fn] upwards, whose [functions] has it; [null] means
    that no function from [fn] upwards has it; and the TypeError means
    that a function from [fn] upwards has an entry [hasOwnProperty]. *)
Theorem findFunction_innermost (fs : list Func) (fn : nat) (n : string) :
  parents_below fs ->
  (forall g, findFunction fs fn n = Hit g ->
     exists a fa, up fs fn a /\ fs !! a = Some fa /\ functions fa !! n = Some g /\
       forall j fj, up fs fn j -> up fs j a -> j <> a -> fs !! j = Some fj ->
                    functions fj !! n = None) /\
  (findFunction fs fn n = Miss ->
     forall j fj, up fs fn j -> fs !! j = Some fj -> functions fj !! n = None) /\
  (findFunction fs fn n = Broken ->
     exists a fa, up fs fn a /\ fs !! a = Some fa /\ HAS_OWN ∈ dom (functions fa)).
Proof.
  intros Hpb. unfold findFunction. split; [|split].
  - intros g Hg. eapply find_up_found; eauto.
  - intros Hnone. eapply find_up_none; eauto.
  - apply find_up_broken.
Qed.

End FunctionFacts.

(** ** Steps of the engine *)

Module StepFacts.

Import Compiler Engine EngineSpec EngineFacts StepSpec.

Section Steps.
Context {FL : Float32} {G : Gpu} {H : Host}.

(** *** A script of blank lines and comments *)

Lemma compileLoop_skips (st : CompState) (f : nat) (fors ifs : list nat) (fuel : nat) :
  Forall (fun raw => skipped raw = true) (text_ st) ->
  forall line, (length (text_ st) - line < fuel)%nat ->
    compileLoop fuel st f fors ifs line
      = Ok (finish st f fors ifs (Nat.max line (length (text_ st)))).
Proof.
  intros Hall. induction fuel as [|fuel IH]; intros line Hfuel; [lia|].
  cbn [compileLoop].
  destruct (text_ st !! line) as [raw|] eqn:Hraw.
  - pose proof (lookup_lt_Some _ _ _ Hraw) as Hlt.
    rewrite Forall_lookup in Hall. specialize (Hall line raw Hraw).
    unfold skipped in Hall. rewrite Hall.
    rewrite IH by lia. f_equal. f_equal. lia.
  - apply lookup_ge_None in Hraw. f_equal. f_equal. lia.
Qed.

(** X12: a script that has only blank lines and comments compiles, without an
    error, to a main function without code: the engine is done at once,
    and [getCurrentLine()] raises a TypeError, since it reads the line of
    the last opcode. *)
Theorem blank_script_has_no_line (script : string) :
  Forall (fun raw => skipped raw = true) (Text.compile_text script) ->
  exists c main,
    Compiler.compile script = Ok c /\
    Compiler.errors (c_state c) = [] /\
    Compiler.funcs (c_state c) = [main] /\ code main = [] /\
    isDone (compiled c) = Done true (compiled c) /\
    getCurrentLine (compiled c) = Thrown "TypeError" (compiled c).
Proof.
  intros Hall. unfold Compiler.compile, compileFunction.
  rewrite compileLoop_skips by (cbn; try assumption; lia).
  eexists. eexists. split; [reflexivity|].
  cbn. split; [reflexivity|]. split; [reflexivity|]. split; [reflexivity|].
  split; reflexivity.
Qed.

(** *** The record of a step *)

Lemma preserves_ret {A : Type} (I : QScript -> Prop) (a : A) : preserves I (ret a).
Proof. intros q a' q' Hrun Hq. injection Hrun as _ <-. exact Hq. Qed.

Lemma preserves_get (I : QScript -> Prop) : preserves I get.
Proof. intros q a' q' Hrun Hq. injection Hrun as _ <-. exact Hq. Qed.

Lemma preserves_throw {A : Type} (I : QScript -> Prop) (msg : string) :
  preserves I (throw (A := A) msg).
Proof. intros q a' q' Hrun. discriminate. Qed.

Lemma preserves_modify (I : QScript -> Prop) (g : QScript -> QScript) :
  (forall q, I q -> I (g q)) -> preserves I (modify g).
Proof. intros Hg q [] q' Hrun Hq. injection Hrun as <-. apply Hg, Hq. Qed.

Lemma preserves_bind {A C : Type} (I : QScript -> Prop) (m : M A) (k : A -> M C) :
  preserves I m -> (forall a, preserves I (k a)) -> preserves I (bind m k).
Proof.
  intros Hm Hk q c q' Hrun Hq.
  apply bind_done in Hrun as (a & q1 & Hrun1 & Hrun2).
  eapply Hk; [exact Hrun2|]. eapply Hm; eauto.
Qed.

Lemma preserves_saved {A : Type} (m : M A) :
  keeps (same saved) m -> preserves aligned m.
Proof.
  intros Hk q a q' Hrun Hq. pose proof (keeps_done saved m q q' a Hk Hrun) as Hs.
  unfold saved in Hs. injection Hs as Hv Hvals. unfold aligned. rewrite Hv, Hvals. exact Hq.
Qed.

Ltac pres_step :=
  first
    [ apply preserves_ret
    | apply preserves_get
    | apply preserves_throw
    | apply preserves_modify; intros ? Hq; exact Hq
    | apply preserves_bind; [|intros]
    | match goal with
      | |- preserves _ (match ?x with _ => _ end) => destruct x
      | |- preserves _ (if ?x then _ else _) => destruct x
      | |- preserves _ (let '(_, _) := ?x in _) => destruct x
      end ].

Lemma aligned_saveValue_ (id : string) : preserves aligned (saveValue_ id).
Proof.
  intros q [] q' Hrun [Hnd Hlen]. unfold saveValue_, bind, get in Hrun.
  destruct (bool_decide (id ∈ savedVars_ q)) eqn:Hin.
  { injection Hrun as <-. split; assumption. }
  apply bool_decide_eq_false in Hin.
  assert (Hnd' : NoDup (savedVars_ q ++ [id])).
  { apply NoDup_app. split; [exact Hnd|]. split.
    - intros x Hx Hx'. apply list_elem_of_singleton in Hx'. subst x. contradiction.
    - apply NoDup_singleton. }
  destruct (String.eqb id MEASURED_VALUE).
  { injection Hrun as <-. split; cbn; [exact Hnd'|]. rewrite !length_app. cbn. lia. }
  cbn in Hrun.
  destruct (eval_ id (vars q)) as [[v|msg] cells]; cbn in Hrun; [|discriminate].
  injection Hrun as <-. split; cbn; [exact Hnd'|]. rewrite !length_app. cbn. lia.
Qed.

Lemma aligned_declare_local (fn : nat) (id : string) :
  preserves aligned (declare_local fn id).
Proof. apply preserves_saved. unfold declare_local. repeat frame_step. Qed.

Lemma aligned_translateId (fn : nat) (id : string) : preserves aligned (translateId fn id).
Proof.
  unfold translateId.
  repeat first [ apply aligned_saveValue_ | apply aligned_declare_local | pres_step ].
Qed.

Lemma aligned_translate_tokens (fn : nat) (ex : list Token) :
  preserves aligned (translate_tokens fn ex).
Proof.
  induction ex as [|t ex IH]; cbn [translate_tokens].
  - apply preserves_ret.
  - repeat first [ apply IH | apply aligned_translateId | pres_step ].
Qed.

Lemma aligned_executeExpression (ex : option (list Token)) (prefix : string) :
  preserves aligned (executeExpression ex prefix).
Proof.
  unfold executeExpression, push_error.
  repeat first [ apply aligned_translate_tokens | apply aligned_declare_local | pres_step ].
Qed.

Lemma aligned_eval_args (a : list (list Token)) : preserves aligned (eval_args a).
Proof.
  induction a as [|ex a IH]; cbn [eval_args].
  - apply preserves_ret.
  - repeat first [ apply IH | apply aligned_executeExpression | pres_step ].
Qed.

Lemma aligned_bind_args (callee : nat) (a : list (list Token)) (i : nat) (argv : string) :
  preserves aligned (bind_args callee a i argv).
Proof.
  revert i argv. induction a as [|ex a IH]; intros i argv; cbn [bind_args].
  - apply preserves_ret.
  - repeat first [ apply IH | apply aligned_executeExpression | apply aligned_translateId
                 | pres_step ].
Qed.

Lemma aligned_execute (b : Builtin) (argv : list Val) : preserves aligned (execute b argv).
Proof.
  apply preserves_saved. eapply (keeps_weaken builtin_frame); [|apply keeps_execute].
  intros ? ? Heq. unfold saved. inversion Heq. reflexivity.
Qed.

Lemma aligned_run_op (op : Opcode) : preserves aligned (run_op op).
Proof.
  unfold run_op, run_code, exec_arg, goto, advance, current_code.
  repeat first [ apply aligned_bind_args | apply aligned_eval_args | apply aligned_execute
               | apply aligned_executeExpression | pres_step ].
Qed.

(** X13: the history record that a forward step pushes names every saved
    symbol once and holds one value for each: [saveValue_] saves a cell
    the first time the step names it and not again. *)
Theorem runStep_record_aligned (q q1 : QScript) (f : Func) (op : Opcode) :
  funcs q !! currentFunc q = Some f ->
  Arr.get (code f) (currentStep q) = Some op ->
  runStep q = Done tt q1 ->
  exists rec, history_ q1 = rec :: history_ q /\
              NoDup (symbols rec) /\ length (symbols rec) = length (values rec).
Proof.
  intros Hf Hop Hrun. unfold runStep in Hrun.
  apply bind_done in Hrun as (at_end & q' & Hpop & Hrun).
  rewrite (pop_frame_inside q f op Hf Hop) in Hpop. injection Hpop as <- <-.
  apply bind_done in Hrun as (cd & q' & Hcd & Hrun).
  unfold current_code, bind, get in Hcd. rewrite Hf in Hcd.
  injection Hcd as <- <-.
  apply bind_done in Hrun as (q0 & q' & Hget & Hrun).
  injection Hget as <- <-. rewrite Hop in Hrun.
  apply bind_done in Hrun as ([] & qa & Hreset & Hrun).
  injection Hreset as <-.
  apply bind_done in Hrun as ([] & qb & Hop' & Hrun).
  apply bind_done in Hrun as ([] & qc & Hpush & Hrun).
  injection Hpush as <-.
  apply bind_done in Hrun as (e & qd & Hend & Hrun).
  injection Hrun as Hqd. subst qd.
  pose proof (keeps_done history_ _ _ _ _ keeps_history_pop_frame Hend) as Hh.
  pose proof (keeps_done history_ _ _ _ _ (keeps_history_run_op op) Hop') as Hh'.
  destruct (aligned_run_op op _ _ _ Hop') as [Hnd Hlen].
  { split; [constructor|reflexivity]. }
  eexists. split; [rewrite Hh; cbn; rewrite Hh'; reflexivity|].
  split; [exact Hnd|exact Hlen].
Qed.

(** *** Leaving a function *)

(** X14: [return] inside a called function goes back to the caller in the same
    step: the step is recorded at the position of the [return], and the
    engine is then at the position of the newest frame, which is popped. *)
Theorem return_goes_back (q : QScript) (f : Func) (op : Opcode) (frame : Frame)
    (rest : list Frame) :
  funcs q !! currentFunc q = Some f ->
  Arr.get (code f) (currentStep q) = Some op ->
  command op = Code CommandCode.RETURN ->
  callStack q = frame :: rest ->
  exists q1,
    runStep q = Done tt q1 /\
    currentFunc q1 = frame_func frame /\ currentStep q1 = frame_step frame /\
    callStack q1 = rest /\
    history_ q1 = mkStepData [] [] (currentFunc q) (currentStep q) :: history_ q.
Proof.
  intros Hf Hop Hcmd Hcs.
  unfold runStep. unfold bind at 1.
  rewrite (pop_frame_inside q f op Hf Hop).
  unfold current_code at 1. unfold bind, get. rewrite Hf. cbn. rewrite Hop.
  unfold run_op. rewrite Hcmd. cbn.
  unfold current_code, bind, get, goto, modify, ret. cbn. rewrite Hf. cbn.
  unfold pop_frame_at_end, current_code, bind, get, ret, modify. cbn. rewrite Hf. cbn.
  rewrite Z.leb_refl. rewrite Hcs. cbn.
  eexists. split; [reflexivity|]. cbn. auto.
Qed.

(** *** Running to the end *)

(** X15: what [runStep] does, when it returns: nothing at all when [isDone()]
    holds; past the end of a called function, it pops the newest frame and
    pushes no record; otherwise it executes the opcode at the current
    position and pushes one record, which names that position. *)
Theorem runStep_progress (q q1 : QScript) (f : Func) :
  funcs q !! currentFunc q = Some f ->
  runStep q = Done tt q1 ->
  (isDone q = Done true q /\ q1 = q) \/
  (isDone q = Done false q /\
   Z.of_nat (length (code f)) <= currentStep q /\
   exists frame rest,
     callStack q = frame :: rest /\
     q1 = set_position (frame_func frame) (frame_step frame) (set_callStack rest q)) \/
  (isDone q = Done false q /\
   exists op rec,
     Arr.get (code f) (currentStep q) = Some op /\
     history_ q1 = rec :: history_ q /\
     func rec = currentFunc q /\ step rec = currentStep q).
Proof.
  intros Hf Hrun.
  assert (Hdone : isDone q
            = Done ((Z.of_nat (length (code f)) <=? currentStep q)
                    && match callStack q with [] => true | _ => false end) q).
  { unfold isDone, current_code, bind, get, ret. rewrite Hf. reflexivity. }
  destruct (Z.of_nat (length (code f)) <=? currentStep q) eqn:Hend.
  - apply Z.leb_le in Hend.
    unfold runStep, pop_frame_at_end, current_code, bind, get, ret, modify in Hrun.
    rewrite Hf in Hrun. cbn in Hrun.
    apply Z.leb_le in Hend. rewrite Hend in Hrun. apply Z.leb_le in Hend.
    destruct (callStack q) as [|frame rest] eqn:Hcs.
    + left. injection Hrun as <-. split; [exact Hdone|reflexivity].
    + right. left. injection Hrun as <-.
      split; [exact Hdone|]. split; [exact Hend|]. eauto.
  - right. right. rewrite andb_false_l in Hdone. split; [exact Hdone|].
    apply Z.leb_gt in Hend.
    destruct (Arr.get (code f) (currentStep q)) as [op|] eqn:Hop.
    + destruct (runStep_record q q1 f op Hf Hop Hrun) as (rec & Hh & Hfn & Hst).
      exists op, rec. auto.
    + exfalso.
      unfold runStep, pop_frame_at_end, current_code, bind, get, ret in Hrun.
      rewrite Hf in Hrun. cbn in Hrun.
      apply Z.leb_gt in Hend. rewrite Hend in Hrun. cbn in Hrun.
      rewrite Hf in Hrun. cbn in Hrun. rewrite Hop in Hrun. discriminate.
Qed.

(** *** Refused arguments *)

(** X16: QFTCPhase and InvQFTCPhase with a control qubit that is not above the
    target (both in range) push their error and leave the simulator, and
    everything but [errors], as it was. *)
Theorem control_must_be_above (b : Builtin) (q : QScript) (argv : list Val)
    (n c t : Z) :
  b = QFTCPhase \/ b = InvQFTCPhase ->
  vectorSize q = VNum n ->
  arg argv 0 = VNum c -> arg argv 1 = VNum t ->
  0 <= c < n -> 0 <= t < n -> c <= t ->
  execute b argv q = Done tt (set_errors (errors q ++ [control_below b]) q).
Proof.
  intros Hb Hvs Hc Ht Hcr Htr Hle.
  assert (Hle' : Value.le str_to_num (VNum c) (VNum t) = true).
  { cbn. apply Z.leb_le. exact Hle. }
  destruct Hb as [-> | ->]; cbn [execute]; unfold checked2;
    rewrite Hc, Ht;
    rewrite (checked1_accepts q n c) by (auto; lia);
    rewrite (checked1_accepts q n t) by (auto; lia);
    rewrite Hle'; reflexivity.
Qed.

Lemma shl32_land_one (n : Z) : 6 <= n <= 22 -> Z.land (JS.to_int32 n) 1 = n mod 2.
Proof.
  intros Hn. rewrite to_int32_small by lia.
  change 1 with (Z.ones 1). rewrite Z.land_ones by lia. reflexivity.
Qed.

(** X17: [VectorSize n] with an integer below 6, above 22 or odd (a safe
    integer, which prints in decimal digits) pushes the error of [init]
    and creates no simulator: everything but [errors] is as it was. *)
Theorem init_refuses (q : QScript) (n : Z) :
  n < 6 \/ 22 < n \/ Z.odd n = true -> Z.abs n <= 2 ^ 53 ->
  init (VNum n) q = Done tt (set_errors (errors q ++ [bad_size n]) q).
Proof.
  intros Hn _. unfold init.
  assert (Hcond : Value.lt str_to_num (VNum n) (VNum 6)
                  || Value.gt str_to_num (VNum n) (VNum 22)
                  || negb (Z.land (Value.to_int32 str_to_num (VNum n)) 1 =? 0) = true).
  { cbn.
    destruct (n <? 6) eqn:E1; [reflexivity|].
    destruct (22 <? n) eqn:E2; [reflexivity|].
    apply Z.ltb_ge in E1, E2. cbn.
    destruct Hn as [Hn|[Hn|Hn]]; try lia.
    rewrite shl32_land_one by lia.
    rewrite Zmod_odd, Hn. reflexivity. }
  rewrite Hcond. reflexivity.
Qed.

End Steps.

End StepFacts.

(** ** The register *)

Module RegisterFacts.

Import Compiler Engine EngineSpec EngineFacts.

Section Register.
Context {FL : Float32} {G : Gpu} {H : Host}.

(** *** The register that VectorSize creates *)

Lemma create_texArray (n : Z) :
  6 <= n <= 22 -> Z.even n = true ->
  Simulator.create (VNum n)
    = Simulator.mkSim (VNum n) (2 ^ n) (2 ^ (n / 2))
        (Arr.set (replicate (Z.to_nat (4 * 2 ^ n)) fzero) 0 fone)
        (Arr.set (replicate (Z.to_nat (4 * 2 ^ n)) fzero) 0 fone)
        (Arr.set (replicate (Z.to_nat (4 * 2 ^ n)) fzero) 0 fone)
        Simulator.Input1 [].
Proof.
  intros Hn Heven.
  assert (Hhalf : n = 2 * (n / 2)).
  { rewrite (Z.div_mod n 2) at 1 by lia. rewrite Zmod_even, Heven. lia. }
  assert (Hq : Z.quot n 2 = n / 2) by (apply Z.quot_div_nonneg; lia).
  assert (Hsq : 2 ^ (n / 2) * 2 ^ (n / 2) = 2 ^ n).
  { rewrite <- Z.pow_add_r by lia. f_equal. lia. }
  unfold Simulator.create, Simulator.half_shift_count, Simulator.shift_count.
  cbn [ToNumber]. rewrite Hq, !shl32_one by lia.
  unfold Simulator.zeroState, Simulator.generateZeroTexture, Simulator.setState.
  cbn [Simulator.texArray Simulator.texWidth Simulator.set_texArray Simulator.vectorSize
       Simulator.stateCnt Simulator.rtOutput].
  rewrite Hsq.
  rewrite imap_zero by (rewrite length_replicate; lia).
  rewrite length_replicate.
  replace (2 ^ n * 4) with (4 * 2 ^ n) by lia.
  reflexivity.
Qed.

(** X18: [VectorSize n] with an even [n] between 6 and 22 creates the
    simulator: its register has [2^n] basis states, the texture holds four
    floats for each, the amplitude of state 0 is 1 and every other
    amplitude is 0. *)
Theorem init_creates_zero_state (q : QScript) (n : Z) :
  6 <= n <= 22 -> Z.even n = true ->
  init (VNum n) q
    = Done tt (set_simulator (Some (Simulator.create (VNum n)))
                             (set_vectorSize (VNum n) q)) /\
  Simulator.wf n (Simulator.create (VNum n)) /\
  Simulator.amplitude (Simulator.create (VNum n)) 0 = Some (fone, fzero) /\
  (forall i, 0 < i < 2 ^ n ->
     Simulator.amplitude (Simulator.create (VNum n)) i = Some (fzero, fzero)).
Proof.
  intros Hn Heven.
  assert (Hpow : 2 ^ 6 <= 2 ^ n) by (apply Z.pow_le_mono_r; lia).
  assert (Hhalf : n = 2 * (n / 2)).
  { rewrite (Z.div_mod n 2) at 1 by lia. rewrite Zmod_even, Heven. lia. }
  split.
  { unfold init.
    assert (Hcond : Value.lt str_to_num (VNum n) (VNum 6)
                    || Value.gt str_to_num (VNum n) (VNum 22)
                    || negb (Z.land (Value.to_int32 str_to_num (VNum n)) 1 =? 0) = false).
    { cbn.
      destruct (n <? 6) eqn:E1; [apply Z.ltb_lt in E1; lia|].
      destruct (22 <? n) eqn:E2; [apply Z.ltb_lt in E2; lia|]. cbn.
      rewrite to_int32_small by lia.
      change 1 with (Z.ones 1). rewrite Z.land_ones by lia.
      rewrite Zmod_even, Heven. reflexivity. }
    rewrite Hcond. cbv zeta.
    assert (Hloop : exists j,
              Simulator.init_loop 32 (Simulator.texWidth (Simulator.create (VNum n))) 1
                = Some j).
    { rewrite create_texArray by assumption. cbn [Simulator.texWidth].
      assert (Hm : n / 2 = 3 \/ n / 2 = 4 \/ n / 2 = 5 \/ n / 2 = 6 \/ n / 2 = 7 \/
                   n / 2 = 8 \/ n / 2 = 9 \/ n / 2 = 10 \/ n / 2 = 11) by lia.
      destruct Hm as [->|[->|[->|[->|[->|[->|[->|[->| ->]]]]]]]];
        eexists; reflexivity. }
    destruct Hloop as [j ->]. reflexivity. }
  rewrite create_texArray by assumption.
  split.
  { unfold Simulator.wf.
    cbn [Simulator.texArray Simulator.texWidth Simulator.stateCnt
         Simulator.rtInput1 Simulator.rtInput2].
    rewrite Arr_set_length, length_replicate.
    split; [lia|]. split; [reflexivity|]. split.
    - rewrite <- Z.pow_add_r by lia. f_equal. lia.
    - lia. }
  split.
  { unfold Simulator.amplitude, Simulator.current.
    cbn [Simulator.currentOutput Simulator.rtInput1].
    change (4 * 0) with 0. change (0 + 1) with 1.
    rewrite Arr_get_set_eq by (rewrite length_replicate; lia).
    rewrite Arr_get_set_ne by lia.
    rewrite Arr_get_replicate by lia. reflexivity. }
  intros i Hi. unfold Simulator.amplitude, Simulator.current.
  cbn [Simulator.currentOutput Simulator.rtInput1].
  rewrite !Arr_get_set_ne by lia.
  rewrite !Arr_get_replicate by lia. reflexivity.
Qed.

(** *** The inverse placement *)

(** X19: for integers [0 <= x < 2^31] and [2 <= N <= 2^26] with
    [N * 2^w <= 2^31], [applyRevExpModN(x, N, w)] returns, and in the new
    state vector the amplitude at index [(i^x mod N) * 2^w + i] is the old
    amplitude [i] as [getState] reads it back, for every [i < 2^w] whose
    index lies inside the vector; every other amplitude is zero.  The
    base and the exponent of [applyExpModN] are exchanged. *)
Theorem applyRevExpModN_places (n x N w : Z) (s : Simulator.Sim) :
  Simulator.wf n s -> 0 <= x < 2 ^ 31 -> 2 <= N -> N <= 2 ^ 26 -> 0 <= w ->
  N * 2 ^ w <= 2 ^ 31 ->
  exists s',
    Simulator.applyRevExpModN (VNum x) (VNum N) (VNum w) s = Some s' /\
    (forall i, 0 <= i < 2 ^ w -> (i ^ x mod N) * 2 ^ w + i < 2 ^ n ->
       exists re im,
         Simulator.amplitude s i = Some (re, im) /\
         Simulator.amplitude s' ((i ^ x mod N) * 2 ^ w + i)
           = Some (Simulator.readback re, Simulator.readback im)) /\
    (forall t, 0 <= t < 2 ^ n ->
       (forall i, 0 <= i < 2 ^ w -> t <> (i ^ x mod N) * 2 ^ w + i) ->
       Simulator.amplitude s' t = Some (fzero, fzero)).
Proof.
  intros Hwf Hx HN HN26 Hw HNw.
  assert (Hpw : 1 <= 2 ^ w) by (apply (Z.pow_le_mono_r 2 0 w); lia).
  assert (Hw30 : w <= 30).
  { destruct (Z_le_gt_dec w 30) as [|Hgt]; [assumption|].
    assert (2 ^ 31 <= 2 ^ w) by (apply Z.pow_le_mono_r; lia). nia. }
  assert (Hpw30 : 2 ^ w <= 2 ^ 30) by (apply Z.pow_le_mono_r; lia).
  pose proof (fun i => getState_read n s i Hwf) as Hread.
  unfold Simulator.applyRevExpModN, Simulator.permute.
  destruct (Simulator.getState s) as [state s1] eqn:Hgs.
  assert (Hs1 : s1 = Simulator.set_rtOutput
            (Simulator.plane (Simulator.current s)
               (Simulator.texWidth s * Simulator.texWidth s) 1) s).
  { unfold Simulator.getState in Hgs. congruence. }
  assert (Hwf1 : Simulator.wf n s1) by (subst s1; exact Hwf).
  pose proof (zeroed_texArray n s1 Hwf1) as Hzero.
  cbn [Simulator.texArray Simulator.set_texArray].
  rewrite Hzero.
  assert (Hcnt : JS.shl32 1 (Simulator.shift_count (VNum w)) = 2 ^ w).
  { unfold Simulator.shift_count. cbn [ToNumber]. apply shl32_one. lia. }
  rewrite Hcnt.
  set (tgt := fun i => (i ^ x mod N) * 2 ^ w + i).
  destruct (place_rounds state (VNum w)
              (fun i => QMath.expModN (Some i) (ToNumber str_to_num (VNum x))
                                      (ToNumber str_to_num (VNum N)))
              tgt (Arr.range (2 ^ w))
              (replicate (length (Simulator.texArray s1)) fzero))
    as (tex' & Hfold & Hlen & Hhit & Hmiss).
  { intros i Hi. apply Arr_range_elem in Hi.
    exists (Some (i ^ x mod N)). split.
    - cbn [ToNumber]. apply expModN_correct; lia.
    - pose proof (Z.mod_pos_bound (i ^ x) N ltac:(lia)) as Hb.
      unfold Simulator.shift_count, JS.num_to_int32. cbn [ToNumber].
      rewrite to_int32_small by lia.
      rewrite shl32_small by (try lia; nia). reflexivity. }
  { intros i j Hi Hj. apply Arr_range_elem in Hi, Hj. unfold tgt.
    apply target_injective; lia. }
  unfold Simulator.place_all. rewrite Hfold.
  eexists. split; [reflexivity|].
  destruct Hwf1 as (Hn & _ & _ & Hta & _).
  rewrite length_replicate in Hlen, Hhit.
  cbn [fst] in Hread.
  split.
  - intros i Hi Hin.
    pose proof (Z.mod_pos_bound (i ^ x) N ltac:(lia)) as Hmod.
    destruct (Hread i) as (re & im & Hamp & Hre' & Him'); [nia|].
    exists re, im. split; [exact Hamp|].
    destruct (Hhit i) as [Hre Him].
    { apply Arr_range_elem. lia. }
    { unfold tgt. nia. }
    { unfold tgt. lia. }
    unfold Simulator.amplitude, Simulator.setState, Simulator.current. cbn.
    unfold tgt in Hre, Him. rewrite Hre, Him, Hre', Him'. reflexivity.
  - intros t Ht Hfree.
    unfold Simulator.amplitude, Simulator.setState, Simulator.current. cbn.
    rewrite !Hmiss.
    + rewrite !Arr_get_replicate by lia. reflexivity.
    + intros i Hi. apply Arr_range_elem in Hi.
      specialize (Hfree i Hi). unfold tgt. lia.
    + intros i Hi. apply Arr_range_elem in Hi.
      specialize (Hfree i Hi). unfold tgt. lia.
Qed.

(** *** The two Fourier transforms *)

Lemma fold_left_same {A B : Type} (f g : A -> B -> A) (l : list B) (a : A) :
  (forall a b, f a b = g a b) -> fold_left f l a = fold_left g l a.
Proof.
  intros Hfg. revert a. induction l as [|b l IH]; intros a; [reflexivity|].
  cbn. rewrite Hfg. apply IH.
Qed.

Lemma fold_left_flat_map {A B C : Type} (f : A -> C -> A) (g : B -> list C)
    (l : list B) (a : A) :
  fold_left f (flat_map g l) a = fold_left (fun a b => fold_left f (g b) a) l a.
Proof.
  revert a. induction l as [|b l IH]; intros a; [reflexivity|].
  cbn [flat_map fold_left]. rewrite fold_left_app. apply IH.
Qed.

Lemma fold_left_map {A B C : Type} (f : A -> C -> A) (g : B -> C)
    (l : list B) (a : A) :
  fold_left f (map g l) a = fold_left (fun a b => f a (g b)) l a.
Proof.
  revert a. induction l as [|b l IH]; intros a; [reflexivity|]. cbn. apply IH.
Qed.

Lemma rev_map_flat_map {B C : Type} (h : C -> C) (g : B -> list C) (l : list B) :
  rev (map h (flat_map g l)) = flat_map (fun b => rev (map h (g b))) (rev l).
Proof.
  induction l as [|b l IH]; [reflexivity|].
  cbn [flat_map rev]. rewrite map_app, rev_app_distr, IH.
  rewrite flat_map_app. cbn [flat_map]. rewrite app_nil_r. reflexivity.
Qed.

(** X20: [applyQFT] applies, qubit after qubit of the window, a Hadamard gate
    and the phase shifts controlled by the higher qubits; [applyInvQFT]
    applies the same gates in the opposite order, each phase shift with
    the opposite sign. *)
Theorem applyInvQFT_reverses_applyQFT (offset width : Val) (s : Simulator.Sim) :
  Simulator.applyQFT offset width s
    = fold_left RegisterSpec.run_gate
        (RegisterSpec.qft_gates offset (Simulator.loop_count width)) s /\
  Simulator.applyInvQFT offset width s
    = fold_left RegisterSpec.run_gate
        (rev (map RegisterSpec.opposite
                (RegisterSpec.qft_gates offset (Simulator.loop_count width)))) s.
Proof.
  split.
  - unfold Simulator.applyQFT, RegisterSpec.qft_gates.
    rewrite fold_left_flat_map.
    apply fold_left_same. intros s1 i.
    unfold RegisterSpec.gates_on. cbn [fold_left RegisterSpec.run_gate].
    rewrite fold_left_map. reflexivity.
  - unfold Simulator.applyInvQFT, Simulator.loop_count, RegisterSpec.qft_gates.
    destruct (ToNumber str_to_num width) as [w|]; [|reflexivity].
    rewrite rev_map_flat_map, fold_left_flat_map.
    apply fold_left_same. intros s1 i.
    unfold RegisterSpec.gates_on. cbn [map rev RegisterSpec.opposite].
    rewrite fold_left_app. cbn [fold_left RegisterSpec.run_gate].
    f_equal.
    rewrite map_map, <- map_rev, fold_left_map.
    replace (w - 1 - i) with (w - (i + 1)) by lia.
    rewrite <- map_rev, fold_left_map.
    apply fold_left_same. intros s2 d. reflexivity.
Qed.

End Register.

End RegisterFacts.

(** ** The further theorems on concrete inputs *)

Module MoreExamples.

Import Compiler Engine EngineSpec EngineFacts Inputs Examples Cases.
Import StepSpec StepFacts RegisterFacts FunctionFacts.
#[local] Existing Instances Demo.floats Demo.gpu Demo.host.

Lemma shadow_parents_below : parents_below (funcs shadow_q2).
Proof.
  assert (Hm : funcs shadow_q2 !! 0%nat = Some main_of_shadow) by found.
  assert (Hf : funcs shadow_q2 !! 1%nat
               = Some (default no_Func (funcs shadow_q2 !! 1%nat))) by found.
  assert (Hlen : length (funcs shadow_q2) = 2%nat) by by_vm.
  assert (Hpm : parent main_of_shadow = None) by by_vm.
  assert (Hpf : parent (default no_Func (funcs shadow_q2 !! 1%nat)) = Some 0%nat) by by_vm.
  intros i f p Hi Hpar. destruct i as [|[|i]].
  - rewrite Hm in Hi. apply (inj Some) in Hi. subst f. congruence.
  - rewrite Hf in Hi. apply (inj Some) in Hi. subst f.
    rewrite Hpf in Hpar. apply (inj Some) in Hpar. subst p. lia.
  - apply lookup_lt_Some in Hi. lia.
Qed.

(** Witness: looking up [f] from inside [f], which [__main__] declares. *)
Lemma findFunction_innermost_witness :
  (forall g, findFunction (funcs shadow_q2) 1 "f" = Hit g ->
     exists a fa, up (funcs shadow_q2) 1 a /\ funcs shadow_q2 !! a = Some fa /\
       functions fa !! "f" = Some g /\
       forall j fj, up (funcs shadow_q2) 1 j -> up (funcs shadow_q2) j a -> j <> a ->
                    funcs shadow_q2 !! j = Some fj -> functions fj !! "f" = None) /\
  (findFunction (funcs shadow_q2) 1 "f" = Miss ->
     forall j fj, up (funcs shadow_q2) 1 j -> funcs shadow_q2 !! j = Some fj ->
                  functions fj !! "f" = None) /\
  (findFunction (funcs shadow_q2) 1 "f" = Broken ->
     exists a fa, up (funcs shadow_q2) 1 a /\ funcs shadow_q2 !! a = Some fa /\
                  HAS_OWN ∈ dom (functions fa)).
Proof. exact (findFunction_innermost (funcs shadow_q2) 1 "f" shadow_parents_below). Defined.

(** Witness: a script of one comment and one blank line. *)
Lemma blank_script_has_no_line_witness :
  exists c main,
    Compiler.compile comment_only = Ok c /\
    Compiler.errors (c_state c) = [] /\
    Compiler.funcs (c_state c) = [main] /\ code main = [] /\
    isDone (compiled c) = Done true (compiled c) /\
    getCurrentLine (compiled c) = Thrown "TypeError" (compiled c).
Proof.
  apply (blank_script_has_no_line comment_only).
  assert (Hlines : Text.compile_text comment_only = ["// nothing"; "   "]) by by_vm.
  rewrite Hlines. repeat constructor.
Defined.

(** Witness: the record of the step [x = 5]. *)
Lemma runStep_record_aligned_witness :
  exists rec, history_ assign_q1 = rec :: history_ assign_q0 /\
              NoDup (symbols rec) /\ length (symbols rec) = length (values rec).
Proof.
  apply (runStep_record_aligned assign_q0 assign_q1 (func_at assign_q0) (op_at assign_q0)).
  - found.
  - found.
  - run_ok.
Defined.

(** Witness: [return] inside [f], called from [__main__]. *)
Lemma return_goes_back_witness :
  exists q1,
    runStep return_q1 = Done tt q1 /\
    currentFunc q1 = frame_func caller_frame /\ currentStep q1 = frame_step caller_frame /\
    callStack q1 = tail (callStack return_q1) /\
    history_ q1 = mkStepData [] [] (currentFunc return_q1) (currentStep return_q1)
                  :: history_ return_q1.
Proof.
  apply (return_goes_back return_q1 (func_at return_q1) (op_at return_q1)).
  - found.
  - found.
  - by_vm.
  - apply cons_head_tail. by_vm.
Defined.

(** Witness: the step [x = 5] is of the third kind. *)
Lemma runStep_progress_witness :
  (isDone assign_q0 = Done true assign_q0 /\ assign_q1 = assign_q0) \/
  (isDone assign_q0 = Done false assign_q0 /\
   Z.of_nat (length (code (func_at assign_q0))) <= currentStep assign_q0 /\
   exists frame rest,
     callStack assign_q0 = frame :: rest /\
     assign_q1 = set_position (frame_func frame) (frame_step frame)
                   (set_callStack rest assign_q0)) \/
  (isDone assign_q0 = Done false assign_q0 /\
   exists op rec,
     Arr.get (code (func_at assign_q0)) (currentStep assign_q0) = Some op /\
     history_ assign_q1 = rec :: history_ assign_q0 /\
     func rec = currentFunc assign_q0 /\ step rec = currentStep assign_q0).
Proof.
  apply (runStep_progress assign_q0 assign_q1 (func_at assign_q0)).
  - found.
  - run_ok.
Defined.

(** Witness: [QFTCPhase 1, 2] on six qubits. *)
Lemma control_must_be_above_witness :
  execute QFTCPhase [VNum 1; VNum 2] six_qubits
    = Done tt (set_errors (errors six_qubits ++ [control_below QFTCPhase]) six_qubits).
Proof.
  apply (control_must_be_above QFTCPhase six_qubits [VNum 1; VNum 2] 6 1 2).
  - left. reflexivity.
  - by_vm.
  - reflexivity.
  - reflexivity.
  - lia.
  - lia.
  - lia.
Defined.

(** Witness: [VectorSize 7]. *)
Lemma init_refuses_witness :
  init (VNum 7) assign_q0
    = Done tt (set_errors (errors assign_q0 ++ [bad_size 7]) assign_q0).
Proof. apply (init_refuses assign_q0 7); [right; right; reflexivity|lia]. Defined.

(** Witness: [VectorSize 6]. *)
Lemma init_creates_zero_state_witness :
  init (VNum 6) assign_q0
    = Done tt (set_simulator (Some (Simulator.create (VNum 6)))
                             (set_vectorSize (VNum 6) assign_q0)) /\
  Simulator.wf 6 (Simulator.create (VNum 6)) /\
  Simulator.amplitude (Simulator.create (VNum 6)) 0 = Some (fone, fzero) /\
  (forall i, 0 < i < 2 ^ 6 ->
     Simulator.amplitude (Simulator.create (VNum 6)) i = Some (fzero, fzero)).
Proof. apply (init_creates_zero_state assign_q0 6); [lia|reflexivity]. Defined.

(** Witness: [applyRevExpModN(3, 15, 2)] on the superposition of the
    basis states 0 and 1. *)
Lemma applyRevExpModN_places_witness :
  exists s',
    Simulator.applyRevExpModN (VNum 3) (VNum 15) (VNum 2) measure_sim = Some s' /\
    (forall i, 0 <= i < 2 ^ 2 -> (i ^ 3 mod 15) * 2 ^ 2 + i < 2 ^ 6 ->
       exists re im,
         Simulator.amplitude measure_sim i = Some (re, im) /\
         Simulator.amplitude s' ((i ^ 3 mod 15) * 2 ^ 2 + i)
           = Some (Simulator.readback re, Simulator.readback im)) /\
    (forall t, 0 <= t < 2 ^ 6 ->
       (forall i, 0 <= i < 2 ^ 2 -> t <> (i ^ 3 mod 15) * 2 ^ 2 + i) ->
       Simulator.amplitude s' t = Some (fzero, fzero)).
Proof.
  apply (applyRevExpModN_places 6 3 15 2 measure_sim).
  - exact measure_sim_wf.
  - lia.
  - lia.
  - lia.
  - lia.
  - lia.
Defined.

End MoreExamples.
